(** * The translation service: admission control, dispatch and shutdown

    A shallow embedding of [src/translator/service.cpp] (namespace
    [marian::bergamot]).  The file has two parts.

    - The model.  [loadVocabularies] is a fold over the list of vocabulary
      files with an explicit object heap.  The [Service] itself is shared
      between the client thread, the task launched at line 122 and the worker
      threads started by the constructor, so it is embedded as a labelled
      transition system: [step] takes one atomic action of one thread, and
      [run] follows a schedule.  Every case of [step] quotes the lines of the
      source it stands for.  [step] has one client thread, the main thread
      of the comment at lines 53-55; [turn] lets several client threads
      call into the service, each on a frame of its own.

    - The theorems about the model. *)

From Stdlib Require Import ZArith Lia.
From stdpp Require Import base option list gmap strings.

(** ** Options and vocabularies *)

(** The three options the service reads: ["cpu-threads"], ["capacity-bytes"]
    and ["vocabs"].  A negative number of threads is not modelled. *)
Record Options := mkOptions {
  cpu_threads : nat;
  capacity_bytes : Z;
  vocabs : list string
}.

(** A [Vocab] object as far as this file can tell them apart:
    [New<Vocab>(options, i)] followed by [load(vfiles[i])]. *)
Record Vocab := mkVocab {
  batchIndex : nat;
  loadedFrom : string
}.

(** State of the loop of [loadVocabularies].  A [Ptr<Vocab>] is [None] (null)
    or the address of an object of [heap]. *)
Record VocabLoader := mkVocabLoader {
  heap : list Vocab;
  vmap : gmap string (option nat);
  vocabsVec : list (option nat)
}.

(** [std::unordered_map::emplace]: inserts only when the key is absent, and
    tells whether it did. *)
Definition emplace (k : string) (v : option nat) (m : gmap string (option nat))
  : gmap string (option nat) * bool :=
  match m !! k with
  | Some _ => (m, false)
  | None => (<[k := v]> m, true)
  end.

(** One iteration of the loop at lines 168-175. *)
Definition loadVocabulary (vfiles : list string) (st : VocabLoader) (i : nat)
  : VocabLoader :=
  match vfiles !! i with
  | None => st
  | Some file =>
      let '(vmap1, inserted) := emplace file None (vmap st) in
      let '(heap1, vmap2) :=
        if inserted : bool
        then (heap st ++ [mkVocab i file],
              <[file := Some (length (heap st))]> vmap1)
        else (heap st, vmap1) in
      mkVocabLoader heap1 vmap2
        (<[i := default None (vmap2 !! file)]> (vocabsVec st))
  end.

(** Lines 161-177.  [None] is the [ABORT_IF]; otherwise the vector of
    pointers, with the heap they point into. *)
Definition loadVocabularies (options : Options)
  : option (list (option nat) * list Vocab) :=
  let vfiles := vocabs options in
  if bool_decide (length vfiles < 2) then None
  else
    let st :=
      foldl (loadVocabulary vfiles)
            (mkVocabLoader [] ∅ (replicate (length vfiles) None))
            (seq 0 (length vfiles)) in
    Some (vocabsVec st, heap st).

(** What holds after the first [k] turns of the loop of
    [loadVocabularies]: the map knows exactly the files seen so far, each
    with the address of a vocabulary loaded from it; the vector holds what
    the map holds; and every vocabulary made is the one of its file. *)
Record LoaderInv (vfiles : list string) (k : nat) (st : VocabLoader) : Prop := {
  inv_length : length (vocabsVec st) = length vfiles;
  inv_known f : f ∈ take k vfiles →
    ∃ p v, vmap st !! f = Some (Some p) ∧ heap st !! p = Some v ∧ loadedFrom v = f;
  inv_only f x : vmap st !! f = Some x → f ∈ take k vfiles;
  inv_vec i f : i < k → vfiles !! i = Some f → vocabsVec st !! i = vmap st !! f;
  inv_heap p v : heap st !! p = Some v → vmap st !! loadedFrom v = Some (Some p)
}.

(** ** Requests, trackers, batches *)

(** Modelled from the spec: the status codes (definitions.h) are not under
    src/.  The spec names UNSET, QUEUED, SUCCESS and REJECTED_MEMORY. *)
Inductive StatusCode := UNSET | QUEUED | SUCCESS | REJECTED_MEMORY.

(** What the text processor makes of an input: the words of every sentence,
    and where the sentence lies in the text. *)
Definition Segment := list nat.
Definition SentenceRange := (nat * nat)%type.

(** Modelled from the spec: [Response] (response.h) is not under src/.  "A
    Response value (success payload or an empty placeholder on
    rejection)". *)
Inductive Response :=
| EmptyResponse
| TranslatedResponse (source : string).

(** Modelled from the spec: [RequestTracker] (request_tracker.h) is not
    under src/.  "A status enum"; "a future/awaitable handle to the eventual
    Response"; "a weak association to the Request it tracks".  [future] is
    the shared state of the promise made at line 69, [None] until
    [set_value]; [tracked] is set by [track]. *)
Record RequestTracker := mkTracker {
  status : StatusCode;
  future : option Response;
  tracked : option nat
}.

(** The closure built at lines 102-106, with its captures. *)
Inductive Callback :=
| CompletionCallback (tracker : nat) (inputBytes : Z).

(** Modelled from the spec: [Request] (request.h) is not under src/.  The
    fields are the arguments of the constructor at lines 94-96 but the
    vocabularies ([promise] is the tracker whose future shares the state of
    the promise), the callbacks registered with [onCompleteRequest], and the
    number of sentences still to be translated. *)
Record Request := mkRequest {
  Id : Z;
  lineNumberBegin : Z;
  nice : Z;
  source : string;
  segments : list Segment;
  sourceRanges : list SentenceRange;
  promise : nat;
  counter : nat;
  callbacks : list Callback
}.

(** A sentence of a request: the address of the request and the index of
    the sentence. *)
Definition RequestSentence := (nat * nat)%type.

(** Modelled from the spec: [Batch] (batch.h) is not under src/.  "A finite
    collection of inference-ready units drawn from one or more Requests",
    or the poison value that "carries no work". *)
Inductive Batch :=
| Poison
| Sentences (l : list RequestSentence).

(** The sentences of a request, as the batcher receives them. *)

Definition sentencesOf (r : nat) (req : Request) : list RequestSentence :=
  (λ i, (r, i)) <$> seq 0 (length (segments req)).

(** ** What the service is linked against

    The text processor, the integer types declared in [service.h] and the
    [Batcher] are not part of [service.cpp].  They are parameters of the
    model.

    - [wrapCapacity z] is the value the counter [capacityBytes_] holds after
      it is assigned the mathematical result [z]; [asSize z] is the value
      [z] of the counter converted for the comparison with a [size_t] at
      line 75; [wrapId] is [wrapCapacity] for [requestId_].
    - [pending] is the abstraction function of the [Batcher]: the sentences
      it holds. *)
Class Environment := {
  process : string → list Segment * list SentenceRange;
  wrapCapacity : Z → Z;
  asSize : Z → Z;
  wrapId : Z → Z;
  Batcher : Type;
  newBatcher : Batcher;
  addWholeRequest : nat → Request → Batcher → Batcher;
  cleaveBatch : Batcher → option (list RequestSentence * Batcher);
  cancelRequest : nat → Batcher → Batcher;
  amendRequest : nat → Z → Batcher → Batcher;
  pending : Batcher → list RequestSentence
}.

(** Modelled from the spec: the [Batcher] (batcher.h, batcher.cpp) is not
    under src/.  "Accumulates Requests and emits Batches; supports cancel and
    priority amendment of not-yet-dispatched requests"; [operator>>] is "pull
    one ready Batch, false if none".  How sentences are grouped and ordered
    is left open. *)
Class BatcherLaws `{Environment} : Prop := {
  pending_new : pending newBatcher = [];
  pending_add r req b :
    pending (addWholeRequest r req b) ≡ₚ pending b ++ sentencesOf r req;
  cleave_none b : cleaveBatch b = None ↔ pending b = [];
  cleave_some b l b' :
    cleaveBatch b = Some (l, b') → l ≠ [] ∧ pending b ≡ₚ l ++ pending b';
  pending_cancel r b :
    pending (cancelRequest r b) = filter (λ u, u.1 ≠ r) (pending b);
  pending_amend r n b : pending (amendRequest r n b) ≡ₚ pending b
}.

(** Modelled from the spec: the queue (pcqueue.h) is not under src/.
    "Bounded concurrent hand-off of Batches ...; blocking push/pop": a push
    needs a free slot and a pop needs an item, and a thread that finds
    neither cannot take its step. *)
Record PCQueue := mkPCQueue {
  bound : nat;
  items : list Batch
}.

(** Modelled from the spec: a push into the queue; [None] when it has to
    wait for a slot. *)
Definition ProduceSwap (b : Batch) (q : PCQueue) : option PCQueue :=
  if bool_decide (length (items q) < bound q)
  then Some (mkPCQueue (bound q) (items q ++ [b]))
  else None.

(** Modelled from the spec: a pop from the queue; [None] when it has to
    wait for an item. *)
Definition ConsumeSwap (q : PCQueue) : option (Batch * PCQueue) :=
  match items q with
  | [] => None
  | b :: rest => Some (b, mkPCQueue (bound q) rest)
  end.

(** ** Threads, events and the state of the system *)

(** A worker thread runs [translator.initialize()] and then
    [translator.consumeFrom(pcqueue_)] (lines 35-38): it initializes, waits
    at the queue, translates the sentences of a batch one after the other,
    or has left its loop. *)
Inductive WorkerState :=
| Initializing
| Consuming
| Translating (rest : list RequestSentence)
| Exited.

(** The closures handed to [std::async]: [queueInBackground] at line 122,
    the closure of [cancel] at line 138 and the closure of [amend] at line
    142, the last two with what they capture. *)
Inductive Closure :=
| QueueInBackground
| CancelClosure (tracker : nat)
| AmendClosure (tracker : nat) (nice : Z).

(** What the service does to the world around it, in the order it happens:
    text processing, the construction of a request, its registration with
    the batcher, the launch of a task, a push into the queue, the
    translation of a batch, the join of a thread. *)
Inductive Event :=
| EProcess (input : string)
| ENewRequest (id line priority : Z)
| EAddWholeRequest (r : nat)
| EAsync (f : Closure)
| EProduce (b : Batch)
| ETranslate (cpuId : nat) (l : list RequestSentence)
| EJoin (w : nat).

(** Where the call in progress stands.  The frames of [translatePart] carry
    its locals.

    In the two [QueueInBackground] frames the closure of lines 118-121 runs
    in the thread that [std::async] started, and the client thread waits
    for it at line 122.  The future that [std::async] returns for the policy
    [std::launch::async] is a temporary there; its destructor runs at the
    end of the statement and blocks until the task has finished (C++
    standard, [futures.async]).  The closure holds [input],
    [responsePromise] and [tracker], locals of [translatePart], by
    reference. *)
Inductive Pc :=
| Outside (returned : option nat)
| TranslatePart_accept (tracker : nat) (input : string) (line : Z)
| QueueInBackground_prepare (tracker : nat) (input : string) (line : Z)
| QueueInBackground_produce (tracker : nat)
| TranslatePart_prepare (tracker : nat) (input : string) (line : Z)
| TranslatePart_drain (tracker : nat)
| Stop_poison (i : nat) (destroying : bool)
| Stop_join (i : nat) (destroying : bool)
| Stop_clear (destroying : bool)
| Destroyed.

(** What the client asks of the service. *)
Inductive Call :=
| CallTranslate (input : string)
| CallTranslateWithCopy (input : string)
| CallTranslatePart (input : string) (line : Z)
| CallCancel (tracker : nat)
| CallAmend (tracker : nat) (priority : Z)
| CallStop
| CallDestructor.

(** One atomic action: the client enters the service, the call in progress
    advances, or worker [cpuId] advances.  There is one client thread, the
    main thread of the comment at service.cpp lines 53-55; the workers run
    beside it. *)
Inductive Label :=
| LCall (c : Call)
| LAdvance
| LWorker (cpuId : nat).

Definition isCall (l : Label) : bool :=
  match l with LCall _ => true | _ => false end.

(** The call hands [input] to the service. *)
Definition submits (c : Call) (input : string) : Prop :=
  c = CallTranslate input ∨ c = CallTranslateWithCopy input ∨
  ∃ line, c = CallTranslatePart input line.

(** [input.size()], line 73. *)
Definition inputBytes (input : string) : Z := Z.of_nat (String.length input).

(** Updates of one field of a request or of a tracker. *)

Definition with_counter (n : nat) (r : Request) : Request :=
  mkRequest (Id r) (lineNumberBegin r) (nice r) (source r) (segments r)
            (sourceRanges r) (promise r) n (callbacks r).

Definition with_nice (n : Z) (r : Request) : Request :=
  mkRequest (Id r) (lineNumberBegin r) n (source r) (segments r)
            (sourceRanges r) (promise r) (counter r) (callbacks r).

Definition with_callback (c : Callback) (r : Request) : Request :=
  mkRequest (Id r) (lineNumberBegin r) (nice r) (source r) (segments r)
            (sourceRanges r) (promise r) (counter r) (callbacks r ++ [c]).

Definition with_status (c : StatusCode) (t : RequestTracker) : RequestTracker :=
  mkTracker c (future t) (tracked t).

Definition with_future (v : Response) (t : RequestTracker) : RequestTracker :=
  mkTracker (status t) (Some v) (tracked t).

Definition with_tracked (r : nat) (t : RequestTracker) : RequestTracker :=
  mkTracker (status t) (future t) (Some r).

(** The members of [Service] (the trailing underscore is the source's),
    then the objects they point to, the worker threads, the events so far
    and the position of the client.  [B] is the type of the batcher. *)
Record SystemOf (B : Type) := mkSystem {
  requestId_ : Z;
  numWorkers_ : nat;
  vocabs_ : list (option nat);
  batcher_ : B;
  capacityBytes_ : Z;
  pcqueue_ : PCQueue;
  workers_ : list nat;
  translators_ : list nat;
  trackers : list RequestTracker;
  requests : list Request;
  threads : list WorkerState;
  log : list Event;
  caller : Pc
}.

Arguments mkSystem {B}.
Arguments requestId_ {B}.
Arguments numWorkers_ {B}.
Arguments vocabs_ {B}.
Arguments batcher_ {B}.
Arguments capacityBytes_ {B}.
Arguments pcqueue_ {B}.
Arguments workers_ {B}.
Arguments translators_ {B}.
Arguments trackers {B}.
Arguments requests {B}.
Arguments threads {B}.
Arguments log {B}.
Arguments caller {B}.

Abbreviation System := (SystemOf Batcher).

Section Model.
Context `{Environment}.

Definition set_requestId (v : Z) (s : System) : System :=
  mkSystem v (numWorkers_ s) (vocabs_ s) (batcher_ s) (capacityBytes_ s)
    (pcqueue_ s) (workers_ s) (translators_ s) (trackers s) (requests s)
    (threads s) (log s) (caller s).

Definition set_batcher (v : Batcher) (s : System) : System :=
  mkSystem (requestId_ s) (numWorkers_ s) (vocabs_ s) v (capacityBytes_ s)
    (pcqueue_ s) (workers_ s) (translators_ s) (trackers s) (requests s)
    (threads s) (log s) (caller s).

Definition set_capacityBytes (v : Z) (s : System) : System :=
  mkSystem (requestId_ s) (numWorkers_ s) (vocabs_ s) (batcher_ s) v
    (pcqueue_ s) (workers_ s) (translators_ s) (trackers s) (requests s)
    (threads s) (log s) (caller s).

Definition set_pcqueue (v : PCQueue) (s : System) : System :=
  mkSystem (requestId_ s) (numWorkers_ s) (vocabs_ s) (batcher_ s)
    (capacityBytes_ s) v (workers_ s) (translators_ s) (trackers s)
    (requests s) (threads s) (log s) (caller s).

Definition set_workers (v : list nat) (s : System) : System :=
  mkSystem (requestId_ s) (numWorkers_ s) (vocabs_ s) (batcher_ s)
    (capacityBytes_ s) (pcqueue_ s) v (translators_ s) (trackers s)
    (requests s) (threads s) (log s) (caller s).

Definition set_trackers (v : list RequestTracker) (s : System) : System :=
  mkSystem (requestId_ s) (numWorkers_ s) (vocabs_ s) (batcher_ s)
    (capacityBytes_ s) (pcqueue_ s) (workers_ s) (translators_ s) v
    (requests s) (threads s) (log s) (caller s).

Definition set_requests (v : list Request) (s : System) : System :=
  mkSystem (requestId_ s) (numWorkers_ s) (vocabs_ s) (batcher_ s)
    (capacityBytes_ s) (pcqueue_ s) (workers_ s) (translators_ s)
    (trackers s) v (threads s) (log s) (caller s).

Definition set_threads (v : list WorkerState) (s : System) : System :=
  mkSystem (requestId_ s) (numWorkers_ s) (vocabs_ s) (batcher_ s)
    (capacityBytes_ s) (pcqueue_ s) (workers_ s) (translators_ s)
    (trackers s) (requests s) v (log s) (caller s).

Definition emit (e : Event) (s : System) : System :=
  mkSystem (requestId_ s) (numWorkers_ s) (vocabs_ s) (batcher_ s)
    (capacityBytes_ s) (pcqueue_ s) (workers_ s) (translators_ s)
    (trackers s) (requests s) (threads s) (log s ++ [e]) (caller s).

Definition set_caller (v : Pc) (s : System) : System :=
  mkSystem (requestId_ s) (numWorkers_ s) (vocabs_ s) (batcher_ s)
    (capacityBytes_ s) (pcqueue_ s) (workers_ s) (translators_ s)
    (trackers s) (requests s) (threads s) (log s) v.

(** ** The constructor (lines 11-41)

    It aborts when [loadVocabularies] does.  Otherwise: id counter 0, the
    capacity counter set from ["capacity-bytes"], a queue of twice
    ["cpu-threads"] slots, and one translator (device 0, initialized in
    place) and no thread for ["cpu-threads"] 0, or else one translator and
    one thread for each [cpuId], the threads about to initialize. *)
Definition newService (options : Options) : option System :=
  match loadVocabularies options with
  | None => None
  | Some (vs, _) =>
      let n := cpu_threads options in
      Some (mkSystem 0 n vs newBatcher
              (wrapCapacity (capacity_bytes options))
              (mkPCQueue (2 * n) [])
              (seq 0 n)
              (if bool_decide (n = 0) then [0] else seq 0 n)
              [] []
              (replicate n Initializing)
              []
              (Outside None))
  end.

(** ** Trackers and requests *)

(** Modelled from the spec: [RequestTracker::setStatus] is not under src/;
    it sets the status of tracker [t]. *)
Definition setStatus (t : nat) (c : StatusCode) (s : System) : System :=
  set_trackers (alter (with_status c) t (trackers s)) s.

(** [std::promise::set_value], on the state shared with the future of
    tracker [t]. *)
Definition set_value (t : nat) (v : Response) (s : System) : System :=
  set_trackers (alter (with_future v) t (trackers s)) s.

(** Modelled from the spec: [RequestTracker::track] is not under src/; it
    lets tracker [t] refer to request [r]. *)
Definition track (t r : nat) (s : System) : System :=
  set_trackers (alter (with_tracked r) t (trackers s)) s.

(** Modelled from the spec: [Request::onCompleteRequest] is not under src/;
    it adds a callback to the list of request [r]. *)
Definition onCompleteRequest (r : nat) (c : Callback) (s : System) : System :=
  set_requests (alter (with_callback c) r (requests s)) s.

(** The body of the closure of lines 102-106: the tracker is SUCCESS and
    the bytes of the input go back to the counter. *)
Definition callback (c : Callback) (s : System) : System :=
  match c with
  | CompletionCallback tracker bytes =>
      let s := setStatus tracker SUCCESS s in
      set_capacityBytes (wrapCapacity (capacityBytes_ s + bytes)) s
  end.

(** Modelled from the spec: the completion of a [Request] (request.h,
    request.cpp) is not under src/.  The request owns the promise and "a list
    of zero-or-more completion callbacks"; its "completion signal is resolved
    exactly once", when inference has finished for its sentences, and
    translating a batch "triggers per-request completion callbacks as a side
    effect".  The promise is given its value and the callbacks run. *)
Definition completeRequest (r : nat) (s : System) : System :=
  match requests s !! r with
  | None => s
  | Some req =>
      let s := set_value (promise req) (TranslatedResponse (source req)) s in
      foldl (λ s c, callback c s) s (callbacks req)
  end.

(** Modelled from the spec: what the translation of one sentence does to
    its request (request.cpp, not under src/).  [counter] counts the
    sentences still to come, and the request completes when the last of
    them arrives. *)
Definition processHistory (u : RequestSentence) (s : System) : System :=
  match requests s !! u.1 with
  | None => s
  | Some req =>
      match counter req with
      | 0 => s
      | S n =>
          let s := set_requests (<[u.1 := with_counter n req]> (requests s)) s in
          if bool_decide (n = 0) then completeRequest u.1 s else s
      end
  end.

(** Modelled from the spec: [translate] (translator.h) is not under src/.
    "Invoke the collaborator's translate(batch) synchronously, which
    triggers per-request completion callbacks as a side effect once
    inference for that batch's requests finishes".  This is
    [translators_[cpuId].translate(batch)] run to its end, the sentences
    taken in the order of the batch. *)
Definition translateBatch (cpuId : nat) (l : list RequestSentence) (s : System)
  : System :=
  foldl (λ s u, processHistory u s) (emit (ETranslate cpuId l) s) l.

(** ** translatePart (lines 65-135) *)

(** Lines 88-112, the closure [prepareRequest]: the text is processed, a
    request is constructed with the next id, the line number and priority
    20, the tracker tracks it, the callback is registered, the batcher
    receives the request and the tracker is QUEUED. *)
Definition prepareRequest (tracker : nat) (input : string) (line : Z)
    (s : System) : System :=
  let '(segs, ranges) := process input in
  let s := emit (EProcess input) s in
  let id := requestId_ s in
  let s := set_requestId (wrapId (id + 1)) s in
  let request := length (requests s) in
  let req := mkRequest id line 20 input segs ranges tracker (length segs) [] in
  let s := set_requests (requests s ++ [req]) (emit (ENewRequest id line 20) s) in
  let s := track tracker request s in
  let s :=
    onCompleteRequest request (CompletionCallback tracker (inputBytes input)) s in
  let s :=
    match requests s !! request with
    | Some req =>
        set_batcher (addWholeRequest request req (batcher_ s))
                    (emit (EAddWholeRequest request) s)
    | None => s
    end in
  setStatus tracker QUEUED s.

(** Lines 68-79: a tracker with its promise and future, the admission test,
    and the rejection when the test fails.  When it passes, the call goes on
    at line 83. *)
Definition translatePart (input : string) (line : Z) (s : System) : System :=
  let tracker := length (trackers s) in
  let s := set_trackers (trackers s ++ [mkTracker UNSET None None]) s in
  if bool_decide (asSize (capacityBytes_ s) < inputBytes input)%Z then
    let s := setStatus tracker REJECTED_MEMORY s in
    let s := set_value tracker EmptyResponse s in
    set_caller (Outside (Some tracker)) s
  else
    set_caller (TranslatePart_accept tracker input line) s.

(** Lines 83 and 114-126: the capacity is taken, then the request is
    prepared by a task ([numWorkers_ > 0]) or in place. *)
Definition translatePart_accept (tracker : nat) (input : string) (line : Z)
    (s : System) : System :=
  let s :=
    set_capacityBytes (wrapCapacity (capacityBytes_ s - inputBytes input)) s in
  if bool_decide (0 < numWorkers_ s)
  then set_caller (QueueInBackground_prepare tracker input line)
         (emit (EAsync QueueInBackground) s)
  else set_caller (TranslatePart_prepare tracker input line) s.

(** Modelled from the spec: [Batcher::produceTo] is not under src/; it
    pulls batches while there is one and pushes each into the queue.  One
    step pushes one batch; when no batch is left the task ends and
    [translatePart] returns. *)
Definition produceTo (tracker : nat) (s : System) : option System :=
  match cleaveBatch (batcher_ s) with
  | Some (l, b') =>
      q ← ProduceSwap (Sentences l) (pcqueue_ s);
      Some (set_pcqueue q (set_batcher b' (emit (EProduce (Sentences l)) s)))
  | None => Some (set_caller (Outside (Some tracker)) s)
  end.

(** Lines 127-131, one turn of the loop: a batch is pulled and
    [translators_[0]] translates it, or there is none and [translatePart]
    returns. *)
Definition drain (tracker : nat) (s : System) : option System :=
  match cleaveBatch (batcher_ s) with
  | Some (l, b') =>
      match translators_ s !! 0 with
      | Some _ => Some (translateBatch 0 l (set_batcher b' s))
      | None => None
      end
  | None => Some (set_caller (Outside (Some tracker)) s)
  end.

(** Lines 47-63: [translatePart] with line number 0; the future handed
    back is the one of the tracker. *)
Definition translate (input : string) (s : System) : System :=
  translatePart input 0 s.

(** Lines 43-45. *)
Definition translateWithCopy (input : string) (s : System) : System :=
  translate input s.

(** ** cancel and amend (lines 137-143)

    Both hand their closure to [std::async], which is the launch of a task
    whatever the number of workers, and drop the future.  The closure is
    taken to run before the call returns, as at line 122; that an
    implementation may defer it under the default policy, and then never
    runs it, is not modelled. *)

(** The request tracker [t] refers to. *)
Definition trackedRequest (t : nat) (s : System) : option nat :=
  trackers s !! t ≫= tracked.

(** Line 138.  What [Batcher::cancel] does is a parameter. *)
Definition cancel (t : nat) (s : System) : System :=
  let s := emit (EAsync (CancelClosure t)) s in
  set_caller (Outside None)
    match trackedRequest t s with
    | Some r => set_batcher (cancelRequest r (batcher_ s)) s
    | None => s
    end.

(** Line 142.  Modelled from the spec for the part of [Batcher::amend]:
    "change the priority of the still-pending request tracked by
    tracker". *)
Definition amend (t : nat) (priority : Z) (s : System) : System :=
  let s := emit (EAsync (AmendClosure t priority)) s in
  set_caller (Outside None)
    match trackedRequest t s with
    | Some r =>
        if existsb (λ u, u.1 =? r) (pending (batcher_ s))
        then set_requests (alter (with_nice priority) r (requests s))
               (set_batcher (amendRequest r priority (batcher_ s)) s)
        else s
    | None => s
    end.

(** ** stop and the destructor (lines 145-158) *)

(** The client enters [stop], at the first worker of the first loop. *)
Definition stop (s : System) : System := set_caller (Stop_poison 0 false) s.

(** Line 158: the destructor is [stop]; the flag says that the service is
    gone when it returns. *)
Definition destructor (s : System) : System := set_caller (Stop_poison 0 true) s.

(** Lines 146-149, one turn. *)
Definition stop_poison (i : nat) (d : bool) (s : System) : option System :=
  match workers_ s !! i with
  | Some _ =>
      q ← ProduceSwap Poison (pcqueue_ s);
      Some (set_caller (Stop_poison (S i) d)
              (set_pcqueue q (emit (EProduce Poison) s)))
  | None => Some (set_caller (Stop_join 0 d) s)
  end.

(** Lines 151-153, one turn: [join] returns once the thread has ended. *)
Definition stop_join (i : nat) (d : bool) (s : System) : option System :=
  match workers_ s !! i with
  | Some w =>
      match threads s !! w with
      | Some Exited => Some (set_caller (Stop_join (S i) d) (emit (EJoin w) s))
      | _ => None
      end
  | None => Some (set_caller (Stop_clear d) s)
  end.

(** Line 155. *)
Definition stop_clear (d : bool) (s : System) : System :=
  set_caller (if d then Destroyed else Outside None) (set_workers [] s).

(** ** The worker threads *)

(** Modelled from the spec: [consumeFrom] (translator.h) is not under src/.
    "Loop: block-pop one Batch from the shared queue; if the Batch is the
    poison value, exit the loop; otherwise invoke the collaborator's
    translate(batch)".  A step of worker [cpuId]: it finishes its
    initialization, takes a batch, completes a sentence, or goes back to
    the queue. *)
Definition worker (cpuId : nat) (s : System) : option System :=
  match threads s !! cpuId with
  | Some Initializing => Some (set_threads (<[cpuId := Consuming]> (threads s)) s)
  | Some Consuming =>
      match ConsumeSwap (pcqueue_ s) with
      | None => None
      | Some (Poison, q) =>
          Some (set_threads (<[cpuId := Exited]> (threads s)) (set_pcqueue q s))
      | Some (Sentences l, q) =>
          Some (set_threads (<[cpuId := Translating l]> (threads s))
                  (set_pcqueue q (emit (ETranslate cpuId l) s)))
      end
  | Some (Translating []) =>
      Some (set_threads (<[cpuId := Consuming]> (threads s)) s)
  | Some (Translating (u :: rest)) =>
      Some (processHistory u
              (set_threads (<[cpuId := Translating rest]> (threads s)) s))
  | Some Exited | None => None
  end.

(** ** Steps and runs *)

(** The client enters the service; this step runs the call up to its first
    access to what the threads share. *)
Definition enter (c : Call) (s : System) : System :=
  match c with
  | CallTranslate input => translate input s
  | CallTranslateWithCopy input => translateWithCopy input s
  | CallTranslatePart input line => translatePart input line s
  | CallCancel t => cancel t s
  | CallAmend t priority => amend t priority s
  | CallStop => stop s
  | CallDestructor => destructor s
  end.

(** The call in progress, or the task it waits for, takes its next step;
    [None] when it has none or has to wait. *)
Definition advance (s : System) : option System :=
  match caller s with
  | Outside _ | Destroyed => None
  | TranslatePart_accept t input line =>
      Some (translatePart_accept t input line s)
  | QueueInBackground_prepare t input line =>
      Some (set_caller (QueueInBackground_produce t)
              (prepareRequest t input line s))
  | QueueInBackground_produce t => produceTo t s
  | TranslatePart_prepare t input line =>
      Some (set_caller (TranslatePart_drain t) (prepareRequest t input line s))
  | TranslatePart_drain t => drain t s
  | Stop_poison i d => stop_poison i d s
  | Stop_join i d => stop_join i d s
  | Stop_clear d => Some (stop_clear d s)
  end.

(** One step of the system.  The client can enter only from outside. *)
Definition step (l : Label) (s : System) : option System :=
  match l with
  | LCall c =>
      match caller s with
      | Outside _ => Some (enter c s)
      | _ => None
      end
  | LAdvance => advance s
  | LWorker cpuId => worker cpuId s
  end.

(** The steps of a schedule, one after the other. *)
Fixpoint run (sched : list Label) (s : System) : option System :=
  match sched with
  | [] => Some s
  | l :: rest => s' ← step l s; run rest s'
  end.

(** The states a service built from [options] can be in. *)
Definition reachable (options : Options) (s : System) : Prop :=
  ∃ s0 sched, newService options = Some s0 ∧ run sched s0 = Some s.

End Model.

(** ** Quantities the theorems speak of *)

(** The completion callback of a request has run: it runs when the counter
    of a request with sentences reaches zero. *)
Definition completed (req : Request) : bool :=
  bool_decide (counter req = 0 ∧ segments req ≠ []).

(** The bytes a request holds of the budget. *)
Definition held (req : Request) : Z :=
  if completed req then 0%Z else inputBytes (source req).

Definition heldBy (reqs : list Request) : Z :=
  foldr (λ req acc, held req + acc)%Z 0%Z reqs.

(** The bytes of the submission in progress, between line 83 and the
    construction of its request. *)
Definition frameBytes (pc : Pc) : Z :=
  match pc with
  | QueueInBackground_prepare _ input _
  | TranslatePart_prepare _ input _ => inputBytes input
  | _ => 0%Z
  end.

Section Quantities.
Context `{Environment}.

(** The bytes of all submissions accepted and not yet completed. *)
Definition inFlightBytes (s : System) : Z :=
  (heldBy (requests s) + frameBytes (caller s))%Z.

(** The integer type of [capacityBytes_] holds every value from 0 to [C]
    and the comparison at line 75 sees them as they are. *)
Definition Representable (C : Z) : Prop :=
  (0 ≤ C)%Z ∧ ∀ z, (0 ≤ z ≤ C)%Z → wrapCapacity z = z ∧ asSize z = z.

(** The integer type of [requestId_] holds every value from 0 to [N]. *)
Definition IdsRepresentable (N : Z) : Prop :=
  ∀ z, (0 ≤ z ≤ N)%Z → wrapId z = z.

End Quantities.

(** ** Invariants *)

Section Invariants.
Context `{Environment}.

(** A request as [prepareRequest] leaves it and [processHistory] keeps it:
    at most as many sentences to come as it has, and the one callback of
    lines 102-106, for its own tracker and its own size. *)
Definition wellFormedRequest (req : Request) : Prop :=
  counter req ≤ length (segments req) ∧
  callbacks req =
    [CompletionCallback (promise req) (inputBytes (source req))].

(** The accounting of the budget [C]. *)
Record CapacityInv (C : Z) (s : System) : Prop := {
  cap_account : (capacityBytes_ s + inFlightBytes s = C)%Z;
  cap_nonneg : (0 ≤ capacityBytes_ s)%Z;
  cap_frame t input line :
    caller s = TranslatePart_accept t input line →
    (inputBytes input ≤ capacityBytes_ s)%Z;
  cap_requests : Forall wellFormedRequest (requests s)
}.

End Invariants.

(** The identifiers of the requests constructed, in the order of their
    construction. *)
Definition issuedIds (l : list Event) : list Z :=
  omap (λ e, match e with ENewRequest id _ _ => Some id | _ => None end) l.

Section IdInvariant.
Context `{Environment}.

(** What the identifiers depend on. *)
Definition idView (s : System) : Z * list Z * list Z :=
  (requestId_ s, Id <$> requests s, issuedIds (log s)).

Definition IdInv (N : Z) (s : System) : Prop :=
  issuedIds (log s) = Id <$> requests s ∧
  ((Z.of_nat (length (requests s)) ≤ N)%Z →
   requestId_ s = Z.of_nat (length (requests s)) ∧
   Id <$> requests s = Z.of_nat <$> seq 0 (length (requests s))).

End IdInvariant.

(** The line number and the priority each request was constructed with, in
    the order of construction. *)
Definition constructedWith (l : list Event) : list (Z * Z) :=
  omap (λ e, match e with
             | ENewRequest _ line priority => Some (line, priority)
             | _ => None
             end) l.

(** The [lineNumberBegin] of the call in progress. *)
Definition frameLine (pc : Pc) : option Z :=
  match pc with
  | TranslatePart_accept _ _ line
  | QueueInBackground_prepare _ _ line
  | TranslatePart_prepare _ _ line => Some line
  | _ => None
  end.

(** The client enters through [translate] or [translateWithCopy], not
    through [translatePart]. *)
Definition viaTranslate (l : Label) : bool :=
  match l with LCall (CallTranslatePart _ _) => false | _ => true end.

Definition isAmend (l : Label) : bool :=
  match l with LCall (CallAmend _ _) => true | _ => false end.

(** The events of a shutdown: poison batches pushed and threads joined. *)
Definition shutdownEvents (l : list Event) : list Event :=
  omap (λ e, match e with
             | EProduce Poison | EJoin _ => Some e
             | _ => None
             end) l.

Definition isShutdown (c : Call) : Prop := c = CallStop ∨ c = CallDestructor.

Definition destroys (c : Call) : bool :=
  match c with CallDestructor => true | _ => false end.

Section ShutdownInvariant.
Context `{Environment}.

(** Everything but the requests, the trackers and the counter: what the
    completion of a sentence cannot change. *)
Definition shell (s : System) : System :=
  set_capacityBytes 0 (set_requests [] (set_trackers [] s)).

Definition exited (s : System) (w : nat) : Prop := threads s !! w = Some Exited.

(** The id counter, the queue and the threads. *)
Definition engine (s : System) :=
  (requestId_ s, numWorkers_ s, vocabs_ s, pcqueue_ s, workers_ s,
   translators_ s, threads s).

(** Where a call of [stop] stands: [ws] is the worker list it started
    with and [base] the shutdown events before it. *)
Definition StopInv (ws : list nat) (base : list Event) (s : System) : Prop :=
  match caller s with
  | Stop_poison i _ =>
      workers_ s = ws ∧ i ≤ length ws ∧
      shutdownEvents (log s) = base ++ replicate i (EProduce Poison)
  | Stop_join i _ =>
      workers_ s = ws ∧ i ≤ length ws ∧
      shutdownEvents (log s) =
        base ++ replicate (length ws) (EProduce Poison) ++ (EJoin <$> take i ws) ∧
      Forall (exited s) (take i ws)
  | Stop_clear _ =>
      workers_ s = ws ∧
      shutdownEvents (log s) =
        base ++ replicate (length ws) (EProduce Poison) ++ (EJoin <$> ws) ∧
      Forall (exited s) ws
  | Outside _ | Destroyed =>
      workers_ s = [] ∧
      shutdownEvents (log s) =
        base ++ replicate (length ws) (EProduce Poison) ++ (EJoin <$> ws) ∧
      Forall (exited s) ws
  | _ => False
  end.

End ShutdownInvariant.

(** ** A service without workers *)

Definition returned (pc : Pc) : bool :=
  match pc with Outside _ | Destroyed => true | _ => false end.

Section ZeroWorkers.
Context `{Environment}.

(** The call in progress returns from [s] after exactly [k] steps of its
    own, in state [s']. *)
Definition returnsIn (k : nat) (s s' : System) : Prop :=
  run (replicate k LAdvance) s = Some s' ∧
  returned (caller s') = true ∧
  ∀ j sj, j < k → run (replicate j LAdvance) s = Some sj →
    returned (caller sj) = false.

(** A service constructed with ["cpu-threads"] 0: no thread, no task, one
    translator, and a batcher that holds sentences only while the loop of
    lines 128-130 runs. *)
Definition ZeroInv (s : System) : Prop :=
  numWorkers_ s = 0 ∧ threads s = [] ∧ workers_ s = [] ∧
  translators_ s = [0] ∧ items (pcqueue_ s) = [] ∧
  match caller s with
  | TranslatePart_drain _ => True
  | QueueInBackground_prepare _ _ _ | QueueInBackground_produce _ => False
  | _ => pending (batcher_ s) = []
  end.

End ZeroWorkers.

(** ** An environment to run the model in

    One segment for every word of the input, words being separated by
    spaces; 32-bit unsigned capacity counter, 64-bit [size_t] and id
    counter; a batcher that hands out its sentences first come, first
    served, two to a batch. *)
Fixpoint splitWords (s : string) (word : list nat) : list Segment :=
  match s with
  | EmptyString => match word with [] => [] | _ => [word] end
  | String c rest =>
      if Ascii.eqb c (Ascii.ascii_of_nat 32)
      then match word with
           | [] => splitWords rest []
           | _ => word :: splitWords rest []
           end
      else splitWords rest (word ++ [Ascii.nat_of_ascii c])
  end.

Definition exampleEnvironment : Environment := {|
  process := λ input, (splitWords input [], []);
  wrapCapacity := λ z, (z mod 2 ^ 32)%Z;
  asSize := λ z, (z mod 2 ^ 64)%Z;
  wrapId := λ z, (z mod 2 ^ 64)%Z;
  Batcher := list RequestSentence;
  newBatcher := [];
  addWholeRequest := λ r req b, b ++ sentencesOf r req;
  cleaveBatch := λ b, match b with
                      | [] => None
                      | _ => Some (take 2 b, drop 2 b)
                      end;
  cancelRequest := λ r b, filter (λ u, u.1 ≠ r) b;
  amendRequest := λ r n b, b;
  pending := λ b, b
|}.

Definition exampleOptions (cpuThreads : nat) (capacity : Z) : Options :=
  mkOptions cpuThreads capacity ["vocab.deen.spm"; "vocab.deen.spm"].

(** The state of the example service after a schedule. *)
Definition exampleRun (cpuThreads : nat) (capacity : Z) (sched : list Label)
  : option (SystemOf (list RequestSentence)) :=
  @newService exampleEnvironment (exampleOptions cpuThreads capacity) ≫=
  @run exampleEnvironment sched.

(** Schedules of the example service with one worker: a submission up to
    the return of [translate]; the same with the worker at its first
    sentence, and at the end of the batch; two submissions. *)
Definition submitHello : list Label :=
  [LCall (CallTranslate "hello world"); LAdvance; LAdvance; LAdvance; LAdvance].

Definition translatingHello : list Label :=
  submitHello ++ [LWorker 0; LWorker 0; LWorker 0].

Definition translatedHello : list Label :=
  translatingHello ++ [LWorker 0].

Definition submitTwo : list Label :=
  submitHello ++
  [LCall (CallTranslateWithCopy "how are you"); LAdvance; LAdvance].

(** A shutdown of the example service with one worker. *)
Definition shutdown : list Label :=
  [LAdvance; LAdvance; LWorker 0; LWorker 0; LAdvance; LAdvance; LAdvance].

(** ** That a shutdown ends *)

Definition isPoison (b : Batch) : bool :=
  match b with Poison => true | _ => false end.

Definition isExited (st : WorkerState) : bool :=
  match st with Exited => true | _ => false end.

Definition inStop (pc : Pc) : bool :=
  match pc with
  | Stop_poison _ _ | Stop_join _ _ | Stop_clear _ => true
  | _ => false
  end.

(** The steps a worker still has to take for what it holds, and for a
    batch of the queue. *)
Definition threadWork (st : WorkerState) : nat :=
  match st with
  | Initializing => 2
  | Consuming => 1
  | Translating l => 2 + length l
  | Exited => 0
  end.

Definition batchWork (b : Batch) : nat :=
  match b with
  | Poison => 2
  | Sentences l => 3 + length l
  end.

Section LivenessInvariant.
Context `{Environment}.

Definition work (s : System) : nat :=
  sum_list_with threadWork (threads s) +
  sum_list_with batchWork (items (pcqueue_ s)).

Definition poisonsQueued (s : System) : nat :=
  sum_list_with (λ b, if isPoison b then 1 else 0) (items (pcqueue_ s)).

Definition exitedCount (s : System) : nat :=
  sum_list_with (λ st, if isExited st then 1 else 0) (threads s).

(** During a shutdown of [n] workers that has pushed [i] poison batches:
    each of them is in the queue or has ended a worker. *)
Definition StopLive (n i : nat) (s : System) : Prop :=
  workers_ s = seq 0 n ∧ length (threads s) = n ∧
  1 ≤ bound (pcqueue_ s) ∧
  poisonsQueued s + exitedCount s = i ∧ i ≤ n.

(** Before any shutdown: every thread is in the list and alive, and the
    queue holds no poison. *)
Definition Serving (s : System) : Prop :=
  workers_ s = seq 0 (length (threads s)) ∧
  bound (pcqueue_ s) = 2 * length (threads s) ∧
  poisonsQueued s = 0 ∧ exitedCount s = 0.

Definition LiveInv (s : System) : Prop :=
  workers_ s = [] ∨ inStop (caller s) = true ∨ Serving s.

(** The call in progress can return: some schedule of the threads takes
    it there. *)
Definition canReturn (s : System) : Prop :=
  ∃ sched s',
    forallb (λ l, negb (isCall l)) sched = true ∧
    run sched s = Some s' ∧ returned (caller s') = true.

End LivenessInvariant.

(** ** A service with workers *)

Section BackgroundInvariant.
Context `{Environment}.

(** Where an accepted submission stands in a service with workers: [r] is
    the address its request gets and [base] the events before the call. *)
Definition TaskInv (input : string) (r : nat) (base : list Event) (s : System)
  : Prop :=
  ∃ evs, log s = base ++ evs ∧
  match caller s with
  | TranslatePart_accept _ i _ =>
      i = input ∧ 0 < numWorkers_ s ∧ length (requests s) = r
  | QueueInBackground_prepare _ i _ =>
      i = input ∧ length (requests s) = r
  | QueueInBackground_produce _ =>
      EProcess input ∈ evs ∧ EAddWholeRequest r ∈ evs
  | Outside _ =>
      EProcess input ∈ evs ∧ EAddWholeRequest r ∈ evs ∧
      cleaveBatch (batcher_ s) = None
  | _ => False
  end.

End BackgroundInvariant.

(** Five sentences make three batches; the queue of a service with one
    worker has two slots. *)
Definition submitFive : list Label :=
  [LCall (CallTranslate "a b c d e"); LAdvance; LAdvance; LAdvance; LAdvance].

(** ** Several client threads

    [step] has one client thread.  Below, any number of threads call into
    the one service.  Each has a frame of its own, the locals of its call;
    all of them share the members of the service, and [service.cpp] has
    nothing that keeps two calls apart.  A thread takes the steps of
    [step], one access to the shared members each, but for
    [prepareRequest], which is two steps here: [requestId_++] is an
    argument of [New<Request>] at line 94 and is evaluated before the
    constructor runs. *)

(** Where a client thread stands: at a position of [Pc], or in the
    expression of lines 93-96 with the argument [requestId_++] evaluated to
    [id] and the constructor of [Request] still to run, [pc] being the
    frame of [prepareRequest] it came from. *)
Inductive Frame :=
| At (pc : Pc)
| Constructing (id : Z) (pc : Pc).

(** The frames in which [prepareRequest] is about to run: its captures
    and the position after it. *)
Definition preparing (pc : Pc) : option (nat * string * Z * Pc) :=
  match pc with
  | QueueInBackground_prepare t input line =>
      Some (t, input, line, QueueInBackground_produce t)
  | TranslatePart_prepare t input line =>
      Some (t, input, line, TranslatePart_drain t)
  | _ => None
  end.

(** The service and the frames of the client threads.  A client thread
    takes its steps from its own frame and a worker reads no frame; the
    field [caller] of [service] is the position of the client thread that
    moved last. *)
Record ClientsOf (B : Type) := mkClients {
  service : SystemOf B;
  frames : list Frame
}.

Arguments mkClients {B}.
Arguments service {B}.
Arguments frames {B}.

Abbreviation Clients := (ClientsOf Batcher).

(** One atomic action: client thread [i] enters the service, the call of
    client thread [i] advances, or worker [cpuId] advances. *)
Inductive Turn :=
| TCall (i : nat) (c : Call)
| TAdvance (i : nat)
| TWorker (cpuId : nat).

Section Threads.
Context `{Environment}.

(** Lines 91 and 94: the text is processed and the argument [requestId_++]
    evaluated, in one access to the counter. *)
Definition nextId (input : string) (s : System) : Z * System :=
  let s := emit (EProcess input) s in
  (requestId_ s, set_requestId (wrapId (requestId_ s + 1)) s).

(** Lines 93-111 from there: the request is constructed with the id taken,
    and the rest of [prepareRequest] follows. *)
Definition constructRequest (id : Z) (tracker : nat) (input : string)
    (line : Z) (s : System) : System :=
  let '(segs, ranges) := process input in
  let request := length (requests s) in
  let req := mkRequest id line 20 input segs ranges tracker (length segs) [] in
  let s := set_requests (requests s ++ [req]) (emit (ENewRequest id line 20) s) in
  let s := track tracker request s in
  let s :=
    onCompleteRequest request (CompletionCallback tracker (inputBytes input)) s in
  let s :=
    match requests s !! request with
    | Some req =>
        set_batcher (addWholeRequest request req (batcher_ s))
                    (emit (EAddWholeRequest request) s)
    | None => s
    end in
  setStatus tracker QUEUED s.

(** Thread [i] stands at [f] and the service is [s]. *)
Definition moved (i : nat) (f : Frame) (s : System) (c : Clients) : Clients :=
  mkClients s (<[i := f]> (frames c)).

(** One step of the service with its client threads.  A thread enters and
    advances as the one client of [step] does, on its own frame. *)
Definition turn (t : Turn) (c : Clients) : option Clients :=
  match t with
  | TCall i call =>
      match frames c !! i with
      | Some (At pc) =>
          s' ← step (LCall call) (set_caller pc (service c));
          Some (moved i (At (caller s')) s' c)
      | _ => None
      end
  | TAdvance i =>
      match frames c !! i with
      | Some (At pc) =>
          match preparing pc with
          | Some (_, input, _, _) =>
              let '(id, s') := nextId input (service c) in
              Some (moved i (Constructing id pc) (set_caller pc s') c)
          | None =>
              s' ← step LAdvance (set_caller pc (service c));
              Some (moved i (At (caller s')) s' c)
          end
      | Some (Constructing id pc) =>
          '(tracker, input, line, next) ← preparing pc;
          Some (moved i (At next)
                  (set_caller next
                     (constructRequest id tracker input line (service c))) c)
      | None => None
      end
  | TWorker cpuId =>
      s' ← step (LWorker cpuId) (service c);
      Some (mkClients s' (frames c))
  end.

(** The steps of a schedule, one after the other. *)
Fixpoint turns (sched : list Turn) (c : Clients) : option Clients :=
  match sched with
  | [] => Some c
  | t :: rest => c' ← turn t c; turns rest c'
  end.

(** A service built from [options] with [k] client threads, none of them
    in a call. *)
Definition newClients (options : Options) (k : nat) : option Clients :=
  s ← newService options; Some (mkClients s (replicate k (At (Outside None)))).

End Threads.

(** Two threads submit 11 bytes each to a service of 16 bytes, and both
    have passed the test of line 75 before either is at line 83; the first
    then subtracts its bytes. *)
Definition overlappingAdmissions : list Turn :=
  [TCall 0 (CallTranslate "hello world"); TCall 1 (CallTranslate "how are you");
   TAdvance 0].


(** ** Calls that are kept apart *)

(** The thread is in a call. *)
Definition inCall (f : Frame) : bool :=
  match f with
  | At (Outside _) | At Destroyed => false
  | _ => true
  end.

(** The position of a thread. *)
Definition framePc (f : Frame) : Pc :=
  match f with At pc | Constructing _ pc => pc end.

Section Apart.
Context `{Environment}.

(** The schedule keeps the calls apart: a thread enters the service only
    when no thread is in a call. *)
Fixpoint apart (sched : list Turn) (c : Clients) : bool :=
  match sched with
  | [] => true
  | t :: rest =>
      match t with
      | TCall _ _ => forallb (λ f, negb (inCall f)) (frames c)
      | _ => true
      end &&
      match turn t c with
      | Some c' => apart rest c'
      | None => true
      end
  end.

(** What a schedule that keeps the calls apart sees to before a turn. *)
Definition allowed (t : Turn) (c : Clients) : Prop :=
  match t with
  | TCall _ _ => Forall (λ f, inCall f = false) (frames c)
  | _ => True
  end.

(** At most one thread is in a call, and the service has its position. *)
Definition OneCall (c : Clients) : Prop :=
  (∀ i f, frames c !! i = Some f → inCall f = true →
     framePc f = caller (service c)) ∧
  (∀ i j fi fj, frames c !! i = Some fi → frames c !! j = Some fj →
     inCall fi = true → inCall fj = true → i = j) ∧
  (Forall (λ f, inCall f = false) (frames c) →
   inCall (At (caller (service c))) = false).


End Apart.

(** Two threads, one call after the other: "hello world" is accepted and
    queued, then "how are you" is rejected. *)
Definition callsApart : list Turn :=
  [TCall 0 (CallTranslate "hello world"); TAdvance 0; TAdvance 0; TAdvance 0;
   TAdvance 0; TAdvance 0; TWorker 0; TCall 1 (CallTranslate "how are you")].


(** ** A submission without sentences *)

(** Three spaces are no sentence. *)
Definition submitBlank : list Label :=
  [LCall (CallTranslate "   "); LAdvance; LAdvance; LAdvance].

(** * Further definitions

    What the further theorems of this file speak of. *)

(** The vocabularies made in the first [k] turns of the loop of
    [loadVocabularies]: each carries the first position that names its file,
    and they were made in the order of these positions. *)
Record LoaderOrder (vfiles : list string) (k : nat) (st : VocabLoader) : Prop := {
  ord_first p v : heap st !! p = Some v →
    batchIndex v < k ∧ vfiles !! batchIndex v = Some (loadedFrom v) ∧
    ∀ j, j < batchIndex v → vfiles !! j ≠ Some (loadedFrom v);
  ord_mono p q v w : p < q → heap st !! p = Some v → heap st !! q = Some w →
    batchIndex v < batchIndex w
}.

(** ** The steps as a relation *)

(** The call hands [input] to [translatePart] with line number [line]. *)
Definition submitsAt (c : Call) (input : string) (line : Z) : Prop :=
  c = CallTranslatePart input line ∨
  line = 0%Z ∧ (c = CallTranslate input ∨ c = CallTranslateWithCopy input).

Section Steps.
Context `{Environment}.

(** [step] as a relation: one constructor for each thing a thread does in
    one step, with the condition under which it does it and the state it
    leaves.  [Step s l s'] is [step l s = Some s'] ([step_Step],
    [Step_step]); the invariants of the service are proved by cases on
    it. *)
Inductive Step (s : System) : Label → System → Prop :=
| Step_reject ret c input line :
    caller s = Outside ret →
    submitsAt c input line →
    (asSize (capacityBytes_ s) < inputBytes input)%Z →
    Step s (LCall c)
      (set_caller (Outside (Some (length (trackers s))))
         (set_trackers
            (trackers s ++
               [mkTracker REJECTED_MEMORY (Some EmptyResponse) None]) s))
| Step_admit ret c input line :
    caller s = Outside ret →
    submitsAt c input line →
    (inputBytes input ≤ asSize (capacityBytes_ s))%Z →
    Step s (LCall c)
      (set_caller (TranslatePart_accept (length (trackers s)) input line)
         (set_trackers (trackers s ++ [mkTracker UNSET None None]) s))
| Step_cancel ret t r :
    caller s = Outside ret →
    trackedRequest t s = Some r →
    Step s (LCall (CallCancel t))
      (set_caller (Outside None)
         (set_batcher (cancelRequest r (batcher_ s))
            (emit (EAsync (CancelClosure t)) s)))
| Step_cancel_none ret t :
    caller s = Outside ret →
    trackedRequest t s = None →
    Step s (LCall (CallCancel t))
      (set_caller (Outside None) (emit (EAsync (CancelClosure t)) s))
| Step_amend ret t r priority :
    caller s = Outside ret →
    trackedRequest t s = Some r →
    existsb (λ u, u.1 =? r) (pending (batcher_ s)) = true →
    Step s (LCall (CallAmend t priority))
      (set_caller (Outside None)
         (set_requests (alter (with_nice priority) r (requests s))
            (set_batcher (amendRequest r priority (batcher_ s))
               (emit (EAsync (AmendClosure t priority)) s))))
| Step_amend_none ret t priority :
    caller s = Outside ret →
    (∀ r, trackedRequest t s = Some r →
          existsb (λ u, u.1 =? r) (pending (batcher_ s)) = false) →
    Step s (LCall (CallAmend t priority))
      (set_caller (Outside None) (emit (EAsync (AmendClosure t priority)) s))
| Step_stop ret c :
    caller s = Outside ret →
    isShutdown c →
    Step s (LCall c) (set_caller (Stop_poison 0 (destroys c)) s)
| Step_launch t input line :
    caller s = TranslatePart_accept t input line →
    0 < numWorkers_ s →
    Step s LAdvance
      (set_caller (QueueInBackground_prepare t input line)
         (emit (EAsync QueueInBackground)
            (set_capacityBytes
               (wrapCapacity (capacityBytes_ s - inputBytes input)) s)))
| Step_inPlace t input line :
    caller s = TranslatePart_accept t input line →
    numWorkers_ s = 0 →
    Step s LAdvance
      (set_caller (TranslatePart_prepare t input line)
         (set_capacityBytes
            (wrapCapacity (capacityBytes_ s - inputBytes input)) s))
| Step_prepare t input line pc :
    (caller s = QueueInBackground_prepare t input line ∧
     pc = QueueInBackground_produce t) ∨
    (caller s = TranslatePart_prepare t input line ∧
     pc = TranslatePart_drain t) →
    Step s LAdvance (set_caller pc (prepareRequest t input line s))
| Step_produce t l b' q :
    caller s = QueueInBackground_produce t →
    cleaveBatch (batcher_ s) = Some (l, b') →
    ProduceSwap (Sentences l) (pcqueue_ s) = Some q →
    Step s LAdvance
      (set_pcqueue q (set_batcher b' (emit (EProduce (Sentences l)) s)))
| Step_drain t l b' :
    caller s = TranslatePart_drain t →
    cleaveBatch (batcher_ s) = Some (l, b') →
    is_Some (translators_ s !! 0) →
    Step s LAdvance (translateBatch 0 l (set_batcher b' s))
| Step_return t :
    caller s = QueueInBackground_produce t ∨ caller s = TranslatePart_drain t →
    cleaveBatch (batcher_ s) = None →
    Step s LAdvance (set_caller (Outside (Some t)) s)
| Step_poison i d w q :
    caller s = Stop_poison i d →
    workers_ s !! i = Some w →
    ProduceSwap Poison (pcqueue_ s) = Some q →
    Step s LAdvance
      (set_caller (Stop_poison (S i) d)
         (set_pcqueue q (emit (EProduce Poison) s)))
| Step_poisoned i d :
    caller s = Stop_poison i d →
    workers_ s !! i = None →
    Step s LAdvance (set_caller (Stop_join 0 d) s)
| Step_join i d w :
    caller s = Stop_join i d →
    workers_ s !! i = Some w →
    threads s !! w = Some Exited →
    Step s LAdvance (set_caller (Stop_join (S i) d) (emit (EJoin w) s))
| Step_joined i d :
    caller s = Stop_join i d →
    workers_ s !! i = None →
    Step s LAdvance (set_caller (Stop_clear d) s)
| Step_clear d :
    caller s = Stop_clear d →
    Step s LAdvance (stop_clear d s)
| Step_initialized w :
    threads s !! w = Some Initializing →
    Step s (LWorker w) (set_threads (<[w := Consuming]> (threads s)) s)
| Step_exit w q :
    threads s !! w = Some Consuming →
    ConsumeSwap (pcqueue_ s) = Some (Poison, q) →
    Step s (LWorker w)
      (set_threads (<[w := Exited]> (threads s)) (set_pcqueue q s))
| Step_take w l q :
    threads s !! w = Some Consuming →
    ConsumeSwap (pcqueue_ s) = Some (Sentences l, q) →
    Step s (LWorker w)
      (set_threads (<[w := Translating l]> (threads s))
         (set_pcqueue q (emit (ETranslate w l) s)))
| Step_translated w :
    threads s !! w = Some (Translating []) →
    Step s (LWorker w) (set_threads (<[w := Consuming]> (threads s)) s)
| Step_sentence w u rest :
    threads s !! w = Some (Translating (u :: rest)) →
    Step s (LWorker w)
      (processHistory u
         (set_threads (<[w := Translating rest]> (threads s)) s)).

End Steps.

(** ** Trackers and their requests *)

(** The tracker of the call in progress, as long as it tracks nothing:
    from line 68 to the end of [prepareRequest]. *)
Definition frameTracker (pc : Pc) : option nat :=
  match pc with
  | TranslatePart_accept t _ _
  | QueueInBackground_prepare t _ _
  | TranslatePart_prepare t _ _ => Some t
  | _ => None
  end.

(** The tracker of request [r], as the request stands: QUEUED with the
    future open, or SUCCESS with the response once the callback has run. *)
Definition trackerOf (r : nat) (req : Request) : RequestTracker :=
  if completed req
  then mkTracker SUCCESS (Some (TranslatedResponse (source req))) (Some r)
  else mkTracker QUEUED None (Some r).

Section TrackerInvariant.
Context `{Environment}.

(** Every request has its tracker, and every tracker is the one of a
    request, the one of the call in progress, or a rejection. *)
Record TrackerInv (s : System) : Prop := {
  trk_request r req : requests s !! r = Some req →
    trackers s !! promise req = Some (trackerOf r req) ∧ wellFormedRequest req;
  trk_tracker t tr : trackers s !! t = Some tr →
    tr = mkTracker REJECTED_MEMORY (Some EmptyResponse) None ∨
    (tr = mkTracker UNSET None None ∧ frameTracker (caller s) = Some t) ∨
    (∃ r req, requests s !! r = Some req ∧ promise req = t);
  trk_frame t : frameTracker (caller s) = Some t →
    trackers s !! t = Some (mkTracker UNSET None None)
}.

End TrackerInvariant.

(** ** Sentences on their way *)

(** The sentences a batch of the queue carries, and those a worker has
    taken and not yet translated. *)
Definition sentencesIn (b : Batch) : list RequestSentence :=
  match b with Poison => [] | Sentences l => l end.

Definition inHand (st : WorkerState) : list RequestSentence :=
  match st with Translating l => l | _ => [] end.

(** How many sentences of request [r] a list holds. *)
Definition countOf (r : nat) (l : list RequestSentence) : nat :=
  length (filter (λ u, u.1 = r) l).

(** Every request has as many sentences in [l] as its counter says. *)
Definition Counted (reqs : list Request) (l : list RequestSentence) : Prop :=
  ∀ r, countOf r l = from_option counter 0 (reqs !! r).

Section Flow.
Context `{Environment}.

(** The sentences handed to the service and not yet translated: those the
    batcher holds, those in the queue and those in the hands of the
    workers. *)
Definition outstanding (s : System) : list RequestSentence :=
  pending (batcher_ s) ++
  (items (pcqueue_ s) ≫= sentencesIn) ++ (threads s ≫= inHand).

(** No sentence is lost or made up on its way, and the batcher holds
    sentences only while the call that brought them hands them on. *)
Record FlowInv (s : System) : Prop := {
  flow_count : Counted (requests s) (outstanding s);
  flow_idle :
    match caller s with
    | QueueInBackground_produce _ | TranslatePart_drain _ => True
    | _ => pending (batcher_ s) = []
    end
}.

End Flow.

(** ** One call of translatePart *)

Section CallInvariant.
Context `{Environment}.

(** The request that [prepareRequest] makes of [input] at line [line] for
    tracker [t] when the id counter stands at [id] (lines 89-96). *)
Definition madeFrom (id line : Z) (input : string) (t : nat) (req : Request)
  : Prop :=
  Id req = id ∧ lineNumberBegin req = line ∧ nice req = 20%Z ∧
  source req = input ∧ segments req = (process input).1 ∧
  sourceRanges req = (process input).2 ∧ promise req = t.

(** Where an accepted call of [translatePart] stands: before
    [prepareRequest] the service has the [r] requests it had, afterwards one
    more, made from the arguments of the call. *)
Definition CallInv (t r : nat) (id line : Z) (input : string) (s : System)
  : Prop :=
  length (trackers s) = S t ∧
  match caller s with
  | TranslatePart_accept t' i l
  | QueueInBackground_prepare t' i l
  | TranslatePart_prepare t' i l =>
      t' = t ∧ i = input ∧ l = line ∧
      length (requests s) = r ∧ requestId_ s = id
  | QueueInBackground_produce t'
  | TranslatePart_drain t'
  | Outside (Some t') =>
      t' = t ∧ length (requests s) = S r ∧
      ∃ req, requests s !! r = Some req ∧ madeFrom id line input t req
  | _ => False
  end.

End CallInvariant.

(** ** What the constructor fixes *)

(** An event of a service with [n] worker threads and [m] translators:
    a batch is translated by one of the translators, a thread joined is
    one of the threads, and without threads [translatePart] launches no
    task and nothing is pushed into the queue.  [cancel] and [amend] launch
    their task in either mode. *)
Definition eventFits (n m : nat) (e : Event) : Prop :=
  match e with
  | ETranslate w _ => w < m
  | EJoin w => w < n
  | EAsync QueueInBackground | EProduce _ => 0 < n
  | _ => True
  end.

(** The call in progress fits the mode of the service: [translatePart]
    goes the way of line 126 only without workers, and the way of line 122
    only with workers. *)
Definition frameFits (n : nat) (pc : Pc) : Prop :=
  match pc with
  | TranslatePart_prepare _ _ _ | TranslatePart_drain _ => n = 0
  | QueueInBackground_prepare _ _ _ | QueueInBackground_produce _ => 0 < n
  | _ => True
  end.

Section Configuration.
Context `{Environment}.

(** What the constructor makes of the options, and no step changes. *)
Record ConfigInv (options : Options) (s : System) : Prop := {
  cfg_workers : numWorkers_ s = cpu_threads options;
  cfg_vocabs : ∃ hp, loadVocabularies options = Some (vocabs_ s, hp);
  cfg_translators :
    translators_ s =
      if bool_decide (cpu_threads options = 0) then [0]
      else seq 0 (cpu_threads options);
  cfg_bound : bound (pcqueue_ s) = 2 * cpu_threads options;
  cfg_queue : length (items (pcqueue_ s)) ≤ 2 * cpu_threads options;
  cfg_threads : length (threads s) = cpu_threads options;
  cfg_crew : workers_ s = [] ∨ workers_ s = seq 0 (cpu_threads options);
  cfg_log :
    Forall (eventFits (cpu_threads options) (length (translators_ s))) (log s);
  cfg_frame : frameFits (cpu_threads options) (caller s)
}.

End Configuration.

(** ** Schedules of the workers *)

(** The step of a worker. *)
Definition isWorker (l : Label) : bool :=
  match l with LWorker _ => true | _ => false end.

(** ** Requests over time *)

(** What a request keeps for life: everything but its counter and its
    priority. *)
Definition sameRequest (req req' : Request) : Prop :=
  Id req' = Id req ∧ lineNumberBegin req' = lineNumberBegin req ∧
  source req' = source req ∧ segments req' = segments req ∧
  sourceRanges req' = sourceRanges req ∧ promise req' = promise req ∧
  callbacks req' = callbacks req.

(** ** What goes through the queue *)

(** The batches pushed into the queue, and the batches the workers have
    taken to translate, each in the order of the events. *)
Definition pushed (l : list Event) : list Batch :=
  omap (λ e, match e with EProduce b => Some b | _ => None end) l.

Definition taken (l : list Event) : list Batch :=
  omap (λ e, match e with ETranslate _ l => Some (Sentences l) | _ => None end) l.

Section QueueInvariant.
Context `{Environment}.

(** Every batch pushed is in the queue, or a worker has taken it: a batch
    of sentences to translate it, a poison to end. *)
Definition QueueInv (s : System) : Prop :=
  pushed (log s) ≡ₚ
  taken (log s) ++ replicate (exitedCount s) Poison ++ items (pcqueue_ s).

End QueueInvariant.

(** ** After the shutdown *)

(** The batches translated, by whom, in the order of the events. *)
Definition translated (l : list Event) : list (nat * list RequestSentence) :=
  omap (λ e, match e with ETranslate w l => Some (w, l) | _ => None end) l.

Section ExitInvariant.
Context `{Environment}.

(** The threads [stop] has joined have ended, and once the list is
    cleared all have. *)
Definition ExitInv (s : System) : Prop :=
  (workers_ s = [] ∨ workers_ s = seq 0 (length (threads s))) ∧
  (workers_ s = [] → ∀ w, w < length (threads s) → exited s w) ∧
  match caller s with
  | Stop_join i _ => ∀ w, w < i → w < length (workers_ s) → exited s w
  | Stop_clear _ => ∀ w, w < length (workers_ s) → exited s w
  | _ => True
  end.

(** A service with workers, all of which have ended. *)
Definition Stopped (s : System) : Prop :=
  0 < numWorkers_ s ∧ Forall (λ st, st = Exited) (threads s) ∧
  match caller s with
  | TranslatePart_prepare _ _ _ | TranslatePart_drain _ => False
  | _ => True
  end.

(** From [s] to [s'] no batch was translated: no event of a translation,
    no request with fewer sentences to come, and no future with a
    translation that it did not hold before. *)
Definition Idle (s s' : System) : Prop :=
  translated (log s') = translated (log s) ∧
  (∀ r req, requests s !! r = Some req →
     ∃ req', requests s' !! r = Some req' ∧ counter req' = counter req) ∧
  (∀ t tr x, trackers s' !! t = Some tr →
     future tr = Some (TranslatedResponse x) → trackers s !! t = Some tr).

End ExitInvariant.

(** One worker, 16 bytes: "hello world" is accepted and queued, then "how
    are you" is rejected. *)
Definition submitAndReject : list Label :=
  submitHello ++ [LCall (CallTranslate "how are you")].

(** The example service with one worker after a shutdown. *)
Definition stopService : list Label := LCall CallStop :: shutdown.

(** * Theorems *)

(** The state an example run ends in, computed. *)
Ltac exists_state o :=
  let v := eval vm_compute in o in
  match v with Some ?s => exists s end.

(** ** Lists *)

Lemma alter_snoc {A} (f : A → A) (l : list A) (x : A) :
  alter f (length l) (l ++ [x]) = l ++ [f x].
Proof.
  rewrite <- (Nat.add_0_r (length l)). by rewrite alter_app_r.
Qed.

Lemma lookup_snoc {A} (l : list A) (x : A) : (l ++ [x]) !! length l = Some x.
Proof. by rewrite lookup_app_r, Nat.sub_diag. Qed.

(** ** cancel and amend

    The launch of the task leaves what the closure reads as it was. *)

Section CancelAmend.
Context `{Environment}.

Lemma trackedRequest_emit (e : Event) (t : nat) (s : System) :
  trackedRequest t (emit e s) = trackedRequest t s.
Proof. reflexivity. Qed.

Lemma cancel_eq (t : nat) (s : System) :
  cancel t s =
    set_caller (Outside None)
      match trackedRequest t s with
      | Some r =>
          set_batcher (cancelRequest r (batcher_ s))
            (emit (EAsync (CancelClosure t)) s)
      | None => emit (EAsync (CancelClosure t)) s
      end.
Proof. reflexivity. Qed.

Lemma amend_eq (t : nat) (priority : Z) (s : System) :
  amend t priority s =
    set_caller (Outside None)
      match trackedRequest t s with
      | Some r =>
          if existsb (λ u, u.1 =? r) (pending (batcher_ s))
          then set_requests (alter (with_nice priority) r (requests s))
                 (set_batcher (amendRequest r priority (batcher_ s))
                    (emit (EAsync (AmendClosure t priority)) s))
          else emit (EAsync (AmendClosure t priority)) s
      | None => emit (EAsync (AmendClosure t priority)) s
      end.
Proof. reflexivity. Qed.

End CancelAmend.

(** ** loadVocabularies *)

Section LoadVocabularies.
Variable vfiles : list string.

Lemma LoaderInv_init :
  LoaderInv vfiles 0 (mkVocabLoader [] ∅ (replicate (length vfiles) None)).
Proof.
  split; simpl.
  - by rewrite length_replicate.
  - intros f Hf. rewrite take_0 in Hf. by apply elem_of_nil in Hf.
  - intros f x Hx. by rewrite lookup_empty in Hx.
  - intros i f Hi. lia.
  - intros p v Hp. by rewrite lookup_nil in Hp.
Qed.

Lemma LoaderInv_step k st :
  k < length vfiles →
  LoaderInv vfiles k st → LoaderInv vfiles (S k) (loadVocabulary vfiles st k).
Proof.
  intros Hk [Hlen Hknown Honly Hvec Hheap].
  destruct (lookup_lt_is_Some_2 vfiles k Hk) as [file Hfile].
  unfold loadVocabulary, emplace. rewrite Hfile.
  pose proof (take_S_r _ _ _ Hfile) as Htake.
  destruct (vmap st !! file) as [x|] eqn:Hmap; simpl.
  - (* the file is known already *)
    destruct (Hknown file (Honly _ _ Hmap)) as (p & v & Hp & Hv & Hf).
    split; simpl; rewrite ?Htake.
    + by rewrite length_insert.
    + intros f [Hin | ->%list_elem_of_singleton]%elem_of_app; eauto.
    + intros f y Hy. apply elem_of_app. left. eauto.
    + intros i f Hi Hif. destruct (decide (i = k)) as [-> | Hne].
      * assert (f = file) as -> by congruence.
        rewrite list_lookup_insert_eq by lia. by rewrite Hmap.
      * rewrite list_lookup_insert_ne by done. apply Hvec; [lia | done].
    + done.
  - (* a new file: a vocabulary is made and loaded *)
    split; simpl; rewrite ?Htake.
    + by rewrite length_insert.
    + intros f [Hin | ->%list_elem_of_singleton]%elem_of_app.
      * destruct (Hknown f Hin) as (p & v & Hp & Hv & Hf).
        exists p, v. split_and!; [| by apply lookup_app_l_Some | done].
        rewrite lookup_insert_ne by congruence.
        rewrite lookup_insert_ne by congruence. done.
      * exists (length (heap st)), (mkVocab k file).
        split_and!; [by rewrite lookup_insert_eq | | done].
        by rewrite lookup_app_r, Nat.sub_diag.
    + intros f y Hy. apply elem_of_app.
      destruct (decide (file = f)) as [-> | Hne].
      * right. by apply list_elem_of_singleton.
      * left. do 2 rewrite lookup_insert_ne in Hy by done. eauto.
    + intros i f Hi Hif. destruct (decide (i = k)) as [-> | Hne].
      * assert (f = file) as -> by congruence.
        rewrite list_lookup_insert_eq by lia. by rewrite lookup_insert_eq.
      * rewrite list_lookup_insert_ne by done.
        assert (i < k) as Hik by lia.
        assert (f ≠ file) as Hff.
        { intros ->. specialize (Hvec i file Hik Hif).
          assert (file ∈ take k vfiles) as Hin.
          { apply list_elem_of_lookup. exists i. rewrite lookup_take_lt by done. done. }
          destruct (Hknown _ Hin) as (? & ? & ? & _). congruence. }
        do 2 rewrite lookup_insert_ne by done. by apply Hvec.
    + intros p v Hp. apply lookup_app_Some in Hp as [Hp | [Hge Hp]].
      * specialize (Hheap _ _ Hp).
        assert (loadedFrom v ≠ file) by congruence.
        by do 2 rewrite lookup_insert_ne by done.
      * apply list_lookup_singleton_Some in Hp as [Hp <-]. simpl.
        rewrite lookup_insert_eq. do 2 f_equal. lia.
Qed.

Lemma LoaderInv_loop k :
  k ≤ length vfiles →
  LoaderInv vfiles k (foldl (loadVocabulary vfiles)
                 (mkVocabLoader [] ∅ (replicate (length vfiles) None)) (seq 0 k)).
Proof.
  induction k as [| k IH]; intros Hk.
  - apply LoaderInv_init.
  - rewrite seq_S, foldl_app. simpl. apply LoaderInv_step; [lia |]. apply IH. lia.
Qed.

End LoadVocabularies.

(** C8.  With fewer than two vocabulary files [loadVocabularies] aborts, and
    so does the constructor of the service.  Otherwise it returns one pointer
    per file, in order: every pointer is the address of a vocabulary loaded
    from the file at its position, two positions hold the same pointer
    exactly when they name the same file, and no file is loaded twice. *)
Theorem loadVocabularies_shares_by_name (options : Options) :
  (length (vocabs options) < 2 →
     loadVocabularies options = None ∧
     ∀ (E : Environment), newService options = None) ∧
  (2 ≤ length (vocabs options) →
     ∃ vs hp,
       loadVocabularies options = Some (vs, hp) ∧
       length vs = length (vocabs options) ∧
       (∀ i f, vocabs options !! i = Some f →
          ∃ p v, vs !! i = Some (Some p) ∧ hp !! p = Some v ∧ loadedFrom v = f) ∧
       (∀ i j f g, vocabs options !! i = Some f → vocabs options !! j = Some g →
          (vs !! i = vs !! j ↔ f = g)) ∧
       NoDup (loadedFrom <$> hp) ∧
       (∀ v, v ∈ hp → loadedFrom v ∈ vocabs options)).
Proof.
  split; intros Hlen.
  - assert (loadVocabularies options = None) as Hnone.
    { unfold loadVocabularies. by rewrite bool_decide_eq_true_2. }
    split; [done |]. intros E. unfold newService. by rewrite Hnone.
  - unfold loadVocabularies. rewrite bool_decide_eq_false_2 by lia.
    set (vfiles := vocabs options).
    pose proof (LoaderInv_loop vfiles (length vfiles) (Nat.le_refl _)) as Hinv.
    set (st := foldl _ _ _) in *.
    destruct Hinv as [Hl Hknown Honly Hvec Hheap].
    rewrite firstn_all in Hknown, Honly.
    assert (∀ i f, vfiles !! i = Some f → f ∈ vfiles) as Hmem.
    { intros i f Hf. apply list_elem_of_lookup. eauto. }
    exists (vocabsVec st), (heap st). split_and!; [done | done | | | |].
    + intros i f Hf. destruct (Hknown f (Hmem _ _ Hf)) as (p & v & Hp & Hv & Hfv).
      exists p, v. split_and!; [| done | done].
      rewrite (Hvec i f); [done | by eapply lookup_lt_Some | done].
    + intros i j f g Hf Hg.
      rewrite (Hvec i f), (Hvec j g); [| by eapply lookup_lt_Some | done
                                       | by eapply lookup_lt_Some | done].
      split; [| by intros ->].
      destruct (Hknown f (Hmem _ _ Hf)) as (p & v & Hp & Hv & Hfv).
      destruct (Hknown g (Hmem _ _ Hg)) as (q & w & Hq & Hw & Hgw).
      rewrite Hp, Hq. intros [= ->]. congruence.
    + apply NoDup_alt. intros i j x Hi Hj.
      apply list_lookup_fmap_Some in Hi as (v & -> & Hv).
      apply list_lookup_fmap_Some in Hj as (w & Hvw & Hw).
      apply Hheap in Hv. apply Hheap in Hw. rewrite <- Hvw in Hw. congruence.
    + intros v [p Hp]%list_elem_of_lookup. eapply Honly, Hheap, Hp.
Qed.

(** ** Submissions that are rejected *)

Section Admission.
Context `{Environment}.

(** C1.  A submission larger than the capacity left is rejected in the one
    step that enters the service: the new tracker is REJECTED_MEMORY, its
    future holds the empty response, the call has returned with that
    tracker, and nothing else has changed: no request was made, no event
    (text processing, batching, inference) happened, and the capacity, the
    id counter, the batcher and the queue are as they were. *)
Theorem oversized_submission_is_rejected (s : System) (c : Call)
    (input : string) (ret : option nat) :
  caller s = Outside ret →
  submits c input →
  asSize (capacityBytes_ s) = capacityBytes_ s →
  (capacityBytes_ s < inputBytes input)%Z →
  ∃ s',
    step (LCall c) s = Some s' ∧
    caller s' = Outside (Some (length (trackers s))) ∧
    trackers s' =
      trackers s ++ [mkTracker REJECTED_MEMORY (Some EmptyResponse) None] ∧
    requests s' = requests s ∧
    log s' = log s ∧
    capacityBytes_ s' = capacityBytes_ s ∧
    requestId_ s' = requestId_ s ∧
    batcher_ s' = batcher_ s ∧
    pcqueue_ s' = pcqueue_ s ∧
    threads s' = threads s ∧
    workers_ s' = workers_ s.
Proof.
  intros Hout Hc Hsize Hlt.
  assert (enter c s = translatePart input 0 s ∨
          ∃ line, enter c s = translatePart input line s) as Henter.
  { destruct Hc as [-> | [-> | [line ->]]]; simpl; eauto. }
  assert (∀ line, ∃ s', translatePart input line s = s' ∧
            caller s' = Outside (Some (length (trackers s))) ∧
            trackers s' =
              trackers s ++ [mkTracker REJECTED_MEMORY (Some EmptyResponse) None] ∧
            requests s' = requests s ∧ log s' = log s ∧
            capacityBytes_ s' = capacityBytes_ s ∧
            requestId_ s' = requestId_ s ∧ batcher_ s' = batcher_ s ∧
            pcqueue_ s' = pcqueue_ s ∧ threads s' = threads s ∧
            workers_ s' = workers_ s) as Hpart.
  { intros line. eexists. split; [reflexivity |].
    unfold translatePart. simpl. rewrite Hsize.
    rewrite bool_decide_eq_true_2 by done. simpl.
    split_and!; try done.
    by rewrite !alter_snoc. }
  simpl. rewrite Hout.
  destruct Henter as [-> | [line ->]].
  - destruct (Hpart 0%Z) as (s' & <- & Hrest). eauto.
  - destruct (Hpart line) as (s' & <- & Hrest). eauto.
Qed.

(** C9.  [translateWithCopy] is [translate]: entering the service through
    either leaves the same state (same tracker and future, same admission
    decision, same capacity and id counter), and so does everything that
    follows, whatever the schedule. *)
Theorem translateWithCopy_is_translate (input : string) (s : System)
    (sched : list Label) :
  translateWithCopy input s = translate input s ∧
  run (LCall (CallTranslateWithCopy input) :: sched) s =
  run (LCall (CallTranslate input) :: sched) s.
Proof. split; reflexivity. Qed.

End Admission.

(** ** The budget *)

Lemma inputBytes_nonneg input : (0 ≤ inputBytes input)%Z.
Proof. unfold inputBytes. lia. Qed.

Lemma held_nonneg req : (0 ≤ held req)%Z.
Proof. unfold held. destruct (completed req); [done | apply inputBytes_nonneg]. Qed.

Lemma heldBy_nonneg reqs : (0 ≤ heldBy reqs)%Z.
Proof.
  induction reqs as [| req reqs IH]; simpl; [done |].
  pose proof (held_nonneg req). lia.
Qed.

Lemma heldBy_app l1 l2 : heldBy (l1 ++ l2) = (heldBy l1 + heldBy l2)%Z.
Proof. induction l1 as [| x l1 IH]; simpl; [done | rewrite IH; lia]. Qed.

Lemma heldBy_insert (l : list Request) i x y :
  l !! i = Some x → heldBy (<[i := y]> l) = (heldBy l - held x + held y)%Z.
Proof.
  revert i. induction l as [| z l IH]; intros [| i] Hi; simplify_eq/=.
  - lia.
  - rewrite (IH i Hi). lia.
Qed.

Lemma heldBy_alter (f : Request → Request) (l : list Request) i :
  (∀ x, held (f x) = held x) → heldBy (alter f i l) = heldBy l.
Proof.
  intros Hf. revert i. induction l as [| z l IH]; intros [| i]; simpl; try done.
  - by rewrite Hf.
  - f_equal. apply IH.
Qed.

Section Budget.
Context `{Environment}.

(** What [prepareRequest] does, field by field. *)
Lemma prepareRequest_eq (t : nat) (input : string) (line : Z) (s : System) :
  let r := length (requests s) in
  let req := mkRequest (requestId_ s) line 20 input (process input).1
               (process input).2 t (length (process input).1)
               [CompletionCallback t (inputBytes input)] in
  prepareRequest t input line s =
  mkSystem (wrapId (requestId_ s + 1)) (numWorkers_ s) (vocabs_ s)
    (addWholeRequest r req (batcher_ s)) (capacityBytes_ s) (pcqueue_ s)
    (workers_ s) (translators_ s)
    (alter (with_status QUEUED) t (alter (with_tracked r) t (trackers s)))
    (requests s ++ [req]) (threads s)
    (log s ++ [EProcess input; ENewRequest (requestId_ s) line 20;
               EAddWholeRequest r])
    (caller s).
Proof.
  unfold prepareRequest. destruct (process input) as [segs ranges]. simpl.
  rewrite alter_snoc, lookup_snoc. simpl.
  unfold setStatus, track, set_trackers, set_batcher, emit, with_callback.
  simpl. rewrite <- !app_assoc, ?alter_snoc. reflexivity.
Qed.

(** What [processHistory] does: nothing, one sentence less to come, or the
    last sentence and with it the completion of the request. *)
Lemma processHistory_cases (u : RequestSentence) (s : System) :
  processHistory u s = s ∨
  (∃ req n, requests s !! u.1 = Some req ∧ counter req = S (S n) ∧
     processHistory u s =
       set_requests (<[u.1 := with_counter (S n) req]> (requests s)) s) ∨
  (∃ req, requests s !! u.1 = Some req ∧ counter req = 1 ∧
     processHistory u s =
       foldl (λ s c, callback c s)
         (set_value (promise req) (TranslatedResponse (source req))
            (set_requests (<[u.1 := with_counter 0 req]> (requests s)) s))
         (callbacks req)).
Proof.
  unfold processHistory.
  destruct (requests s !! u.1) as [req |] eqn:Hreq; [| by left].
  destruct (counter req) as [| [| n]] eqn:Hc; [by left | |].
  - right. right. exists req. split_and!; [done | done |].
    rewrite bool_decide_eq_true_2 by done. unfold completeRequest. simpl.
    rewrite list_lookup_insert_eq by (by eapply lookup_lt_Some). done.
  - right. left. exists req, n. split_and!; [done | done |].
    by rewrite bool_decide_eq_false_2 by done.
Qed.

Variable C : Z.
Hypothesis HC : Representable C.

Lemma wellFormed_with_counter req n :
  wellFormedRequest req → n ≤ counter req →
  wellFormedRequest (with_counter n req).
Proof. intros [Hc Hcb] Hn. split; simpl; [lia | done]. Qed.

Lemma processHistory_inv (u : RequestSentence) (s : System) :
  CapacityInv C s → CapacityInv C (processHistory u s).
Proof.
  intros Hinv.
  destruct (processHistory_cases u s) as [-> | [(req & n & Hreq & Hc & ->)
                                              | (req & Hreq & Hc & ->)]];
    [done | |].
  - (* one sentence less *)
    destruct Hinv as [Hacc Hnn Hframe Hreqs].
    pose proof (Forall_lookup_1 _ _ _ _ Hreqs Hreq) as Hwf.
    assert (held (with_counter (S n) req) = held req) as Hheld.
    { unfold held, completed. simpl. rewrite Hc.
      repeat case_bool_decide; try done; lia. }
    split; simpl.
    + unfold inFlightBytes in *. simpl.
      rewrite (heldBy_insert _ _ _ _ Hreq), Hheld. lia.
    + done.
    + done.
    + apply Forall_insert; [done |]. apply wellFormed_with_counter; [done | lia].
  - (* the last sentence: the request completes *)
    destruct Hinv as [Hacc Hnn Hframe Hreqs].
    pose proof (Forall_lookup_1 _ _ _ _ Hreqs Hreq) as [Hle Hcb].
    rewrite Hcb. simpl.
    assert (held req = inputBytes (source req)) as Hbefore.
    { unfold held, completed. rewrite Hc. case_bool_decide; [| done]. lia. }
    assert (held (with_counter 0 req) = 0%Z) as Hafter.
    { unfold held, completed. simpl. case_bool_decide as Hd; [done |].
      destruct Hd. split; [done |].
      intros Hnil. rewrite Hnil in Hle. simpl in Hle. lia. }
    pose proof (heldBy_insert _ _ _ (with_counter 0 req) Hreq) as Hsum.
    rewrite Hbefore, Hafter in Hsum.
    pose proof (heldBy_nonneg (<[u.1 := with_counter 0 req]> (requests s))).
    assert (0 ≤ frameBytes (caller s))%Z.
    { destruct (caller s); simpl; try done; apply inputBytes_nonneg. }
    unfold inFlightBytes in Hacc.
    destruct HC as [HC0 Hwrap].
    destruct (Hwrap (capacityBytes_ s + inputBytes (source req))%Z) as [Hw _].
    { pose proof (inputBytes_nonneg (source req)). lia. }
    pose proof (inputBytes_nonneg (source req)).
    split; simpl; rewrite ?Hw.
    + unfold inFlightBytes. simpl. lia.
    + lia.
    + intros t input line Hpc. specialize (Hframe _ _ _ Hpc). lia.
    + apply Forall_insert; [done |]. apply wellFormed_with_counter; [done | lia].
Qed.

Lemma translateBatch_inv (cpuId : nat) (l : list RequestSentence) (s : System) :
  CapacityInv C s → CapacityInv C (translateBatch cpuId l s).
Proof.
  intros Hinv. unfold translateBatch.
  assert (CapacityInv C (emit (ETranslate cpuId l) s)) as Hemit
    by (destruct Hinv; split; done).
  revert Hemit. generalize (emit (ETranslate cpuId l) s).
  induction l as [| u rest IH]; intros s0 Hs0; simpl; [done |].
  apply IH. by apply processHistory_inv.
Qed.

(** Steps that touch neither the counter nor the requests. *)
Lemma CapacityInv_frame (s s' : System) :
  capacityBytes_ s' = capacityBytes_ s → requests s' = requests s →
  caller s' = caller s → CapacityInv C s → CapacityInv C s'.
Proof.
  intros Hcap Hreq Hpc [Hacc Hnn Hframe Hreqs].
  split; unfold inFlightBytes in *; rewrite ?Hcap, ?Hreq, ?Hpc; done.
Qed.

Lemma CapacityInv_idle (s s' : System) :
  capacityBytes_ s' = capacityBytes_ s → requests s' = requests s →
  frameBytes (caller s) = 0%Z → frameBytes (caller s') = 0%Z →
  (∀ t input line, caller s' ≠ TranslatePart_accept t input line) →
  CapacityInv C s → CapacityInv C s'.
Proof.
  intros Hcap Hreq Hpc Hpc' Hne [Hacc Hnn Hframe Hreqs].
  split; unfold inFlightBytes in *; rewrite ?Hcap, ?Hreq, ?Hpc'.
  - by rewrite Hpc in Hacc.
  - done.
  - intros t input line Heq. by destruct (Hne _ _ _ Heq).
  - done.
Qed.

Lemma CapacityInv_le (s : System) :
  CapacityInv C s → (0 ≤ capacityBytes_ s ≤ C)%Z.
Proof.
  intros [Hacc Hnn _ _]. unfold inFlightBytes in Hacc.
  pose proof (heldBy_nonneg (requests s)).
  assert (0 ≤ frameBytes (caller s))%Z.
  { destruct (caller s); simpl; try done; apply inputBytes_nonneg. }
  lia.
Qed.

Lemma translatePart_inv (input : string) (line : Z) (s : System) ret :
  caller s = Outside ret →
  CapacityInv C s → CapacityInv C (translatePart input line s).
Proof.
  intros Hout Hinv. pose proof (CapacityInv_le _ Hinv) as Hle.
  destruct HC as [_ Hwrap]. destruct (Hwrap _ Hle) as [_ Hsize].
  unfold translatePart. simpl. rewrite Hsize. case_bool_decide.
  - eapply CapacityInv_idle; [.. | exact Hinv]; simpl; try done.
    by rewrite Hout.
  - destruct Hinv as [Hacc Hnn Hframe Hreqs].
    split; unfold inFlightBytes in *; simpl in *.
    + by rewrite Hout in Hacc.
    + done.
    + intros t i l [= _ <- _]. lia.
    + done.
Qed.

Lemma enter_inv (c : Call) (s : System) ret :
  caller s = Outside ret → CapacityInv C s → CapacityInv C (enter c s).
Proof.
  intros Hout Hinv. destruct c as [input | input | input line | t | t p | |];
    simpl; unfold translateWithCopy, translate;
    try (by eapply translatePart_inv).
  - (* cancel *)
    eapply CapacityInv_idle; [.. | exact Hinv]; rewrite ?cancel_eq;
      destruct (trackedRequest t s); simpl; try done; by rewrite Hout.
  - (* amend *)
    rewrite ?amend_eq. destruct (trackedRequest t s) as [r |];
      [destruct (existsb _ _) |];
      try (eapply CapacityInv_idle; [.. | exact Hinv]; simpl; try done;
           by rewrite Hout).
    destruct Hinv as [Hacc Hnn Hframe Hreqs].
    split; unfold inFlightBytes in *; simpl in *.
    + rewrite heldBy_alter by done. by rewrite Hout in Hacc.
    + done.
    + done.
    + apply Forall_alter; [done |]. intros req _ Hwf. exact Hwf.
  - eapply CapacityInv_idle; [.. | exact Hinv]; simpl; try done; by rewrite Hout.
  - eapply CapacityInv_idle; [.. | exact Hinv]; simpl; try done; by rewrite Hout.
Qed.

Lemma advance_inv (s s' : System) :
  CapacityInv C s → advance s = Some s' → CapacityInv C s'.
Proof.
  intros Hinv. unfold advance.
  destruct (caller s) as [ret | t input line | t input line | t | t input line
                          | t | i d | i d | d |] eqn:Hpc; try done.
  - (* line 83 *)
    intros [= <-]. pose proof (CapacityInv_le _ Hinv) as Hle.
    destruct Hinv as [Hacc Hnn Hframe Hreqs].
    specialize (Hframe _ _ _ Hpc).
    pose proof (inputBytes_nonneg input).
    destruct HC as [_ Hwrap].
    destruct (Hwrap (capacityBytes_ s - inputBytes input)%Z) as [Hw _]; [lia |].
    unfold inFlightBytes in Hacc. rewrite Hpc in Hacc. simpl in Hacc.
    unfold translatePart_accept. simpl.
    case_bool_decide; split; unfold inFlightBytes; simpl; rewrite ?Hw;
      try done; lia.
  - (* the request is made, in the task *)
    intros [= <-]. rewrite prepareRequest_eq.
    destruct Hinv as [Hacc Hnn Hframe Hreqs].
    unfold inFlightBytes in Hacc. rewrite Hpc in Hacc. simpl in Hacc.
    split; unfold inFlightBytes; simpl.
    + rewrite heldBy_app. simpl. unfold held, completed. simpl.
      case_bool_decide as Hdone; [| lia].
      destruct Hdone as [Hz Hne]. by apply length_zero_iff_nil in Hz.
    + done.
    + done.
    + apply Forall_app. split; [done |]. by apply Forall_singleton.
  - (* the batches go to the queue *)
    unfold produceTo. destruct (cleaveBatch (batcher_ s)) as [[l b'] |].
    + destruct (ProduceSwap _ _) as [q |]; [| done]. simpl. intros [= <-].
      eapply CapacityInv_frame; [.. | exact Hinv]; done.
    + intros [= <-].
      eapply CapacityInv_idle; [.. | exact Hinv]; simpl; try done; by rewrite Hpc.
  - (* the request is made, in place *)
    intros [= <-]. rewrite prepareRequest_eq.
    destruct Hinv as [Hacc Hnn Hframe Hreqs].
    unfold inFlightBytes in Hacc. rewrite Hpc in Hacc. simpl in Hacc.
    split; unfold inFlightBytes; simpl.
    + rewrite heldBy_app. simpl. unfold held, completed. simpl.
      case_bool_decide as Hdone; [| lia].
      destruct Hdone as [Hz Hne]. by apply length_zero_iff_nil in Hz.
    + done.
    + done.
    + apply Forall_app. split; [done |]. by apply Forall_singleton.
  - (* the batches are translated in place *)
    unfold drain. destruct (cleaveBatch (batcher_ s)) as [[l b'] |].
    + destruct (translators_ s !! 0); [| done]. intros [= <-].
      apply translateBatch_inv.
      eapply CapacityInv_frame; [.. | exact Hinv]; done.
    + intros [= <-].
      eapply CapacityInv_idle; [.. | exact Hinv]; simpl; try done; by rewrite Hpc.
  - unfold stop_poison. destruct (workers_ s !! i).
    + destruct (ProduceSwap _ _) as [q |]; [| done]. simpl. intros [= <-].
      eapply CapacityInv_idle; [.. | exact Hinv]; simpl; try done; by rewrite Hpc.
    + intros [= <-].
      eapply CapacityInv_idle; [.. | exact Hinv]; simpl; try done; by rewrite Hpc.
  - unfold stop_join. destruct (workers_ s !! i) as [w |].
    + destruct (threads s !! w) as [[| | |] |]; try done. intros [= <-].
      eapply CapacityInv_idle; [.. | exact Hinv]; simpl; try done; by rewrite Hpc.
    + intros [= <-].
      eapply CapacityInv_idle; [.. | exact Hinv]; simpl; try done; by rewrite Hpc.
  - intros [= <-].
    eapply CapacityInv_idle; [.. | exact Hinv]; simpl; try done;
      [by rewrite Hpc | by destruct d | by destruct d].
Qed.

Lemma worker_inv (cpuId : nat) (s s' : System) :
  CapacityInv C s → worker cpuId s = Some s' → CapacityInv C s'.
Proof.
  intros Hinv. unfold worker.
  destruct (threads s !! cpuId) as [[| | [| u rest] |] |]; try done.
  - intros [= <-]. eapply CapacityInv_frame; [.. | exact Hinv]; done.
  - destruct (ConsumeSwap (pcqueue_ s)) as [[[| l] q] |]; try done;
      intros [= <-]; (eapply CapacityInv_frame; [.. | exact Hinv]; done).
  - intros [= <-]. eapply CapacityInv_frame; [.. | exact Hinv]; done.
  - intros [= <-]. apply processHistory_inv.
    eapply CapacityInv_frame; [.. | exact Hinv]; done.
Qed.

Lemma step_inv (l : Label) (s s' : System) :
  CapacityInv C s → step l s = Some s' → CapacityInv C s'.
Proof.
  intros Hinv. destruct l as [c | | cpuId]; simpl.
  - destruct (caller s) eqn:Hpc; try done. intros [= <-].
    by eapply enter_inv.
  - by apply advance_inv.
  - by apply worker_inv.
Qed.

Lemma run_inv (sched : list Label) (s s' : System) :
  CapacityInv C s → run sched s = Some s' → CapacityInv C s'.
Proof.
  revert s. induction sched as [| l sched IH]; intros s Hinv; simpl.
  - by intros [= <-].
  - destruct (step l s) as [s1 |] eqn:Hstep; [| done]. simpl.
    apply IH. by eapply step_inv.
Qed.

Lemma newService_inv (options : Options) (s : System) :
  capacity_bytes options = C → newService options = Some s → CapacityInv C s.
Proof.
  intros HCeq. unfold newService.
  destruct (loadVocabularies options) as [[vs hp] |]; [| done].
  intros [= <-]. destruct HC as [HC0 Hwrap].
  destruct (Hwrap C) as [Hw _]; [lia |].
  split; unfold inFlightBytes; simpl; rewrite ?HCeq, ?Hw; try done; lia.
Qed.

Lemma reachable_inv (options : Options) (s : System) :
  capacity_bytes options = C → reachable options s → CapacityInv C s.
Proof.
  intros HCeq (s0 & sched & Hnew & Hrun).
  eapply run_inv; [| exact Hrun]. by eapply newService_inv.
Qed.

(** The counter moves only when the last sentence of a request arrives,
    and then by the size of that request. *)
Lemma processHistory_capacity (u : RequestSentence) (s : System) (req : Request) :
  CapacityInv C s → requests s !! u.1 = Some req →
  capacityBytes_ (processHistory u s) =
    if bool_decide (counter req = 1)
    then (capacityBytes_ s + inputBytes (source req))%Z
    else capacityBytes_ s.
Proof.
  intros [Hacc Hnn _ Hreqs] Hreq.
  pose proof (Forall_lookup_1 _ _ _ _ Hreqs Hreq) as [Hle Hcb].
  unfold processHistory. rewrite Hreq.
  destruct (counter req) as [| [| n]] eqn:Hc; simpl.
  - done.
  - unfold completeRequest. simpl.
    rewrite list_lookup_insert_eq by (by eapply lookup_lt_Some).
    simpl. rewrite Hcb. simpl.
    assert (held req = inputBytes (source req)) as Hbefore.
    { unfold held, completed. rewrite Hc. case_bool_decide; [| done]. lia. }
    pose proof (heldBy_insert _ _ _ (with_counter 0 req) Hreq) as Hsum.
    pose proof (heldBy_nonneg (<[u.1 := with_counter 0 req]> (requests s))).
    assert (held (with_counter 0 req) = 0%Z) as Hafter.
    { unfold held, completed. simpl. case_bool_decide as Hd; [done |].
      destruct Hd. split; [done |].
      intros Hnil. rewrite Hnil in Hle. simpl in Hle. lia. }
    assert (0 ≤ frameBytes (caller s))%Z.
    { destruct (caller s); simpl; try done; apply inputBytes_nonneg. }
    pose proof (inputBytes_nonneg (source req)).
    unfold inFlightBytes in Hacc. destruct HC as [_ Hwrap].
    destruct (Hwrap (capacityBytes_ s + inputBytes (source req))%Z) as [Hw _];
      [lia | done].
  - done.
Qed.

End Budget.

Section BudgetTheorems.
Context `{Environment}.

(** The budget with one client thread.  [reachable] is by the steps of
    [step]: one client thread, whose calls follow one another, with the
    workers running beside it.  In every state a service built with a
    budget can reach that way, the counter lies between zero and the
    budget; and so it does after any step from there: the admission test,
    the subtraction at line 83, the addition in a completion callback. *)
Theorem capacity_within_budget (options : Options) (s : System) :
  Representable (capacity_bytes options) →
  reachable options s →
  (0 ≤ capacityBytes_ s ≤ capacity_bytes options)%Z ∧
  ∀ l s', step l s = Some s' →
    (0 ≤ capacityBytes_ s' ≤ capacity_bytes options)%Z.
Proof.
  intros HC Hreach.
  pose proof (reachable_inv _ HC options s eq_refl Hreach) as Hinv.
  split; [by eapply CapacityInv_le |].
  intros l s' Hstep. eapply CapacityInv_le. by eapply step_inv.
Qed.

(** C2.  In every reachable state the counter and the bytes in flight add
    up to the budget.  The subtraction at line 83 takes the size of the
    input; the sentences of a request give the size of that request back
    when the last of them arrives, and at no other time; and between two
    states with the same bytes in flight the counter takes the same
    value: once everything accepted has completed it is the budget
    again. *)
Theorem capacity_round_trip (options : Options) (s : System) :
  Representable (capacity_bytes options) →
  reachable options s →
  (capacityBytes_ s + inFlightBytes s = capacity_bytes options)%Z ∧
  (∀ t input line s',
     caller s = TranslatePart_accept t input line → advance s = Some s' →
     capacityBytes_ s' = (capacityBytes_ s - inputBytes input)%Z) ∧
  (∀ u req, requests s !! u.1 = Some req →
     capacityBytes_ (processHistory u s) =
       if bool_decide (counter req = 1)
       then (capacityBytes_ s + inputBytes (source req))%Z
       else capacityBytes_ s) ∧
  (∀ sched s', run sched s = Some s' →
     inFlightBytes s' = inFlightBytes s → capacityBytes_ s' = capacityBytes_ s) ∧
  (inFlightBytes s = 0%Z → capacityBytes_ s = capacity_bytes options).
Proof.
  intros HC Hreach.
  pose proof (reachable_inv _ HC options s eq_refl Hreach) as Hinv.
  pose proof (cap_account _ _ Hinv) as Hacc.
  split_and!.
  - done.
  - intros t input line s' Hpc Hadv.
    pose proof (advance_inv _ HC _ _ Hinv Hadv) as Hinv'.
    pose proof (cap_account _ _ Hinv') as Hacc'.
    unfold advance in Hadv. rewrite Hpc in Hadv. injection Hadv as <-.
    unfold inFlightBytes in *. rewrite Hpc in Hacc.
    unfold translatePart_accept in *. simpl in *.
    case_bool_decide; simpl in *; lia.
  - intros u req Hreq. by eapply processHistory_capacity.
  - intros sched s' Hrun Hsame.
    pose proof (run_inv _ HC _ _ _ Hinv Hrun) as Hinv'.
    pose proof (cap_account _ _ Hinv') as Hacc'. lia.
  - lia.
Qed.

End BudgetTheorems.

(** ** Request identifiers *)

Lemma issuedIds_app l1 l2 : issuedIds (l1 ++ l2) = issuedIds l1 ++ issuedIds l2.
Proof. unfold issuedIds. apply omap_app. Qed.

Lemma fmap_Id_insert (l : list Request) i req n :
  l !! i = Some req → Id <$> <[i := with_counter n req]> l = Id <$> l.
Proof.
  intros Hreq. rewrite list_fmap_insert. simpl.
  apply list_insert_id. by rewrite list_lookup_fmap, Hreq.
Qed.

Lemma fmap_Id_alter (f : Request → Request) (l : list Request) i :
  (∀ x, Id (f x) = Id x) → Id <$> alter f i l = Id <$> l.
Proof.
  intros Hf. revert i. induction l as [| x l IH]; intros [| i]; simpl; try done.
  - by rewrite Hf.
  - f_equal. apply IH.
Qed.

Section Identifiers.
Context `{Environment}.

Lemma callback_idView c s : idView (callback c s) = idView s.
Proof. by destruct c. Qed.

Lemma processHistory_idView u s : idView (processHistory u s) = idView s.
Proof.
  destruct (processHistory_cases u s) as [-> | [(req & n & Hreq & Hc & ->)
                                              | (req & Hreq & Hc & ->)]];
    [done | |].
  - unfold idView. simpl. by rewrite (fmap_Id_insert _ _ _ _ Hreq).
  - transitivity (idView (set_value (promise req) (TranslatedResponse (source req))
               (set_requests (<[u.1 := with_counter 0 req]> (requests s)) s))).
    + generalize (set_value (promise req) (TranslatedResponse (source req))
               (set_requests (<[u.1 := with_counter 0 req]> (requests s)) s)).
      induction (callbacks req) as [| c cs IH]; intros s0; simpl; [done |].
      by rewrite IH, callback_idView.
    + unfold idView. simpl. by rewrite (fmap_Id_insert _ _ _ _ Hreq).
Qed.

Lemma translateBatch_idView cpuId l s : idView (translateBatch cpuId l s) = idView s.
Proof.
  unfold translateBatch.
  transitivity (idView (emit (ETranslate cpuId l) s)).
  - generalize (emit (ETranslate cpuId l) s).
    induction l as [| u rest IH]; intros s0; simpl; [done |].
    by rewrite IH, processHistory_idView.
  - unfold idView. simpl. by rewrite issuedIds_app, app_nil_r.
Qed.

(** A step leaves the identifiers alone or is the construction of a
    request. *)
Lemma step_idView (l : Label) (s s' : System) :
  step l s = Some s' →
  idView s' = idView s ∨
  ∃ t input line, idView s' = idView (prepareRequest t input line s).
Proof.
  destruct l as [c | | cpuId]; simpl.
  - destruct (caller s); try done. intros [= <-]. left.
    destruct c as [input | input | input line | t | t p | |]; simpl;
      rewrite ?cancel_eq, ?amend_eq;
      unfold translateWithCopy, translate, translatePart;
      simpl; repeat case_bool_decide; try done.
    + rewrite ?trackedRequest_emit.
      destruct (trackedRequest t s); unfold idView; simpl;
        by rewrite issuedIds_app, app_nil_r.
    + rewrite ?trackedRequest_emit.
      destruct (trackedRequest t s) as [r |]; [destruct (existsb _ _) |];
        unfold idView; simpl;
        by rewrite issuedIds_app, app_nil_r, ?fmap_Id_alter.
  - unfold advance. destruct (caller s) as [ret | t input line | t input line
        | t | t input line | t | i d | i d | d |]; try done.
    + intros [= <-]. left. unfold translatePart_accept. simpl.
      case_bool_decide; unfold idView; simpl; [| done].
      by rewrite issuedIds_app, app_nil_r.
    + intros [= <-]. right. by exists t, input, line.
    + unfold produceTo. destruct (cleaveBatch _) as [[l b'] |].
      * destruct (ProduceSwap _ _); [| done]. intros [= <-]. left.
        unfold idView. simpl. by rewrite issuedIds_app, app_nil_r.
      * intros [= <-]. by left.
    + intros [= <-]. right. by exists t, input, line.
    + unfold drain. destruct (cleaveBatch _) as [[l b'] |].
      * destruct (translators_ s !! 0); [| done]. intros [= <-]. left.
        by rewrite translateBatch_idView.
      * intros [= <-]. by left.
    + unfold stop_poison. destruct (workers_ s !! i).
      * destruct (ProduceSwap _ _); [| done]. intros [= <-]. left.
        unfold idView. simpl. by rewrite issuedIds_app, app_nil_r.
      * intros [= <-]. by left.
    + unfold stop_join. destruct (workers_ s !! i) as [w |].
      * destruct (threads s !! w) as [[| | |] |]; try done. intros [= <-]. left.
        unfold idView. simpl. by rewrite issuedIds_app, app_nil_r.
      * intros [= <-]. by left.
    + intros [= <-]. by left.
  - unfold worker. destruct (threads s !! cpuId) as [[| | [| u rest] |] |];
      try done.
    + intros [= <-]. by left.
    + destruct (ConsumeSwap _) as [[[| l] q] |]; try done; intros [= <-]; left.
      * done.
      * unfold idView. simpl. by rewrite issuedIds_app, app_nil_r.
    + intros [= <-]. by left.
    + intros [= <-]. left. by rewrite processHistory_idView.
Qed.

Variable N : Z.
Hypothesis HN : IdsRepresentable N.

Lemma IdInv_view (s s' : System) :
  idView s' = idView s → IdInv N s → IdInv N s'.
Proof.
  unfold idView, IdInv. intros [= Hid Hreqs Hlog] [Hissued Hfresh].
  assert (length (requests s') = length (requests s)) as Hlen.
  { apply (f_equal length) in Hreqs. by rewrite !length_fmap in Hreqs. }
  rewrite Hid, Hreqs, Hlog, Hlen. done.
Qed.

Lemma prepareRequest_IdInv t input line (s : System) :
  IdInv N s → IdInv N (prepareRequest t input line s).
Proof.
  intros [Hissued Hfresh]. rewrite prepareRequest_eq. unfold IdInv. simpl.
  split.
  - rewrite issuedIds_app, fmap_app, Hissued. done.
  - rewrite length_app. simpl. intros Hle.
    destruct Hfresh as [Hid Hids]; [lia |].
    rewrite fmap_app, Hids, Hid, Nat.add_1_r, seq_S, fmap_app. simpl.
    split; [| done]. rewrite HN by lia. lia.
Qed.

Lemma step_IdInv (l : Label) (s s' : System) :
  IdInv N s → step l s = Some s' → IdInv N s'.
Proof.
  intros Hinv Hstep.
  destruct (step_idView _ _ _ Hstep) as [Hview | (t & input & line & Hview)].
  - by eapply IdInv_view.
  - eapply IdInv_view; [exact Hview |]. by apply prepareRequest_IdInv.
Qed.

Lemma reachable_IdInv (options : Options) (s : System) :
  reachable options s → IdInv N s.
Proof.
  intros (s0 & sched & Hnew & Hrun).
  assert (IdInv N s0) as Hinit.
  { unfold newService in Hnew.
    destruct (loadVocabularies options) as [[vs hp] |]; [| done].
    injection Hnew as <-. split; simpl; done. }
  clear Hnew. revert s0 Hinit Hrun.
  induction sched as [| l sched IH]; intros s0 Hinit; simpl.
  - by intros [= <-].
  - destruct (step l s0) as [s1 |] eqn:Hstep; [| done]. simpl.
    apply IH. by eapply step_IdInv.
Qed.

End Identifiers.

Section IdentifierTheorems.
Context `{Environment}.

(** The identifiers with one client thread.  [reachable] is by the steps
    of [step]: one client thread, whose calls follow one another.  As long
    as the id counter has not run out of its type, the identifiers of the
    requests constructed are then 0, 1, 2, ... in the order of
    construction: they are pairwise distinct, and of two requests the one
    constructed first has the strictly smaller identifier. *)
Theorem request_ids_strictly_increase (options : Options) (s : System) (N : Z) :
  IdsRepresentable N →
  reachable options s →
  (Z.of_nat (length (requests s)) ≤ N)%Z →
  issuedIds (log s) = Id <$> requests s ∧
  issuedIds (log s) = Z.of_nat <$> seq 0 (length (requests s)) ∧
  NoDup (issuedIds (log s)) ∧
  ∀ i j a b, i < j →
    issuedIds (log s) !! i = Some a → issuedIds (log s) !! j = Some b →
    (a < b)%Z.
Proof.
  intros HN Hreach Hle.
  destruct (reachable_IdInv N HN options s Hreach) as [Hissued Hfresh].
  destruct (Hfresh Hle) as [_ Hids].
  rewrite Hissued, Hids. split_and!; [done | done | |].
  - apply NoDup_fmap_2; [apply Nat2Z.inj' | apply NoDup_seq].
  - intros i j a b Hij Ha Hb.
    apply list_lookup_fmap_Some in Ha as (x & -> & Hx).
    apply list_lookup_fmap_Some in Hb as (y & -> & Hy).
    apply lookup_seq in Hx as [-> _]. apply lookup_seq in Hy as [-> _]. lia.
Qed.

End IdentifierTheorems.

(** ** Line numbers and priorities *)

Lemma constructedWith_app l1 l2 :
  constructedWith (l1 ++ l2) = constructedWith l1 ++ constructedWith l2.
Proof. unfold constructedWith. apply omap_app. Qed.

Lemma fmap_nice_insert (l : list Request) i req n :
  l !! i = Some req → nice <$> <[i := with_counter n req]> l = nice <$> l.
Proof.
  intros Hreq. rewrite list_fmap_insert. simpl.
  apply list_insert_id. by rewrite list_lookup_fmap, Hreq.
Qed.

Section Priorities.
Context `{Environment}.

(** What [processHistory] leaves alone. *)
Lemma processHistory_frame (u : RequestSentence) (s : System) :
  log (processHistory u s) = log s ∧
  caller (processHistory u s) = caller s ∧
  nice <$> requests (processHistory u s) = nice <$> requests s.
Proof.
  destruct (processHistory_cases u s) as [-> | [(req & n & Hreq & Hc & ->)
                                              | (req & Hreq & Hc & ->)]];
    [done | |].
  - simpl. by rewrite (fmap_nice_insert _ _ _ _ Hreq).
  - set (s0 := set_value _ _ _).
    assert (log s0 = log s ∧ caller s0 = caller s ∧
            nice <$> requests s0 = nice <$> requests s) as Hs0.
    { subst s0. simpl. by rewrite (fmap_nice_insert _ _ _ _ Hreq). }
    clearbody s0. revert s0 Hs0.
    induction (callbacks req) as [| c cs IH]; intros s0 Hs0; simpl; [done |].
    apply IH. by destruct c.
Qed.

Lemma translateBatch_frame (cpuId : nat) (l : list RequestSentence) (s : System) :
  log (translateBatch cpuId l s) = log s ++ [ETranslate cpuId l] ∧
  caller (translateBatch cpuId l s) = caller s ∧
  nice <$> requests (translateBatch cpuId l s) = nice <$> requests s.
Proof.
  unfold translateBatch. set (s0 := emit _ s).
  assert (log s0 = log s ++ [ETranslate cpuId l] ∧ caller s0 = caller s ∧
          nice <$> requests s0 = nice <$> requests s) as Hs0 by done.
  clearbody s0. revert s0 Hs0. generalize l at 1 3.
  induction l as [| u rest IH]; intros l0 s0 Hs0; simpl; [done |].
  apply IH. destruct (processHistory_frame u s0) as (-> & -> & ->). done.
Qed.

(** A step constructs no request, or the one of the call in progress, with
    its line number and priority 20; and the line number of a call is 0
    unless the client entered through [translatePart]. *)
Lemma step_constructedWith (l : Label) (s s' : System) :
  step l s = Some s' →
  (constructedWith (log s') = constructedWith (log s) ∨
   ∃ line, frameLine (caller s) = Some line ∧
     constructedWith (log s') = constructedWith (log s) ++ [(line, 20%Z)]) ∧
  (∀ line, frameLine (caller s') = Some line →
     frameLine (caller s) = Some line ∨
     (viaTranslate l = true ∧ line = 0%Z) ∨ viaTranslate l = false).
Proof.
  destruct l as [c | | cpuId]; simpl.
  - destruct (caller s); try done. intros [= <-].
    destruct c as [input | input | input line | t | t p | |]; simpl;
      rewrite ?cancel_eq, ?amend_eq;
      unfold translateWithCopy, translate, translatePart;
      simpl; repeat case_bool_decide; simpl; try (split; [by left | ]);
      try (intros ? [= <-]; eauto); try done.
    + rewrite ?trackedRequest_emit. destruct (trackedRequest t s); simpl;
        (split; [left; by rewrite constructedWith_app, app_nil_r | done]).
    + rewrite ?trackedRequest_emit.
      destruct (trackedRequest t s); [destruct (existsb _ _) |]; simpl;
        (split; [left; by rewrite constructedWith_app, app_nil_r | done]).
  - unfold advance. destruct (caller s) as [ret | t input line | t input line
        | t | t input line | t | i d | i d | d |] eqn:Hpc; try done.
    + intros [= <-]. unfold translatePart_accept. simpl.
      case_bool_decide; simpl; (split; [left | intros ? [= <-]; by left]);
        [| done].
      by rewrite constructedWith_app, app_nil_r.
    + intros [= <-]. rewrite prepareRequest_eq. simpl. split; [| done].
      right. exists line. split; [done |]. by rewrite constructedWith_app.
    + unfold produceTo. destruct (cleaveBatch _) as [[l b'] |].
      * destruct (ProduceSwap _ _); [| done]. intros [= <-]. simpl.
        rewrite Hpc. split; [| done].
        left. by rewrite constructedWith_app, app_nil_r.
      * intros [= <-]. simpl. split; [by left | done].
    + intros [= <-]. rewrite prepareRequest_eq. simpl. split; [| done].
      right. exists line. split; [done |]. by rewrite constructedWith_app.
    + unfold drain. destruct (cleaveBatch _) as [[l b'] |].
      * destruct (translators_ s !! 0); [| done]. intros [= <-].
        destruct (translateBatch_frame 0 l (set_batcher b' s)) as (-> & -> & _).
        simpl. rewrite Hpc. split; [| done].
        left. by rewrite constructedWith_app, app_nil_r.
      * intros [= <-]. simpl. split; [by left | done].
    + unfold stop_poison. destruct (workers_ s !! i).
      * destruct (ProduceSwap _ _); [| done]. intros [= <-]. simpl. split; [| done].
        left. by rewrite constructedWith_app, app_nil_r.
      * intros [= <-]. simpl. split; [by left | done].
    + unfold stop_join. destruct (workers_ s !! i) as [w |].
      * destruct (threads s !! w) as [[| | |] |]; try done. intros [= <-]. simpl.
        split; [| done]. left. by rewrite constructedWith_app, app_nil_r.
      * intros [= <-]. simpl. split; [by left | done].
    + intros [= <-]. simpl. split; [by left | by destruct d].
  - unfold worker. destruct (threads s !! cpuId) as [[| | [| u rest] |] |];
      try done.
    + intros [= <-]. simpl. split; [by left | by left].
    + destruct (ConsumeSwap _) as [[[| l] q] |]; try done; intros [= <-]; simpl;
        (split; [left | by left]); [done |].
      by rewrite constructedWith_app, app_nil_r.
    + intros [= <-]. simpl. split; [by left | by left].
    + intros [= <-].
      destruct (processHistory_frame u
                  (set_threads (<[cpuId := Translating rest]> (threads s)) s))
        as (-> & -> & _).
      simpl. split; [by left | by left].
Qed.

(** Only [amend] changes the priority of a request. *)
Lemma step_priorities (l : Label) (s s' : System) :
  step l s = Some s' → isAmend l = false →
  nice <$> requests s' = nice <$> requests s ∨
  nice <$> requests s' = (nice <$> requests s) ++ [20%Z].
Proof.
  destruct l as [c | | cpuId]; simpl.
  - destruct (caller s); try done. intros [= <-] Hamend. left.
    destruct c as [input | input | input line | t | t p | |]; simpl; try done;
      rewrite ?cancel_eq;
      unfold translateWithCopy, translate, translatePart;
      simpl; repeat case_bool_decide; try done.
    rewrite ?trackedRequest_emit; by destruct (trackedRequest t s).
  - intros Hadv _. unfold advance in Hadv.
    destruct (caller s) as [ret | t input line | t input line
        | t | t input line | t | i d | i d | d |]; try done.
    + injection Hadv as <-. left. unfold translatePart_accept. simpl.
      by case_bool_decide.
    + injection Hadv as <-. right. rewrite prepareRequest_eq. simpl.
      by rewrite fmap_app.
    + unfold produceTo in Hadv. destruct (cleaveBatch _) as [[l b'] |].
      * destruct (ProduceSwap _ _); [| done]. injection Hadv as <-. by left.
      * injection Hadv as <-. by left.
    + injection Hadv as <-. right. rewrite prepareRequest_eq. simpl.
      by rewrite fmap_app.
    + unfold drain in Hadv. destruct (cleaveBatch _) as [[l b'] |].
      * destruct (translators_ s !! 0); [| done]. injection Hadv as <-. left.
        by destruct (translateBatch_frame 0 l (set_batcher b' s)) as (_ & _ & ->).
      * injection Hadv as <-. by left.
    + unfold stop_poison in Hadv. destruct (workers_ s !! i).
      * destruct (ProduceSwap _ _); [| done]. injection Hadv as <-. by left.
      * injection Hadv as <-. by left.
    + unfold stop_join in Hadv. destruct (workers_ s !! i) as [w |].
      * destruct (threads s !! w) as [[| | |] |]; try done.
        injection Hadv as <-. by left.
      * injection Hadv as <-. by left.
    + injection Hadv as <-. by left.
  - intros Hw _. unfold worker in Hw.
    destruct (threads s !! cpuId) as [[| | [| u rest] |] |]; try done.
    + injection Hw as <-. by left.
    + destruct (ConsumeSwap _) as [[[| l] q] |]; try done;
        injection Hw as <-; by left.
    + injection Hw as <-. by left.
    + injection Hw as <-. left.
      by destruct (processHistory_frame u
                  (set_threads (<[cpuId := Translating rest]> (threads s)) s))
        as (_ & _ & ->).
Qed.

Lemma run_constructedWith (sched : list Label) (s s' : System) :
  run sched s = Some s' →
  Forall (λ lp, lp.2 = 20%Z) (constructedWith (log s)) →
  Forall (λ lp, lp.2 = 20%Z) (constructedWith (log s')).
Proof.
  revert s. induction sched as [| l sched IH]; intros s; simpl.
  - by intros [= <-].
  - destruct (step l s) as [s1 |] eqn:Hstep; [| done]. simpl.
    intros Hrun Hs. apply (IH s1 Hrun).
    destruct (step_constructedWith _ _ _ Hstep) as [[-> | (line & _ & ->)] _];
      [done |].
    apply Forall_app. split; [done |]. by apply Forall_singleton.
Qed.

Lemma run_lines (sched : list Label) (s s' : System) :
  run sched s = Some s' →
  forallb viaTranslate sched = true →
  (∀ line, frameLine (caller s) = Some line → line = 0%Z) →
  Forall (λ lp, lp.1 = 0%Z) (constructedWith (log s)) →
  Forall (λ lp, lp.1 = 0%Z) (constructedWith (log s')).
Proof.
  revert s. induction sched as [| l sched IH]; intros s; simpl.
  - by intros [= <-].
  - destruct (step l s) as [s1 |] eqn:Hstep; [| done]. simpl.
    intros Hrun [Hl Hsched]%andb_prop Hframe Hs.
    destruct (step_constructedWith _ _ _ Hstep) as [Hlog Hline].
    apply (IH s1 Hrun Hsched).
    + intros line Hs1. destruct (Hline _ Hs1) as [Hsame | [[_ ->] | Hno]].
      * by apply Hframe.
      * done.
      * congruence.
    + destruct Hlog as [-> | (line & Hpc & ->)]; [done |].
      apply Forall_app. split; [done |]. apply Forall_singleton. simpl.
      by apply Hframe.
Qed.

(** C10.  Every request is constructed with priority 20, whatever the
    client does; if the client enters through [translate] and
    [translateWithCopy] only, every request is constructed with line number
    0; and a step that is not a call of [amend] leaves the priority of every
    request as it is, a new request starting at 20. *)
Theorem requests_start_at_line_0_nice_20 (options : Options) (s0 s : System)
    (sched : list Label) :
  newService options = Some s0 →
  run sched s0 = Some s →
  Forall (λ lp, lp.2 = 20%Z) (constructedWith (log s)) ∧
  (forallb viaTranslate sched = true →
   Forall (λ lp, lp.1 = 0%Z) (constructedWith (log s))) ∧
  (∀ l s', step l s = Some s' → isAmend l = false →
     nice <$> requests s' = nice <$> requests s ∨
     nice <$> requests s' = (nice <$> requests s) ++ [20%Z]).
Proof.
  intros Hnew Hrun.
  assert (log s0 = [] ∧ caller s0 = Outside None) as [Hlog Hpc].
  { unfold newService in Hnew.
    destruct (loadVocabularies options) as [[vs hp] |]; [| done].
    by injection Hnew as <-. }
  split_and!.
  - eapply run_constructedWith; [exact Hrun |]. by rewrite Hlog.
  - intros Hsched. eapply run_lines; [exact Hrun | done | |].
    + by rewrite Hpc.
    + by rewrite Hlog.
  - intros l s' Hstep Hamend. by eapply step_priorities.
Qed.

End Priorities.

(** ** Shutdown *)

Lemma shutdownEvents_app l1 l2 :
  shutdownEvents (l1 ++ l2) = shutdownEvents l1 ++ shutdownEvents l2.
Proof. unfold shutdownEvents. apply omap_app. Qed.

Lemma replicate_snoc {A} (n : nat) (x : A) :
  x :: replicate n x = replicate n x ++ [x].
Proof. induction n as [| n IH]; simpl; [done | by rewrite <- IH]. Qed.

Section Shutdown.
Context `{Environment}.

Lemma processHistory_shell (u : RequestSentence) (s : System) :
  shell (processHistory u s) = shell s.
Proof.
  destruct (processHistory_cases u s) as [-> | [(req & n & Hreq & Hc & ->)
                                              | (req & Hreq & Hc & ->)]];
    [done | done |].
  set (s0 := set_value _ _ _).
  assert (shell s0 = shell s) as Hs0 by done.
  clearbody s0. revert s0 Hs0.
  induction (callbacks req) as [| c cs IH]; intros s0 Hs0; simpl; [done |].
  apply IH. by destruct c.
Qed.

Lemma foldl_processHistory_shell (l : list RequestSentence) (s : System) :
  shell (foldl (λ s u, processHistory u s) s l) = shell s.
Proof.
  revert s. induction l as [| u rest IH]; intros s; simpl; [done |].
  by rewrite IH, processHistory_shell.
Qed.

Lemma translateBatch_engine (cpuId : nat) (l : list RequestSentence) (s : System) :
  engine (translateBatch cpuId l s) = engine s ∧
  batcher_ (translateBatch cpuId l s) = batcher_ s ∧
  caller (translateBatch cpuId l s) = caller s.
Proof.
  pose proof (foldl_processHistory_shell l (emit (ETranslate cpuId l) s)) as Hs.
  fold (translateBatch cpuId l s) in Hs. split_and!.
  - by apply (f_equal engine) in Hs.
  - by apply (f_equal batcher_) in Hs.
  - by apply (f_equal caller) in Hs.
Qed.

Lemma exited_stable (cpuId : nat) (s s' : System) (w : nat) :
  worker cpuId s = Some s' → exited s w → exited s' w.
Proof.
  unfold worker, exited. intros Hw Hex.
  assert (∀ st, threads s !! cpuId ≠ Some Exited →
            <[cpuId := st]> (threads s) !! w = Some Exited) as Hother.
  { intros st Hne. rewrite list_lookup_insert_ne; [done |]. congruence. }
  destruct (threads s !! cpuId) as [[| | [| u rest] |] |] eqn:Hth; try done.
  - injection Hw as <-. simpl. by apply Hother.
  - destruct (ConsumeSwap _) as [[[| l] q] |]; try done;
      injection Hw as <-; simpl; by apply Hother.
  - injection Hw as <-. simpl. by apply Hother.
  - injection Hw as <-.
    pose proof (processHistory_shell u
                  (set_threads (<[cpuId := Translating rest]> (threads s)) s))
      as Hshell.
    apply (f_equal threads) in Hshell. simpl in Hshell. rewrite Hshell.
    by apply Hother.
Qed.

(** What a worker step leaves alone. *)
Lemma worker_frame (cpuId : nat) (s s' : System) :
  worker cpuId s = Some s' →
  caller s' = caller s ∧ workers_ s' = workers_ s ∧
  shutdownEvents (log s') = shutdownEvents (log s).
Proof.
  unfold worker.
  destruct (threads s !! cpuId) as [[| | [| u rest] |] |]; try done.
  - by intros [= <-].
  - destruct (ConsumeSwap _) as [[[| l] q] |]; try done; intros [= <-];
      simpl; [done |]. by rewrite shutdownEvents_app, app_nil_r.
  - by intros [= <-].
  - intros [= <-].
    pose proof (processHistory_shell u
                  (set_threads (<[cpuId := Translating rest]> (threads s)) s))
      as Hshell.
    split_and!.
    + by apply (f_equal caller) in Hshell.
    + by apply (f_equal workers_) in Hshell.
    + by apply (f_equal log) in Hshell; simpl in Hshell; rewrite Hshell.
Qed.

Lemma StopInv_worker ws base cpuId (s s' : System) :
  worker cpuId s = Some s' → StopInv ws base s → StopInv ws base s'.
Proof.
  intros Hw. destruct (worker_frame _ _ _ Hw) as (Hpc & Hws & Hlog).
  assert (∀ l, Forall (exited s) l → Forall (exited s') l) as Hex.
  { intros l Hl. eapply Forall_impl; [exact Hl |].
    intros w. by eapply exited_stable. }
  unfold StopInv. rewrite Hpc, Hws, Hlog.
  destruct (caller s); try done; intuition auto.
Qed.

Lemma StopInv_advance ws base (s s' : System) :
  advance s = Some s' → StopInv ws base s → StopInv ws base s'.
Proof.
  unfold advance, StopInv.
  destruct (caller s) as [ret | | | | | | i d | i d | d |] eqn:Hpc; try done.
  - (* a poison is pushed, or all have been *)
    intros Hadv (Hws & Hi & Hlog). unfold stop_poison in Hadv.
    destruct (workers_ s !! i) as [w |] eqn:Hw.
    + destruct (ProduceSwap _ _) as [q |]; [| done]. injection Hadv as <-.
      simpl. apply lookup_lt_Some in Hw. split_and!; [done | by subst; lia |].
      rewrite shutdownEvents_app, Hlog, replicate_snoc. simpl.
      by rewrite <- app_assoc.
    + injection Hadv as <-. simpl. apply lookup_ge_None in Hw.
      assert (i = length ws) as -> by (subst; lia).
      rewrite take_0. simpl. rewrite app_nil_r. split_and!; try done; lia.
  - (* a thread is joined, or all have been *)
    intros Hadv (Hws & Hi & Hlog & Hex). unfold stop_join in Hadv.
    destruct (workers_ s !! i) as [w |] eqn:Hw.
    + destruct (threads s !! w) as [[| | |] |] eqn:Hth; try done.
      injection Hadv as <-. simpl. rewrite Hws in Hw.
      pose proof (lookup_lt_Some _ _ _ Hw).
      rewrite (take_S_r _ _ _ Hw).
      split_and!; [done | lia | |].
      * rewrite shutdownEvents_app, Hlog, fmap_app. simpl.
        by rewrite <- !app_assoc.
      * apply Forall_app. split; [done |]. by apply Forall_singleton.
    + injection Hadv as <-. simpl. apply lookup_ge_None in Hw.
      rewrite Hws in Hw. rewrite take_ge in Hlog, Hex by lia. done.
  - (* the list is cleared *)
    intros [= <-] (Hws & Hlog & Hex). by destruct d.
Qed.

Lemma StopInv_run ws base (sched : list Label) (s s' : System) :
  forallb (λ l, negb (isCall l)) sched = true →
  run sched s = Some s' → StopInv ws base s → StopInv ws base s'.
Proof.
  revert s. induction sched as [| l sched IH]; intros s; simpl.
  - by intros _ [= <-].
  - intros [Hl Hsched]%andb_prop.
    destruct (step l s) as [s1 |] eqn:Hstep; [| done]. simpl.
    intros Hrun Hinv. apply (IH s1 Hsched Hrun).
    destruct l as [c | | cpuId]; [done | |]; simpl in Hstep.
    + by eapply StopInv_advance.
    + by eapply StopInv_worker.
Qed.

(** When a call of [stop] has returned: one poison batch for every worker
    of the list, then every worker joined, in the order of the list and
    after it had ended, and the list empty. *)
Lemma stop_safe (s s' : System) (c : Call) (sched : list Label)
    (ret : option nat) :
  caller s = Outside ret →
  isShutdown c →
  forallb (λ l, negb (isCall l)) sched = true →
  run (LCall c :: sched) s = Some s' →
  returned (caller s') = true →
  workers_ s' = [] ∧
  shutdownEvents (log s') =
    shutdownEvents (log s) ++
    replicate (length (workers_ s)) (EProduce Poison) ++
    (EJoin <$> workers_ s) ∧
  Forall (exited s') (workers_ s).
Proof.
  intros Hout Hc Hsched Hrun Hdone.
  assert (StopInv (workers_ s) (shutdownEvents (log s)) (enter c s)) as Hinit.
  { unfold StopInv. destruct Hc as [-> | ->]; simpl;
      (split_and!; [done | lia | by rewrite app_nil_r]). }
  simpl in Hrun. rewrite Hout in Hrun. simpl in Hrun.
  pose proof (StopInv_run _ _ _ _ _ Hsched Hrun Hinit) as Hinv.
  unfold StopInv in Hinv. by destruct (caller s').
Qed.

(** With an empty list [stop] does nothing. *)
Lemma stop_idle (s : System) (c : Call) (ret : option nat) :
  caller s = Outside ret → isShutdown c → workers_ s = [] →
  run [LCall c; LAdvance; LAdvance; LAdvance] s =
    Some (set_caller (if destroys c then Destroyed else Outside None) s).
Proof.
  intros Hout Hc Hnil. simpl. rewrite Hout. simpl.
  destruct Hc as [-> | ->]; simpl;
    unfold advance, stop_poison, stop_join; simpl; rewrite Hnil; simpl;
    rewrite Hnil; simpl; unfold stop_clear, set_workers, set_caller; simpl;
    rewrite <- Hnil; by destruct s.
Qed.

(** The thread list is the one the constructor made, or empty. *)
Lemma step_crew (l : Label) (s s' : System) :
  step l s = Some s' →
  length (threads s') = length (threads s) ∧
  (workers_ s' = workers_ s ∨ workers_ s' = []).
Proof.
  destruct l as [c | | cpuId]; simpl.
  - destruct (caller s); try done. intros [= <-].
    destruct c as [input | input | input line | t | t p | |]; simpl;
      rewrite ?cancel_eq, ?amend_eq;
      unfold translateWithCopy, translate, translatePart;
      simpl; repeat case_bool_decide; try (split; [done | by left]).
    + rewrite ?trackedRequest_emit.
      destruct (trackedRequest t s); split; try done; by left.
    + rewrite ?trackedRequest_emit.
      destruct (trackedRequest t s); [destruct (existsb _ _) |];
        split; try done; by left.
  - unfold advance. destruct (caller s) as [ret | t input line | t input line
        | t | t input line | t | i d | i d | d |]; try done.
    + intros [= <-]. unfold translatePart_accept. simpl.
      case_bool_decide; split; try done; by left.
    + intros [= <-]. rewrite prepareRequest_eq. split; [done | by left].
    + unfold produceTo. destruct (cleaveBatch _) as [[l b'] |].
      * destruct (ProduceSwap _ _); [| done]. intros [= <-].
        split; [done | by left].
      * intros [= <-]. split; [done | by left].
    + intros [= <-]. rewrite prepareRequest_eq. split; [done | by left].
    + unfold drain. destruct (cleaveBatch _) as [[l b'] |].
      * destruct (translators_ s !! 0); [| done]. intros [= <-].
        pose proof (foldl_processHistory_shell l
                      (emit (ETranslate 0 l) (set_batcher b' s))) as Hs.
        fold (translateBatch 0 l (set_batcher b' s)) in Hs. split.
        -- by apply (f_equal threads) in Hs; simpl in Hs; rewrite Hs.
        -- left. by apply (f_equal workers_) in Hs.
      * intros [= <-]. split; [done | by left].
    + unfold stop_poison. destruct (workers_ s !! i).
      * destruct (ProduceSwap _ _); [| done]. intros [= <-].
        split; [done | by left].
      * intros [= <-]. split; [done | by left].
    + unfold stop_join. destruct (workers_ s !! i) as [w |].
      * destruct (threads s !! w) as [[| | |] |]; try done. intros [= <-].
        split; [done | by left].
      * intros [= <-]. split; [done | by left].
    + intros [= <-]. split; [done | by right].
  - intros Hw.
    pose proof (worker_frame _ _ _ Hw) as (_ & Hws & _).
    split; [| by left].
    unfold worker in Hw.
    destruct (threads s !! cpuId) as [[| | [| u rest] |] |]; try done.
    + injection Hw as <-. simpl. by rewrite length_insert.
    + destruct (ConsumeSwap _) as [[[| l] q] |]; try done;
        injection Hw as <-; simpl; by rewrite length_insert.
    + injection Hw as <-. simpl. by rewrite length_insert.
    + injection Hw as <-.
      pose proof (processHistory_shell u
                  (set_threads (<[cpuId := Translating rest]> (threads s)) s))
        as Hshell.
      apply (f_equal threads) in Hshell. simpl in Hshell. rewrite Hshell.
      by rewrite length_insert.
Qed.

Lemma reachable_crew (options : Options) (s : System) :
  reachable options s →
  length (threads s) = cpu_threads options ∧
  (workers_ s = [] ∨ workers_ s = seq 0 (cpu_threads options)).
Proof.
  intros (s0 & sched & Hnew & Hrun).
  assert (length (threads s0) = cpu_threads options ∧
          (workers_ s0 = [] ∨ workers_ s0 = seq 0 (cpu_threads options)))
    as Hinit.
  { unfold newService in Hnew.
    destruct (loadVocabularies options) as [[vs hp] |]; [| done].
    injection Hnew as <-. simpl. rewrite length_replicate. by split; [| right]. }
  clear Hnew. revert s0 Hinit Hrun.
  induction sched as [| l sched IH]; intros s0 Hinit; simpl.
  - by intros [= <-].
  - destruct (step l s0) as [s1 |] eqn:Hstep; [| done]. simpl.
    apply IH. destruct (step_crew _ _ _ Hstep) as [Hlen Hws].
    destruct Hinit as [Hn Hw]. split; [congruence |].
    destruct Hws as [-> | ->]; [done | by left].
Qed.

End Shutdown.

(** ** A service without workers *)

Lemma with_counter_id (req : Request) : with_counter (counter req) req = req.
Proof. by destruct req. Qed.

Section Synchronous.
Context `{Environment}.

Lemma set_requests_id (s : System) : set_requests (requests s) s = s.
Proof. by destruct s. Qed.

(** Translating sentences that all belong to one request [r]: the counter
    of [r] goes down by their number, and [r] completes if that was all. *)
Lemma translate_own (r t : nat) (b : Z) (l : list RequestSentence) :
  ∀ (s : System) (req : Request),
    Forall (λ u, u.1 = r) l →
    requests s !! r = Some req →
    length l ≤ counter req →
    callbacks req = [CompletionCallback t b] →
    promise req = t →
    foldl (λ s u, processHistory u s) s l =
      if bool_decide (l ≠ [] ∧ length l = counter req)
      then callback (CompletionCallback t b)
             (set_value t (TranslatedResponse (source req))
                (set_requests (<[r := with_counter 0 req]> (requests s)) s))
      else set_requests
             (<[r := with_counter (counter req - length l) req]> (requests s)) s.
Proof.
  induction l as [| u l IH]; intros s req Hall Hreq Hlen Hcb Hp.
  - simpl.
    rewrite Nat.sub_0_r, with_counter_id, list_insert_id by done.
    by rewrite set_requests_id.
  - apply Forall_cons in Hall as [Hu Hall]. simpl in Hlen. simpl.
    unfold processHistory at 2. rewrite Hu, Hreq.
    destruct (counter req) as [| [| n]] eqn:Hc; [lia | |].
    + (* the last sentence *)
      assert (l = []) as -> by (apply length_zero_iff_nil; lia).
      rewrite bool_decide_eq_true_2 by done. simpl.
      unfold completeRequest. simpl.
      rewrite list_lookup_insert_eq by (by eapply lookup_lt_Some).
      simpl. by rewrite Hcb, Hp.
    + rewrite bool_decide_eq_false_2 by done.
      rewrite (IH _ (with_counter (S n) req)); simpl; [| done | | lia | done | done].
      * rewrite !list_insert_insert_eq.
        case_bool_decide as Hd1; case_bool_decide as Hd2; try done.
        -- destruct Hd2. split; [done | lia].
        -- destruct Hd1. destruct Hd2 as [_ Hd2]. split; [| lia].
           intros ->. simpl in *. lia.
      * apply list_lookup_insert_eq. by eapply lookup_lt_Some.
Qed.

Lemma returnsIn_now (s s' : System) :
  advance s = Some s' → returned (caller s) = false →
  returned (caller s') = true → returnsIn 1 s s'.
Proof.
  intros Hadv Hin Hout. split_and!.
  - simpl. by rewrite Hadv.
  - done.
  - intros j sj Hj. assert (j = 0) as -> by lia. simpl. by intros [= <-].
Qed.

Lemma returnsIn_step (k : nat) (s s1 s' : System) :
  advance s = Some s1 → returned (caller s) = false →
  returnsIn k s1 s' → returnsIn (S k) s s'.
Proof.
  intros Hadv Hin (Hrun & Hout & Hbefore). split_and!.
  - simpl. by rewrite Hadv.
  - done.
  - intros [| j] sj Hj; simpl.
    + by intros [= <-].
    + rewrite Hadv. simpl. apply Hbefore. lia.
Qed.

Context `{!BatcherLaws}.

(** The loop of lines 128-130 from a batcher that holds sentences of the
    request [r] only, as many as [r] still waits for: it ends, having
    translated every one of them, and [r] has completed if there was
    any. *)
Lemma drain_returns (r t : nat) (b : Z) (req0 : Request) (n : nat) :
  ∀ s : System,
    length (pending (batcher_ s)) = n →
    caller s = TranslatePart_drain t →
    translators_ s = [0] →
    Forall (λ u, u.1 = r) (pending (batcher_ s)) →
    requests s !! r = Some (with_counter n req0) →
    callbacks req0 = [CompletionCallback t b] →
    promise req0 = t →
    ∃ k s' batches,
      returnsIn k s s' ∧
      caller s' = Outside (Some t) ∧
      pending (batcher_ s') = [] ∧
      log s' = log s ++ (ETranslate 0 <$> batches) ∧
      Forall (λ l, l ≠ []) batches ∧
      concat batches ≡ₚ pending (batcher_ s) ∧
      engine s' = engine s ∧
      requests s' = <[r := with_counter 0 req0]> (requests s) ∧
      (if bool_decide (n = 0)
       then trackers s' = trackers s ∧ capacityBytes_ s' = capacityBytes_ s
       else trackers s' =
              alter (with_status SUCCESS) t
                (alter (with_future (TranslatedResponse (source req0))) t
                   (trackers s)) ∧
            capacityBytes_ s' = wrapCapacity (capacityBytes_ s + b)).
Proof.
  induction n as [n IH] using lt_wf_ind.
  intros s Hlen Hpc Htr Hall Hreq Hcb Hp.
  destruct (cleaveBatch (batcher_ s)) as [[l b'] |] eqn:Hcleave.
  - (* a batch is pulled and translated *)
    destruct (cleave_some _ _ _ Hcleave) as [Hne Hperm].
    assert (n = length l + length (pending b')) as Hsplit.
    { by rewrite <- Hlen, Hperm, length_app. }
    rewrite Hperm in Hall. apply Forall_app in Hall as [Hl Hb'].
    assert (0 < length l) as Hpos by (destruct l; [done | simpl; lia]).
    assert (advance s = Some (translateBatch 0 l (set_batcher b' s))) as Hadv.
    { unfold advance, drain. by rewrite Hpc, Hcleave, Htr. }
    pose proof (translate_own r t b l (emit (ETranslate 0 l) (set_batcher b' s))
                  (with_counter n req0) Hl Hreq ltac:(simpl; lia) Hcb Hp) as Hown.
    simpl in Hown.
    set (s1 := translateBatch 0 l (set_batcher b' s)) in *.
    assert (log s1 = log s ++ [ETranslate 0 l] ∧ batcher_ s1 = b' ∧
            caller s1 = caller s ∧ engine s1 = engine s ∧
            requests s1 =
              <[r := with_counter (length (pending b')) req0]> (requests s) ∧
            (if bool_decide (length (pending b') = 0)
             then trackers s1 =
                    alter (with_status SUCCESS) t
                      (alter (with_future (TranslatedResponse (source req0))) t
                         (trackers s)) ∧
                  capacityBytes_ s1 = wrapCapacity (capacityBytes_ s + b)
             else trackers s1 = trackers s ∧
                  capacityBytes_ s1 = capacityBytes_ s))
      as (Hlog1 & Hbat1 & Hpc1 & Heng1 & Hreq1 & Hres1).
    { subst s1. unfold translateBatch. rewrite Hown.
      destruct (bool_decide (l ≠ [] ∧ length l = n)) eqn:Hd.
      - apply bool_decide_eq_true_1 in Hd as [_ Hd].
        replace (length (pending b')) with 0 by lia. done.
      - apply bool_decide_eq_false_1 in Hd.
        rewrite bool_decide_eq_false_2 by (intros Hz; apply Hd; split; [done | lia]).
        replace (n - length l) with (length (pending b')) by lia. done. }
    clearbody s1.
    destruct (IH (length (pending b')) ltac:(lia) s1)
      as (k & s' & batches & Hret & Hout & Hpend & Hlog & Hnes & Hcat & Heng
          & Hreqs & Hres).
    { by rewrite Hbat1. }
    { by rewrite Hpc1. }
    { apply (f_equal (λ e, e.1.2)) in Heng1. simpl in Heng1. by rewrite Heng1. }
    { by rewrite Hbat1. }
    { rewrite Hreq1. apply list_lookup_insert_eq. by eapply lookup_lt_Some. }
    { done. }
    { done. }
    exists (S k), s', (l :: batches). split_and!.
    + eapply returnsIn_step; [exact Hadv | by rewrite Hpc | done].
    + done.
    + done.
    + rewrite Hlog, Hlog1. simpl. by rewrite <- app_assoc.
    + by apply Forall_cons.
    + simpl. by rewrite Hcat, Hbat1, Hperm.
    + by rewrite Heng.
    + rewrite Hreqs, Hreq1. by rewrite list_insert_insert_eq.
    + rewrite bool_decide_eq_false_2 by lia.
      destruct (bool_decide (length (pending b') = 0)).
      * destruct Hres as [-> ->]. done.
      * destruct Hres as [-> ->], Hres1 as [-> ->]. done.
  - (* no batch is left *)
    apply cleave_none in Hcleave as Hnil.
    assert (n = 0) as -> by (by rewrite <- Hlen, Hnil).
    assert (advance s = Some (set_caller (Outside (Some t)) s)) as Hadv.
    { unfold advance, drain. by rewrite Hpc, Hcleave. }
    exists 1, (set_caller (Outside (Some t)) s), []. split_and!; simpl; try done.
    + apply returnsIn_now; [done | by rewrite Hpc | done].
    + by rewrite app_nil_r.
    + by rewrite Hnil.
    + by rewrite list_insert_id.
Qed.

Lemma ZeroInv_worker (cpuId : nat) (s : System) :
  ZeroInv s → worker cpuId s = None.
Proof. intros (_ & Hth & _). unfold worker. by rewrite Hth. Qed.

Lemma ZeroInv_enter (c : Call) (s : System) ret :
  caller s = Outside ret → ZeroInv s → ZeroInv (enter c s).
Proof.
  unfold ZeroInv. intros Hpc (Hn & Hth & Hws & Htr & Hq & Hpend).
  rewrite Hpc in Hpend.
  destruct c as [input | input | input line | t | t p | |]; simpl;
    rewrite ?cancel_eq, ?amend_eq;
      unfold translateWithCopy, translate, translatePart; simpl.
  1-3: by case_bool_decide.
  - rewrite ?trackedRequest_emit.
    destruct (trackedRequest t s) as [r |]; simpl; [| done].
    by rewrite pending_cancel, Hpend.
  - rewrite ?trackedRequest_emit.
    destruct (trackedRequest t s) as [r |]; simpl; [| done].
    rewrite Hpend. simpl. done.
  - done.
  - done.
Qed.

Lemma ZeroInv_advance (s s' : System) :
  advance s = Some s' → ZeroInv s → ZeroInv s'.
Proof.
  unfold ZeroInv, advance. intros Hadv (Hn & Hth & Hws & Htr & Hq & Hpend).
  destruct (caller s) as [ret | t input line | t input line | t | t input line
                          | t | i d | i d | d |] eqn:Hpc; try done.
  - injection Hadv as <-. unfold translatePart_accept. simpl. rewrite Hn.
    by rewrite bool_decide_eq_false_2 by lia.
  - injection Hadv as <-. rewrite prepareRequest_eq. done.
  - unfold drain in Hadv. destruct (cleaveBatch (batcher_ s)) as [[l b'] |] eqn:Hc.
    + rewrite Htr in Hadv. injection Hadv as <-.
      destruct (translateBatch_engine 0 l (set_batcher b' s)) as (He & _ & Hc').
      rewrite Hc'. simpl. rewrite Hpc.
      injection He as ? ? ? ? ? ? ?. simpl in *. split_and!; congruence.
    + injection Hadv as <-. simpl. split_and!; try done. by apply cleave_none.
  - unfold stop_poison in Hadv. rewrite Hws in Hadv. by injection Hadv as <-.
  - unfold stop_join in Hadv. rewrite Hws in Hadv. by injection Hadv as <-.
  - injection Hadv as <-. by destruct d.
Qed.

Lemma ZeroInv_step (l : Label) (s s' : System) :
  step l s = Some s' → ZeroInv s → ZeroInv s'.
Proof.
  destruct l as [c | | cpuId]; simpl.
  - destruct (caller s) eqn:Hpc; try done. intros [= <-].
    by eapply ZeroInv_enter.
  - apply ZeroInv_advance.
  - intros Hw Hinv. by rewrite ZeroInv_worker in Hw.
Qed.

Lemma reachable_ZeroInv (options : Options) (s : System) :
  cpu_threads options = 0 → reachable options s → ZeroInv s.
Proof.
  intros Hzero (s0 & sched & Hnew & Hrun).
  assert (ZeroInv s0) as Hinit.
  { unfold newService in Hnew.
    destruct (loadVocabularies options) as [[vs hp] |]; [| done].
    injection Hnew as <-. rewrite Hzero. unfold ZeroInv. simpl.
    split_and!; try done. apply pending_new. }
  clear Hnew. revert s0 Hinit Hrun.
  induction sched as [| l sched IH]; intros s0 Hinit; simpl.
  - by intros [= <-].
  - destruct (step l s0) as [s1 |] eqn:Hstep; [| done]. simpl.
    apply IH. by eapply ZeroInv_step.
Qed.

(** Without workers nothing runs beside the call: however the steps are
    scheduled, the call returns in the same state. *)
Lemma returns_unique (sched : list Label) :
  ∀ (k : nat) (s s' s'' : System),
    ZeroInv s → returnsIn k s s' →
    forallb (λ l, negb (isCall l)) sched = true →
    run sched s = Some s'' →
    returned (caller s) = false → returned (caller s'') = true →
    s'' = s'.
Proof.
  induction sched as [| l sched IH];
    intros k s s' s'' Hinv (Hrun & Hout & Hbefore) Hsched; simpl.
  - intros [= <-] Hin Hret. congruence.
  - apply andb_prop in Hsched as [Hl Hsched].
    destruct l as [c | | cpuId]; simpl in Hl |- *;
      [done | | by rewrite ZeroInv_worker].
    destruct (advance s) as [s1 |] eqn:Hadv; [| done]. simpl.
    intros Hrun' Hin Hret.
    destruct k as [| k]; simpl in Hrun.
    { injection Hrun as <-. congruence. }
    rewrite Hadv in Hrun. simpl in Hrun.
    destruct (returned (caller s1)) eqn:Hs1.
    + (* the call has returned: nothing can follow *)
      destruct k as [| k].
      * injection Hrun as <-.
        destruct sched as [| l sched]; [by injection Hrun' as <- |].
        simpl in Hrun', Hsched. apply andb_prop in Hsched as [Hl' _].
        destruct l as [c | | cpuId]; [done | |]; simpl in Hrun'.
        -- unfold advance in Hrun'. by destruct (caller s1).
        -- by rewrite ZeroInv_worker in Hrun' by (by eapply ZeroInv_advance).
      * specialize (Hbefore 1 s1 ltac:(lia)). simpl in Hbefore.
        rewrite Hadv in Hbefore. specialize (Hbefore eq_refl). congruence.
    + eapply (IH k s1); try done.
      * by eapply ZeroInv_advance.
      * split_and!; [done | done |].
        intros j sj Hj Hrunj. apply (Hbefore (S j) sj); [lia |].
        simpl. by rewrite Hadv.
Qed.

(** X15.  In a service constructed without workers, a submission that
    fits the capacity is dealt with by the calling thread alone:
    [translate] prepares the request (text processing, construction,
    registration with the batcher), then pulls batches as long as the
    batcher has one and has translator 0 translate each, and only then
    returns.  The run ends; no task was launched and nothing was queued;
    the batcher is empty at the return; and if the input had a sentence,
    the tracker is SUCCESS, its future holds the response and the capacity
    is what it was before the call.  No other schedule leads to another
    state at the return. *)
Theorem translate_without_workers (options : Options) (s : System) (c : Call)
    (input : string) (ret : option nat) :
  Representable (capacity_bytes options) →
  cpu_threads options = 0 →
  reachable options s →
  caller s = Outside ret →
  c = CallTranslate input ∨ c = CallTranslateWithCopy input →
  (inputBytes input ≤ capacityBytes_ s)%Z →
  let t := length (trackers s) in
  let r := length (requests s) in
  ∃ k s' batches,
    run (LCall c :: replicate k LAdvance) s = Some s' ∧
    returnsIn k (enter c s) s' ∧
    caller s' = Outside (Some t) ∧
    log s' =
      log s ++ [EProcess input; ENewRequest (requestId_ s) 0 20;
                EAddWholeRequest r] ++ (ETranslate 0 <$> batches) ∧
    Forall (λ l, l ≠ []) batches ∧
    concat batches ≡ₚ (λ i, (r, i)) <$> seq 0 (length (process input).1) ∧
    cleaveBatch (batcher_ s') = None ∧
    pcqueue_ s' = pcqueue_ s ∧ threads s' = [] ∧
    ((process input).1 ≠ [] →
     trackers s' !! t =
       Some (mkTracker SUCCESS (Some (TranslatedResponse input)) (Some r)) ∧
     capacityBytes_ s' = capacityBytes_ s) ∧
    (∀ sched s'',
       forallb (λ l, negb (isCall l)) sched = true →
       run (LCall c :: sched) s = Some s'' →
       returned (caller s'') = true → s'' = s').
Proof.
  intros HC Hzero Hreach Hpc Hc Hfits t r.
  pose proof (reachable_ZeroInv _ _ Hzero Hreach) as Hinv.
  pose proof (CapacityInv_le _ _ (reachable_inv _ HC options s eq_refl Hreach))
    as Hcap.
  destruct HC as [HC0 Hwrap].
  destruct (Hwrap _ Hcap) as [_ Hsize].
  pose proof (inputBytes_nonneg input) as Hnn.
  destruct (Hwrap (capacityBytes_ s - inputBytes input)%Z) as [Hsub _]; [lia |].
  (* line 75: the submission is accepted *)
  set (s1 := set_caller (TranslatePart_accept t input 0)
               (set_trackers (trackers s ++ [mkTracker UNSET None None]) s)).
  assert (enter c s = s1) as Henter.
  { assert (enter c s = translatePart input 0 s) as ->
      by (by destruct Hc as [-> | ->]).
    unfold translatePart. simpl. rewrite Hsize.
    by rewrite bool_decide_eq_false_2 by lia. }
  pose proof (ZeroInv_enter c s ret Hpc Hinv) as Hinv1. rewrite Henter in Hinv1.
  destruct Hinv as (Hn & Hth & Hws & Htr & Hq & Hpend). rewrite Hpc in Hpend.
  (* line 83, then line 126 *)
  set (s2 := set_caller (TranslatePart_prepare t input 0)
               (set_capacityBytes (capacityBytes_ s - inputBytes input) s1)).
  assert (advance s1 = Some s2) as Hadv1.
  { unfold advance, translatePart_accept. simpl. rewrite Hn, Hsub.
    by rewrite bool_decide_eq_false_2 by lia. }
  set (s3 := set_caller (TranslatePart_drain t) (prepareRequest t input 0 s2)).
  assert (advance s2 = Some s3) as Hadv2 by done.
  (* lines 127-130 *)
  set (req0 := mkRequest (requestId_ s) 0 20 input (process input).1
                 (process input).2 t (length (process input).1)
                 [CompletionCallback t (inputBytes input)]).
  assert (pending (batcher_ s3) ≡ₚ sentencesOf r req0) as Hpend3.
  { subst s3. rewrite prepareRequest_eq. simpl.
    by rewrite pending_add, Hpend. }
  destruct (drain_returns r t (inputBytes input) req0
              (length (process input).1) s3)
    as (k & s' & batches & Hret & Hout & Hnil & Hlog & Hnes & Hcat & Heng
        & Hreqs & Hres).
  { rewrite Hpend3. unfold sentencesOf. by rewrite length_fmap, length_seq. }
  { done. }
  { subst s3. by rewrite prepareRequest_eq. }
  { rewrite Hpend3. unfold sentencesOf. apply Forall_fmap, Forall_forall.
    by intros i _. }
  { subst s3. rewrite prepareRequest_eq. simpl. apply lookup_snoc. }
  { done. }
  { done. }
  assert (returnsIn (S (S k)) s1 s') as Hret1.
  { eapply returnsIn_step; [exact Hadv1 | done |].
    eapply returnsIn_step; [exact Hadv2 | done | exact Hret]. }
  exists (S (S k)), s', batches. split_and!.
  - simpl. rewrite Hpc. simpl. rewrite Henter. apply Hret1.
  - by rewrite Henter.
  - done.
  - rewrite Hlog. subst s3. rewrite prepareRequest_eq. simpl.
    by rewrite <- app_assoc.
  - done.
  - by rewrite Hcat, Hpend3.
  - by apply cleave_none.
  - apply (f_equal (λ e, e.1.1.1.2)) in Heng. simpl in Heng.
    rewrite Heng. subst s3. by rewrite prepareRequest_eq.
  - apply (f_equal (λ e, e.2)) in Heng. simpl in Heng.
    rewrite Heng. subst s3. by rewrite prepareRequest_eq.
  - intros Hsegs.
    rewrite bool_decide_eq_false_2 in Hres
      by (by intros ?%length_zero_iff_nil).
    destruct Hres as [Htrk Hcapacity]. split.
    + rewrite Htrk. subst s3. rewrite prepareRequest_eq. simpl.
      subst t. rewrite !alter_snoc. simpl. by rewrite lookup_snoc.
    + rewrite Hcapacity. subst s3. rewrite prepareRequest_eq. simpl.
      replace (capacityBytes_ s - inputBytes input + inputBytes input)%Z
        with (capacityBytes_ s) by lia.
      by destruct (Hwrap _ Hcap).
  - intros sched s'' Hsched Hrun Hdone. simpl in Hrun.
    rewrite Hpc in Hrun. simpl in Hrun. rewrite Henter in Hrun.
    by eapply (returns_unique sched _ s1).
Qed.

End Synchronous.

(** ** That a shutdown ends *)

Lemma sum_list_with_insert {A} (f : A → nat) (l : list A) i x y :
  l !! i = Some x →
  sum_list_with f (<[i := y]> l) + f x = sum_list_with f l + f y.
Proof.
  revert i. induction l as [| z l IH]; intros [| i] Hi; simplify_eq/=.
  - lia.
  - specialize (IH i Hi). lia.
Qed.

Lemma sum_list_with_lookup {A} (f : A → nat) (l : list A) i x :
  l !! i = Some x → f x ≤ sum_list_with f l.
Proof.
  revert i. induction l as [| z l IH]; intros [| i] Hi; simplify_eq/=.
  - lia.
  - specialize (IH i Hi). lia.
Qed.

Lemma sum_list_with_flags {A} (f : A → bool) (l : list A) :
  sum_list_with (λ x, if f x then 1 else 0) l < length l →
  ∃ i x, l !! i = Some x ∧ f x = false.
Proof.
  induction l as [| z l IH]; simpl; [lia |].
  destruct (f z) eqn:Hz.
  - intros Hlt. destruct IH as (i & x & Hi & Hx); [lia |]. by exists (S i), x.
  - intros _. by exists 0, z.
Qed.

Lemma sum_list_with_flags_le {A} (f : A → bool) (l : list A) :
  sum_list_with (λ x, if f x then 1 else 0) l ≤ length l.
Proof. induction l as [| z l IH]; simpl; [done |]. destruct (f z); lia. Qed.

Lemma sum_list_with_flag_false {A} (f : A → bool) (l : list A) i x :
  l !! i = Some x → f x = false →
  sum_list_with (λ x, if f x then 1 else 0) l < length l.
Proof.
  revert i. induction l as [| z l IH]; intros [| i] Hi Hx; simplify_eq/=.
  - rewrite Hx. pose proof (sum_list_with_flags_le f l). lia.
  - specialize (IH i Hi Hx). destruct (f z); lia.
Qed.

Section Liveness.
Context `{Environment}.

Lemma canReturn_step (l : Label) (s s1 : System) :
  step l s = Some s1 → isCall l = false → canReturn s1 → canReturn s.
Proof.
  intros Hstep Hl (sched & s' & Hsched & Hrun & Hret).
  exists (l :: sched), s'. simpl. rewrite Hl, Hstep. by split_and!.
Qed.

(** A worker step uses up work and keeps the poison accounted for. *)
Lemma worker_progress (cpuId : nat) (s s' : System) :
  worker cpuId s = Some s' →
  work s' < work s ∧
  poisonsQueued s' + exitedCount s' = poisonsQueued s + exitedCount s ∧
  caller s' = caller s ∧ workers_ s' = workers_ s ∧
  length (threads s') = length (threads s) ∧
  bound (pcqueue_ s') = bound (pcqueue_ s).
Proof.
  unfold worker, work, poisonsQueued, exitedCount.
  destruct (threads s !! cpuId) as [st |] eqn:Hth; [| done].
  pose proof (sum_list_with_insert threadWork _ _ _ Consuming Hth) as HwC.
  pose proof (sum_list_with_insert threadWork _ _ _ Exited Hth) as HwE.
  pose proof (sum_list_with_insert (λ st, if isExited st then 1 else 0)
                _ _ _ Consuming Hth) as HeC.
  pose proof (sum_list_with_insert (λ st, if isExited st then 1 else 0)
                _ _ _ Exited Hth) as HeE.
  destruct st as [| | [| u rest] |]; try done.
  - intros [= <-]. simpl in *. rewrite length_insert. split_and!; try done; lia.
  - unfold ConsumeSwap. destruct (items (pcqueue_ s)) as [| [| l] q] eqn:Hq;
      try done; intros [= <-]; simpl in *; rewrite length_insert.
    + split_and!; try done; lia.
    + pose proof (sum_list_with_insert threadWork _ _ _ (Translating l) Hth).
      pose proof (sum_list_with_insert (λ st, if isExited st then 1 else 0)
                    _ _ _ (Translating l) Hth).
      simpl in *. split_and!; try done; lia.
  - intros [= <-]. simpl in *. rewrite length_insert. split_and!; try done; lia.
  - intros [= <-].
    pose proof (sum_list_with_insert threadWork _ _ _ (Translating rest) Hth).
    pose proof (sum_list_with_insert (λ st, if isExited st then 1 else 0)
                  _ _ _ (Translating rest) Hth).
    set (s0 := set_threads _ s).
    pose proof (processHistory_shell u s0) as Hshell.
    assert (threads (processHistory u s0) = threads s0) as ->
      by (by apply (f_equal threads) in Hshell).
    assert (pcqueue_ (processHistory u s0) = pcqueue_ s0) as ->
      by (by apply (f_equal pcqueue_) in Hshell).
    assert (caller (processHistory u s0) = caller s0) as ->
      by (by apply (f_equal caller) in Hshell).
    assert (workers_ (processHistory u s0) = workers_ s0) as ->
      by (by apply (f_equal workers_) in Hshell).
    subst s0. simpl in *. rewrite length_insert. split_and!; try done; lia.
Qed.

(** A worker that has not ended can take a step, unless it waits at an
    empty queue. *)
Lemma worker_enabled (cpuId : nat) (s : System) (st : WorkerState) :
  threads s !! cpuId = Some st → isExited st = false →
  items (pcqueue_ s) ≠ [] ∨ st ≠ Consuming →
  ∃ s', worker cpuId s = Some s'.
Proof.
  intros Hth Hst Hq. unfold worker. rewrite Hth.
  destruct st as [| | [| u rest] |]; try done; try by eexists.
  unfold ConsumeSwap. destruct (items (pcqueue_ s)) as [| [| l] q].
  - by destruct Hq.
  - by eexists.
  - by eexists.
Qed.

Lemma StopLive_worker n i cpuId (s s' : System) :
  worker cpuId s = Some s' → StopLive n i s → StopLive n i s'.
Proof.
  intros Hw (Hws & Hlen & Hb & Hcount & Hi).
  destruct (worker_progress _ _ _ Hw) as (_ & Hc & _ & Hws' & Hlen' & Hb').
  unfold StopLive. rewrite Hc, Hws', Hlen', Hb'. done.
Qed.

Lemma clear_returns (s : System) d :
  caller s = Stop_clear d → canReturn s.
Proof.
  intros Hpc. exists [LAdvance], (stop_clear d s). simpl.
  unfold advance. rewrite Hpc. split_and!; try done. by destruct d.
Qed.

(** The second loop of [stop] ends. *)
Lemma join_returns (n m : nat) :
  ∀ (s : System) j d,
    caller s = Stop_join j d → StopLive n n s →
    (n - j) + work s = m → canReturn s.
Proof.
  induction m as [m IH] using lt_wf_ind.
  intros s j d Hpc Hlive Hm.
  pose proof Hlive as (Hws & Hlen & Hb & Hcount & _).
  destruct (workers_ s !! j) as [w |] eqn:Hw.
  - rewrite Hws in Hw. apply lookup_seq in Hw as [-> Hj]. simpl in *.
    destruct (lookup_lt_is_Some_2 (threads s) j ltac:(lia)) as [st Hst].
    destruct (isExited st) eqn:Hex.
    + (* the thread has ended: it is joined *)
      destruct st; try done.
      eapply (canReturn_step LAdvance s); [| done |].
      * simpl. unfold advance, stop_join. rewrite Hpc, Hws.
        rewrite lookup_seq_lt by lia. simpl. by rewrite Hst.
      * eapply (IH (n - S j + work s)); [lia | done | done | done].
    + (* the thread has not ended: it takes a step *)
      destruct (worker_enabled j s st Hst Hex) as [s1 Hs1].
      { pose proof (sum_list_with_flag_false isExited _ _ _ Hst Hex).
        unfold poisonsQueued, exitedCount in Hcount.
        left. intros Hnil. rewrite Hnil in Hcount. simpl in Hcount. lia. }
      destruct (worker_progress _ _ _ Hs1) as (Hless & _ & Hpc1 & _).
      eapply (canReturn_step (LWorker j) s); [exact Hs1 | done |].
      eapply (IH (n - j + work s1)); [lia | | | done].
      * by rewrite Hpc1.
      * by eapply StopLive_worker.
  - (* all threads are joined *)
    eapply (canReturn_step LAdvance s); [| done |].
    + simpl. unfold advance, stop_join. by rewrite Hpc, Hw.
    + by eapply clear_returns.
Qed.

(** The first loop of [stop] ends, and the rest with it. *)
Lemma poison_returns (n m : nat) :
  ∀ (s : System) i d,
    caller s = Stop_poison i d → StopLive n i s →
    3 * (n - i) + work s = m → canReturn s.
Proof.
  induction m as [m IH] using lt_wf_ind.
  intros s i d Hpc Hlive Hm.
  pose proof Hlive as (Hws & Hlen & Hb & Hcount & Hi).
  destruct (workers_ s !! i) as [w |] eqn:Hw.
  - rewrite Hws in Hw. apply lookup_seq in Hw as [-> Hlt]. simpl in *.
    destruct (decide (length (items (pcqueue_ s)) < bound (pcqueue_ s)))
      as [Hroom | Hfull].
    + (* a free slot: the poison is pushed *)
      eapply (canReturn_step LAdvance s); [| done |].
      * simpl. unfold advance, stop_poison, ProduceSwap. rewrite Hpc, Hws.
        rewrite lookup_seq_lt by lia. simpl.
        by rewrite bool_decide_eq_true_2 by done.
      * eapply (IH (3 * (n - S i) + (work s + 2))); [lia | done | |].
        -- unfold StopLive, poisonsQueued, exitedCount in *. simpl.
           rewrite sum_list_with_app. simpl. split_and!; try done; lia.
        -- unfold work. simpl. rewrite sum_list_with_app. simpl. lia.
    + (* the queue is full: a worker takes a step *)
      assert (exitedCount s < length (threads s)) as Halive by lia.
      apply sum_list_with_flags in Halive as (w & st & Hst & Hex).
      destruct (worker_enabled w s st Hst Hex) as [s1 Hs1].
      { left. intros Hnil. rewrite Hnil in Hfull. simpl in Hfull. lia. }
      destruct (worker_progress _ _ _ Hs1) as (Hless & _ & Hpc1 & _).
      eapply (canReturn_step (LWorker w) s); [exact Hs1 | done |].
      eapply (IH (3 * (n - i) + work s1)); [lia | | | done].
      * by rewrite Hpc1.
      * by eapply StopLive_worker.
  - (* every worker has its poison *)
    apply lookup_ge_None in Hw. rewrite Hws, length_seq in Hw.
    assert (i = n) as -> by lia.
    eapply (canReturn_step LAdvance s); [| done |].
    + simpl. unfold advance, stop_poison. rewrite Hpc, Hws.
      by rewrite lookup_ge_None_2 by (rewrite length_seq; lia).
    + by eapply (join_returns n _ _ 0 d).
Qed.

Lemma Serving_crew (s s' : System) :
  workers_ s' = workers_ s → threads s' = threads s →
  pcqueue_ s' = pcqueue_ s → inStop (caller s) = false →
  LiveInv s → workers_ s' = [] ∨ Serving s'.
Proof.
  intros Hws Hth Hq Hpc [Hnil | [Hstop | Hserving]].
  - left. by rewrite Hws.
  - congruence.
  - right. unfold Serving, poisonsQueued, exitedCount in *.
    by rewrite Hws, Hth, Hq.
Qed.

Lemma LiveInv_step (l : Label) (s s' : System) :
  step l s = Some s' → LiveInv s → LiveInv s'.
Proof.
  intros Hstep Hinv.
  destruct (inStop (caller s')) eqn:Hstop'; [by right; left |].
  assert (workers_ s' = [] ∨ Serving s') as [Hnil | Hserving];
    [| by left | by right; right].
  destruct l as [c | | cpuId]; simpl in Hstep.
  - destruct (caller s) eqn:Hpc; try done. injection Hstep as <-.
    assert (inStop (caller s) = false) as Hout by (by rewrite Hpc).
    destruct c as [input | input | input line | t | t p | |];
      [| | | | | by simpl in Hstop' | by simpl in Hstop'].
    1-3: eapply (Serving_crew s); [.. | exact Hout | exact Hinv]; simpl;
      unfold translateWithCopy, translate, translatePart; simpl;
      by case_bool_decide.
    + eapply (Serving_crew s); [.. | exact Hout | exact Hinv]; simpl;
        rewrite ?cancel_eq; simpl; rewrite ?trackedRequest_emit;
        by destruct (trackedRequest t s).
    + eapply (Serving_crew s); [.. | exact Hout | exact Hinv]; simpl;
        rewrite ?amend_eq; simpl; rewrite ?trackedRequest_emit;
        (destruct (trackedRequest t s); [| done]);
        by destruct (existsb _ _).
  - unfold advance in Hstep.
    destruct (caller s) as [ret | t input line | t input line | t
                            | t input line | t | i d | i d | d |] eqn:Hpc;
      try done.
    + injection Hstep as <-.
      eapply Serving_crew; [.. | exact Hinv]; try (by rewrite Hpc);
        unfold translatePart_accept; simpl; by case_bool_decide.
    + injection Hstep as <-.
      eapply Serving_crew; [.. | exact Hinv]; try (by rewrite Hpc);
        by rewrite prepareRequest_eq.
    + unfold produceTo in Hstep.
      destruct (cleaveBatch (batcher_ s)) as [[l b'] |].
      * unfold ProduceSwap in Hstep. case_bool_decide; [| done].
        injection Hstep as <-.
        destruct Hinv as [Hnil | [Hstop | Hserving]].
        -- by left.
        -- by rewrite Hpc in Hstop.
        -- right. unfold Serving, poisonsQueued, exitedCount in *. simpl.
           rewrite sum_list_with_app. simpl. split_and!; try tauto; lia.
      * injection Hstep as <-.
        eapply Serving_crew; [.. | exact Hinv]; try (by rewrite Hpc); done.
    + injection Hstep as <-.
      eapply Serving_crew; [.. | exact Hinv]; try (by rewrite Hpc);
        by rewrite prepareRequest_eq.
    + unfold drain in Hstep.
      destruct (cleaveBatch (batcher_ s)) as [[l b'] |].
      * destruct (translators_ s !! 0); [| done]. injection Hstep as <-.
        destruct (translateBatch_engine 0 l (set_batcher b' s)) as (He & _).
        injection He as ? ? ? ? ? ? ?. simpl in *.
        eapply Serving_crew; [.. | exact Hinv]; try (by rewrite Hpc); done.
      * injection Hstep as <-.
        eapply Serving_crew; [.. | exact Hinv]; try (by rewrite Hpc); done.
    + unfold stop_poison in Hstep. destruct (workers_ s !! i).
      * destruct (ProduceSwap _ _); [| done]. by injection Hstep as <-.
      * by injection Hstep as <-.
    + unfold stop_join in Hstep. destruct (workers_ s !! i) as [w |].
      * destruct (threads s !! w) as [[| | |] |]; try done.
        by injection Hstep as <-.
      * by injection Hstep as <-.
    + injection Hstep as <-. by left.
  - destruct (worker_progress _ _ _ Hstep) as (_ & Hc & Hpc & Hws & Hlen & Hb).
    destruct Hinv as [Hnil | [Hstop | Hserving]].
    + left. by rewrite Hws.
    + rewrite Hpc in Hstop'. congruence.
    + right. unfold Serving in *. rewrite Hws, Hlen, Hb.
      split_and!; try tauto; lia.
Qed.

Lemma exitedCount_replicate (n : nat) :
  sum_list_with (λ st, if isExited st then 1 else 0) (replicate n Initializing)
  = 0.
Proof. induction n as [| n IH]; simpl; [done | by rewrite IH]. Qed.

Lemma reachable_LiveInv (options : Options) (s : System) :
  reachable options s → LiveInv s.
Proof.
  intros (s0 & sched & Hnew & Hrun).
  assert (LiveInv s0) as Hinit.
  { unfold newService in Hnew.
    destruct (loadVocabularies options) as [[vs hp] |]; [| done].
    injection Hnew as <-. right. right.
    unfold Serving, poisonsQueued, exitedCount. simpl.
    rewrite length_replicate, exitedCount_replicate. done. }
  clear Hnew. revert s0 Hinit Hrun.
  induction sched as [| l sched IH]; intros s0 Hinit; simpl.
  - by intros [= <-].
  - destruct (step l s0) as [s1 |] eqn:Hstep; [| done]. simpl.
    apply IH. by eapply LiveInv_step.
Qed.

(** A call of [stop] can return: the workers need only be given their
    turns. *)
Lemma stop_can_return (s : System) (c : Call) ret :
  LiveInv s → caller s = Outside ret → isShutdown c → canReturn (enter c s).
Proof.
  intros Hinv Hpc Hc.
  assert (∃ d, enter c s = set_caller (Stop_poison 0 d) s) as [d ->].
  { destruct Hc as [-> | ->]; by eexists. }
  destruct Hinv as [Hnil | [Hstop | (Hws & Hb & Hp & He)]].
  - exists [LAdvance; LAdvance; LAdvance],
      (stop_clear d (set_caller (Stop_clear d) s)).
    simpl. unfold advance, stop_poison, stop_join. simpl. rewrite Hnil. simpl.
    rewrite Hnil. simpl. split_and!; try done. by destruct d.
  - by rewrite Hpc in Hstop.
  - destruct (threads s) as [| st ths] eqn:Hths.
    + exists [LAdvance; LAdvance; LAdvance],
        (stop_clear d (set_caller (Stop_clear d) s)).
      simpl in Hws. simpl. unfold advance, stop_poison, stop_join. simpl.
      rewrite Hws. simpl. rewrite Hws. simpl. split_and!; try done.
      by destruct d.
    + eapply (poison_returns (length (threads s)) _ _ 0 d); [done | | done].
      unfold StopLive, poisonsQueued, exitedCount in *. simpl.
      rewrite Hths in *. simpl in *. split_and!; try done; lia.
Qed.

End Liveness.

Section ShutdownTheorem.
Context `{Environment}.

(** C6.  In every state of a service in which the client is outside, a
    call of [stop], or the destructor (which is [stop]), can return; and
    whenever it has returned, whatever the worker threads did meanwhile, it
    has pushed one poison batch for every worker of the list, has then
    joined every one of them, in the order of the list and each after it
    had ended, and has left the list empty.  With an empty list, after an
    earlier [stop] or in a service constructed without workers, the call
    pushes nothing, joins nothing and leaves the state as it is. *)
Theorem stop_poisons_joins_clears (options : Options) (s : System) (c : Call)
    (ret : option nat) :
  reachable options s →
  caller s = Outside ret →
  isShutdown c →
  (∃ sched s',
     forallb (λ l, negb (isCall l)) sched = true ∧
     run (LCall c :: sched) s = Some s' ∧ returned (caller s') = true) ∧
  (∀ sched s',
     forallb (λ l, negb (isCall l)) sched = true →
     run (LCall c :: sched) s = Some s' → returned (caller s') = true →
     workers_ s' = [] ∧
     shutdownEvents (log s') =
       shutdownEvents (log s) ++
       replicate (length (workers_ s)) (EProduce Poison) ++
       (EJoin <$> workers_ s) ∧
     Forall (exited s') (workers_ s)) ∧
  (workers_ s = [] →
   run [LCall c; LAdvance; LAdvance; LAdvance] s =
     Some (set_caller (if destroys c then Destroyed else Outside None) s)) ∧
  (cpu_threads options = 0 → workers_ s = []) ∧
  destructor s = set_caller (Stop_poison 0 true) (stop s).
Proof.
  intros Hreach Hout Hc. split_and!.
  - destruct (stop_can_return s c ret (reachable_LiveInv _ _ Hreach) Hout Hc)
      as (sched & s' & Hsched & Hrun & Hret).
    exists sched, s'. split_and!; [done | | done].
    simpl. by rewrite Hout.
  - intros sched s' Hsched Hrun Hret. by eapply stop_safe.
  - by apply (stop_idle s c ret).
  - intros Hzero. destruct (reachable_crew _ _ Hreach) as [_ [Hws | Hws]];
      [done |]. by rewrite Hzero in Hws.
  - done.
Qed.

End ShutdownTheorem.

(** ** A service with workers *)

Section Background.
Context `{Environment}.

(** What a worker step leaves alone, besides [worker_frame]. *)
Lemma worker_frame_task (cpuId : nat) (s s' : System) :
  worker cpuId s = Some s' →
  batcher_ s' = batcher_ s ∧ numWorkers_ s' = numWorkers_ s ∧
  length (requests s') = length (requests s) ∧
  ∃ evs, log s' = log s ++ evs.
Proof.
  unfold worker.
  destruct (threads s !! cpuId) as [[| | [| u rest] |] |]; try done.
  - intros [= <-]. split_and!; try done. exists []. by rewrite app_nil_r.
  - destruct (ConsumeSwap _) as [[[| l] q] |]; try done; intros [= <-];
      simpl; (split_and!; try done).
    + exists []. by rewrite app_nil_r.
    + by eexists.
  - intros [= <-]. split_and!; try done. exists []. by rewrite app_nil_r.
  - intros [= <-].
    set (s0 := set_threads _ s).
    pose proof (processHistory_shell u s0) as Hshell.
    pose proof (processHistory_idView u s0) as Hview.
    split_and!.
    + by apply (f_equal batcher_) in Hshell.
    + by apply (f_equal numWorkers_) in Hshell.
    + injection Hview as _ Hids _. apply (f_equal length) in Hids.
      by rewrite !length_fmap in Hids.
    + exists []. rewrite app_nil_r. by apply (f_equal log) in Hshell.
Qed.

Lemma TaskInv_worker input r base cpuId (s s' : System) :
  worker cpuId s = Some s' → TaskInv input r base s → TaskInv input r base s'.
Proof.
  intros Hw (evs & Hlog & Hpc).
  destruct (worker_frame _ _ _ Hw) as (Hcaller & _ & _).
  destruct (worker_frame_task _ _ _ Hw) as (Hb & Hn & Hlen & evs' & Hlog').
  exists (evs ++ evs'). split; [by rewrite Hlog', Hlog, app_assoc |].
  rewrite Hcaller, Hb, Hn, Hlen.
  destruct (caller s); try done; rewrite ?elem_of_app; intuition auto.
Qed.

Lemma TaskInv_advance input r base (s s' : System) :
  advance s = Some s' → TaskInv input r base s → TaskInv input r base s'.
Proof.
  unfold advance, TaskInv. intros Hadv (evs & Hlog & Hpc).
  destruct (caller s) as [ret | t i l | t i l | t | | | | | |] eqn:Hcaller;
    try done.
  - (* line 83 and the launch of the task *)
    destruct Hpc as (-> & Hn & Hlen). injection Hadv as <-.
    unfold translatePart_accept. simpl.
    rewrite bool_decide_eq_true_2 by done. simpl.
    exists (evs ++ [EAsync QueueInBackground]). split; [by rewrite Hlog, app_assoc | done].
  - (* the task prepares the request *)
    destruct Hpc as (-> & Hlen). injection Hadv as <-.
    rewrite prepareRequest_eq. simpl. rewrite Hlen.
    eexists. split; [by rewrite Hlog, <- app_assoc |].
    rewrite !elem_of_app, !elem_of_cons. by split; right; eauto.
  - (* the task pushes a batch, or ends *)
    destruct Hpc as (Hp & Ha). unfold produceTo in Hadv.
    destruct (cleaveBatch (batcher_ s)) as [[l b'] |] eqn:Hc.
    + destruct (ProduceSwap _ _) as [q |]; [| done]. injection Hadv as <-.
      simpl. rewrite Hcaller.
      eexists. split; [by rewrite Hlog, <- app_assoc |].
      rewrite !elem_of_app. by split; left.
    + injection Hadv as <-. simpl. by exists evs.
Qed.

(** When [translate] has returned in a service with workers, the task of
    lines 118-121 has run to its end: the text was processed, the request
    handed to the batcher, and the batcher emptied into the queue. *)
Lemma translate_returns_after_its_task (s s' : System) (c : Call)
    (input : string) (ret : option nat) (sched : list Label) :
  caller s = Outside ret →
  0 < numWorkers_ s →
  c = CallTranslate input ∨ c = CallTranslateWithCopy input →
  asSize (capacityBytes_ s) = capacityBytes_ s →
  (inputBytes input ≤ capacityBytes_ s)%Z →
  forallb (λ l, negb (isCall l)) sched = true →
  run (LCall c :: sched) s = Some s' →
  returned (caller s') = true →
  ∃ evs, log s' = log s ++ evs ∧
    EProcess input ∈ evs ∧ EAddWholeRequest (length (requests s)) ∈ evs ∧
    cleaveBatch (batcher_ s') = None.
Proof.
  intros Hpc Hn Hc Hsize Hfits Hsched Hrun Hret.
  simpl in Hrun. rewrite Hpc in Hrun. simpl in Hrun.
  assert (TaskInv input (length (requests s)) (log s) (enter c s)) as Hinit.
  { assert (enter c s = translatePart input 0 s) as ->
      by (by destruct Hc as [-> | ->]).
    unfold translatePart. simpl. rewrite Hsize.
    rewrite bool_decide_eq_false_2 by lia.
    exists []. by rewrite app_nil_r. }
  assert (TaskInv input (length (requests s)) (log s) s') as (evs & Hlog & Hend).
  { revert Hsched Hrun Hinit. generalize (enter c s). clear.
    induction sched as [| l sched IH]; intros s0; simpl.
    - by intros _ [= <-].
    - intros [Hl Hsched]%andb_prop.
      destruct (step l s0) as [s1 |] eqn:Hstep; [| done]. simpl.
      intros Hrun Hinv. apply (IH s1 Hsched Hrun).
      destruct l as [c | | cpuId]; [done | |]; simpl in Hstep.
      + by eapply TaskInv_advance.
      + by eapply TaskInv_worker. }
  exists evs. split; [done |].
  by destruct (caller s').
Qed.

End Background.

(** ** Several client threads *)

Section ThreadsTheorems.
Context `{Environment}.

Lemma set_caller_caller (s : System) : set_caller (caller s) s = s.
Proof. by destruct s. Qed.

(** [prepareRequest] is the two steps, one after the other. *)
Lemma prepareRequest_nextId (t : nat) (input : string) (line : Z) (s : System) :
  prepareRequest t input line s =
    constructRequest (nextId input s).1 t input line (nextId input s).2.
Proof.
  unfold prepareRequest, constructRequest, nextId.
  by destruct (process input) as [segs ranges].
Qed.

(** With one client thread, the threads do what [step] does. *)
Lemma one_client_turns (l : Label) (s s' : System) :
  step l s = Some s' →
  ∃ sched,
    turns sched (mkClients s [At (caller s)]) =
      Some (mkClients s' [At (caller s')]).
Proof.
  destruct l as [c | | cpuId]; intros Hstep.
  - exists [TCall 0 c].
    cbn -[step set_caller]. rewrite set_caller_caller, Hstep. reflexivity.
  - destruct (preparing (caller s)) as [[[[t input] line] next] |] eqn:Hprep.
    + assert (s' = set_caller next (prepareRequest t input line s)) as ->.
      { simpl in Hstep. unfold advance in Hstep.
        destruct (caller s); try done; injection Hprep as <- <- <- <-;
          by injection Hstep as <-. }
      destruct (nextId input s) as [id s1] eqn:Hid.
      assert (set_caller (caller s) s1 = s1) as Hs1.
      { unfold nextId in Hid. injection Hid as _ <-. by destruct s. }
      exists [TAdvance 0; TAdvance 0].
      cbn -[step set_caller nextId constructRequest].
      rewrite Hprep, Hid.
      cbn -[step set_caller nextId constructRequest]. rewrite Hprep.
      cbn -[step set_caller nextId constructRequest].
      rewrite Hs1, prepareRequest_nextId, Hid. reflexivity.
    + exists [TAdvance 0].
      cbn -[step set_caller]. rewrite Hprep, set_caller_caller, Hstep.
      reflexivity.
  - exists [TWorker cpuId].
    cbn -[step set_caller]. rewrite Hstep. simpl in Hstep.
    destruct (worker_frame _ _ _ Hstep) as (-> & _ & _). reflexivity.
Qed.

End ThreadsTheorems.

(** ** Calls that are kept apart *)

Section ApartTheorems.
Context `{Environment}.

Lemma constructRequest_eq (id : Z) (t : nat) (input : string) (line : Z)
    (s : System) :
  let r := length (requests s) in
  let req := mkRequest id line 20 input (process input).1
               (process input).2 t (length (process input).1)
               [CompletionCallback t (inputBytes input)] in
  constructRequest id t input line s =
  mkSystem (requestId_ s) (numWorkers_ s) (vocabs_ s)
    (addWholeRequest r req (batcher_ s)) (capacityBytes_ s) (pcqueue_ s)
    (workers_ s) (translators_ s)
    (alter (with_status QUEUED) t (alter (with_tracked r) t (trackers s)))
    (requests s ++ [req]) (threads s)
    (log s ++ [ENewRequest id line 20; EAddWholeRequest r])
    (caller s).
Proof.
  unfold constructRequest. destruct (process input) as [segs ranges]. simpl.
  rewrite alter_snoc, lookup_snoc. simpl.
  unfold setStatus, track, set_trackers, set_batcher, emit, with_callback.
  simpl. rewrite <- !app_assoc, ?alter_snoc. reflexivity.
Qed.

Lemma preparing_inCall (pc : Pc) x : preparing pc = Some x → inCall (At pc) = true.
Proof. by destruct pc. Qed.

Lemma step_call_outside (call : Call) (s s' : System) :
  step (LCall call) s = Some s' → ∃ ret, caller s = Outside ret.
Proof. simpl. destruct (caller s); try done. by eexists. Qed.

Lemma step_advance_inCall (s s' : System) :
  step LAdvance s = Some s' → inCall (At (caller s)) = true.
Proof. simpl. unfold advance. by destruct (caller s). Qed.

(** The thread that moves is the one in a call, if any is. *)
Lemma OneCall_others (c : Clients) (i : nat) (f : Frame) :
  OneCall c → frames c !! i = Some f → inCall f = true →
  ∀ j fj, j ≠ i → frames c !! j = Some fj → inCall fj = false.
Proof.
  intros (_ & Huniq & _) Hi Hin j fj Hne Hj.
  destruct (inCall fj) eqn:Hfj; [| done].
  by destruct Hne; eapply Huniq.
Qed.

Lemma OneCall_moved (c : Clients) (i : nat) (f : Frame) (s : System) :
  i < length (frames c) →
  (∀ j fj, j ≠ i → frames c !! j = Some fj → inCall fj = false) →
  caller s = framePc f →
  OneCall (moved i f s c).
Proof.
  intros Hlt Hothers Hpc. unfold OneCall, moved. simpl. split_and!.
  - intros j fj Hj Hin. destruct (decide (j = i)) as [-> | Hne].
    + rewrite list_lookup_insert_eq in Hj by done. by injection Hj as <-.
    + rewrite list_lookup_insert_ne in Hj by done.
      by rewrite (Hothers _ _ Hne Hj) in Hin.
  - intros j1 j2 f1 f2 H1 H2 Hin1 Hin2.
    destruct (decide (j1 = i)) as [-> | Hne1];
      destruct (decide (j2 = i)) as [-> | Hne2]; try done.
    + rewrite list_lookup_insert_ne in H2 by done.
      by rewrite (Hothers _ _ Hne2 H2) in Hin2.
    + rewrite list_lookup_insert_ne in H1 by done.
      by rewrite (Hothers _ _ Hne1 H1) in Hin1.
    + rewrite list_lookup_insert_ne in H1 by done.
      by rewrite (Hothers _ _ Hne1 H1) in Hin1.
  - intros Hall. rewrite Forall_lookup in Hall.
    specialize (Hall i f). rewrite list_lookup_insert_eq in Hall by done.
    specialize (Hall eq_refl). rewrite Hpc. by destruct f as [[] | id []].
Qed.

Lemma turn_OneCall (t : Turn) (c c' : Clients) :
  allowed t c → OneCall c → turn t c = Some c' → OneCall c'.
Proof.
  intros Hallowed Hone. destruct t as [i call | i | cpuId]; cbn -[step nextId constructRequest set_caller].
  - destruct (frames c !! i) as [[pc | id pc] |] eqn:Hi; try done.
    destruct (step _ _) as [s' |] eqn:Hstep; [| done]. cbn. intros [= <-].
    apply OneCall_moved; [by eapply lookup_lt_Some | | done].
    intros j fj _ Hj. simpl in Hallowed. rewrite Forall_lookup in Hallowed.
    by eapply Hallowed.
  - destruct (frames c !! i) as [[pc | id pc] |] eqn:Hi; try done.
    + destruct (preparing pc) as [[[[t input] line] next] |] eqn:Hprep.
      * destruct (nextId input (service c)) as [id s'] eqn:Hid.
        intros [= <-].
        apply OneCall_moved; [by eapply lookup_lt_Some | | done].
        eapply OneCall_others; [done | done |]. by eapply preparing_inCall.
      * destruct (step _ _) as [s' |] eqn:Hstep; [| done]. cbn. intros [= <-].
        apply OneCall_moved; [by eapply lookup_lt_Some | | done].
        eapply OneCall_others; [done | done |].
        by apply step_advance_inCall in Hstep.
    + destruct (preparing pc) as [[[[t input] line] next] |] eqn:Hprep;
        [| done].
      intros [= <-].
      apply OneCall_moved; [by eapply lookup_lt_Some | | done].
      eapply OneCall_others; [done | done | done].
  - destruct (step _ _) as [s' |] eqn:Hstep; [| done]. cbn. intros [= <-].
    simpl in Hstep. destruct (worker_frame _ _ _ Hstep) as (Hc & _ & _).
    destruct Hone as (Hpos & Huniq & Hquiet). unfold OneCall. simpl.
    rewrite Hc. done.
Qed.

(** The thread that advances stands where the service has it. *)
Lemma OneCall_here (c : Clients) (i : nat) (f : Frame) :
  OneCall c → frames c !! i = Some f → inCall f = true →
  set_caller (framePc f) (service c) = service c.
Proof.
  intros (Hpos & _ & _) Hi Hin. rewrite (Hpos _ _ Hi Hin).
  apply set_caller_caller.
Qed.

Section Capacity.
Variable C : Z.
Hypothesis HC : Representable C.

Lemma turn_CapacityInv (t : Turn) (c c' : Clients) :
  allowed t c → OneCall c → CapacityInv C (service c) →
  turn t c = Some c' → CapacityInv C (service c').
Proof.
  intros Hallowed Hone Hinv. destruct t as [i call | i | cpuId]; cbn -[step nextId constructRequest set_caller].
  - destruct (frames c !! i) as [[pc | id pc] |] eqn:Hi; try done.
    destruct (step _ _) as [s' |] eqn:Hstep; [| done]. cbn. intros [= <-]. simpl.
    eapply (step_inv C HC); [| exact Hstep].
    destruct (step_call_outside _ _ _ Hstep) as [ret Hpc]. simpl in Hpc.
    subst pc. destruct Hone as (_ & _ & Hquiet).
    specialize (Hquiet Hallowed).
    eapply CapacityInv_idle; [.. | exact Hinv]; simpl; try done.
    by destruct (caller (service c)).
  - destruct (frames c !! i) as [[pc | id pc] |] eqn:Hi; try done.
    + destruct (preparing pc) as [[[[t input] line] next] |] eqn:Hprep.
      * pose proof (OneCall_here _ _ _ Hone Hi (preparing_inCall _ _ Hprep))
          as Hhere. simpl in Hhere.
        unfold nextId. intros [= <-]. simpl.
        eapply CapacityInv_frame; [.. | exact Hinv]; simpl; try done.
        by apply (f_equal caller) in Hhere.
      * destruct (step _ _) as [s' |] eqn:Hstep; [| done]. cbn. intros [= <-].
        pose proof (OneCall_here _ _ _ Hone Hi (step_advance_inCall _ _ Hstep))
          as Hhere.
        simpl in Hhere. rewrite Hhere in Hstep. by eapply (step_inv C HC).
    + destruct (preparing pc) as [[[[t input] line] next] |] eqn:Hprep;
        [| done].
      intros [= <-]. simpl.
      pose proof (OneCall_here _ _ _ Hone Hi eq_refl) as Hhere.
      apply (f_equal caller) in Hhere. simpl in Hhere.
      rewrite constructRequest_eq.
      destruct Hinv as [Hacc Hnn Hframe Hreqs].
      unfold inFlightBytes in Hacc. rewrite <- Hhere in Hacc.
      assert (frameBytes pc = inputBytes input ∧ frameBytes next = 0%Z ∧
              ∀ t0 input0 line0, next ≠ TranslatePart_accept t0 input0 line0)
        as (Hpc & Hnext & Hne).
      { destruct pc; try done; by injection Hprep as <- <- <- <-. }
      rewrite Hpc in Hacc.
      split; unfold inFlightBytes; simpl.
      * rewrite heldBy_app, Hnext. simpl. unfold held, completed. simpl.
        case_bool_decide as Hdone; [| lia].
        destruct Hdone as [Hz Hnil]. by apply length_zero_iff_nil in Hz.
      * done.
      * intros t0 input0 line0 Heq. by destruct (Hne _ _ _ Heq).
      * apply Forall_app. split; [done |]. by apply Forall_singleton.
  - destruct (step _ _) as [s' |] eqn:Hstep; [| done]. cbn. intros [= <-].
    simpl. by eapply (step_inv C HC).
Qed.

End Capacity.

Section Ids.
Variable N : Z.
Hypothesis HN : IdsRepresentable N.


Lemma all_at_moved (c : Clients) (i : nat) (pc : Pc) (s : System) :
  (∀ j fj, j ≠ i → frames c !! j = Some fj → inCall fj = false) →
  Forall (λ f, ∃ pc, f = At pc) (frames (moved i (At pc) s c)).
Proof.
  intros Hothers. apply Forall_lookup. simpl. intros j fj Hj.
  apply list_lookup_insert_Some in Hj as [(-> & <- & _) | (Hne & Hj)].
  - by eexists.
  - pose proof (Hothers j fj ltac:(done) Hj) as Hout.
    destruct fj as [pcj |]; [by eexists | done].
Qed.



End Ids.

Lemma forallb_not_inCall (fs : list Frame) :
  forallb (λ f, negb (inCall f)) fs = true →
  Forall (λ f, inCall f = false) fs.
Proof.
  induction fs as [| f fs IH]; simpl; [by constructor |].
  intros [Hf Hfs]%andb_prop. constructor; [by destruct (inCall f) | auto].
Qed.


(** The invariants along a schedule that keeps the calls apart. *)
Lemma turns_apart (P : Clients → Prop) (sched : list Turn) (c c' : Clients) :
  (∀ t x x', allowed t x → OneCall x → P x → turn t x = Some x' → P x') →
  apart sched c = true → turns sched c = Some c' →
  OneCall c → P c → OneCall c' ∧ P c'.
Proof.
  intros Hstep. revert c.
  induction sched as [| t sched IH]; intros c; simpl.
  - by intros _ [= <-].
  - intros [Hok Hrest]%andb_prop Hrun Hone HP.
    destruct (turn t c) as [c1 |] eqn:Hturn; [| done]. simpl in Hrun.
    assert (allowed t c) as Hallowed.
    { destruct t; simpl; try done. by apply forallb_not_inCall. }
    apply (IH c1); [done | done | by eapply turn_OneCall | by eapply Hstep].
Qed.

Lemma newClients_OneCall (options : Options) (k : nat) (c : Clients) :
  newClients options k = Some c →
  OneCall c ∧ newService options = Some (service c) ∧
  Forall (λ f, ∃ pc, f = At pc) (frames c).
Proof.
  unfold newClients. destruct (newService options) as [s |] eqn:Hnew; [| done].
  simpl. intros [= <-]. simpl. split_and!; [| done |].
  - unfold OneCall. simpl. split_and!.
    + intros i f [-> _]%lookup_replicate. done.
    + intros i j fi fj [-> _]%lookup_replicate. done.
    + intros _. unfold newService in Hnew.
      destruct (loadVocabularies options) as [[vs hp] |]; [| done].
      by injection Hnew as <-.
  - apply Forall_forall. intros f [-> _]%elem_of_replicate. by eexists.
Qed.

(** C3, for calls that are kept apart.  Whatever the number of client
    threads, as long as a thread enters the service only when no thread is
    in a call, the counter lies between zero and the budget in every state
    the service comes to: after the admission test, after the subtraction
    at line 83, after the addition in a completion callback of a worker,
    and between the two steps of [prepareRequest]. *)
Theorem capacity_within_budget_when_calls_are_apart (options : Options)
    (k : nat) (sched : list Turn) (c0 c : Clients) :
  Representable (capacity_bytes options) →
  newClients options k = Some c0 →
  apart sched c0 = true →
  turns sched c0 = Some c →
  (0 ≤ capacityBytes_ (service c) ≤ capacity_bytes options)%Z.
Proof.
  intros HC Hnew Hapart Hrun.
  destruct (newClients_OneCall _ _ _ Hnew) as (Hone & Hs0 & _).
  eapply CapacityInv_le.
  eapply (turns_apart (λ x, CapacityInv (capacity_bytes options) (service x)));
    [| exact Hapart | exact Hrun | exact Hone |].
  - intros t x x'. by apply (turn_CapacityInv _ HC).
  - by eapply (newService_inv _ HC).
Qed.


End ApartTheorems.

(** ** The example environment *)

Lemma exampleEnvironment_laws : @BatcherLaws exampleEnvironment.
Proof.
  split; try done.
  - intros b. by destruct b.
  - intros b l b' Hb. destruct b as [| u b]; [done |].
    assert (l = take 2 (u :: b) ∧ b' = drop 2 (u :: b)) as [-> ->]
      by (by injection Hb as <- <-).
    split; [done |]. change (u :: b ≡ₚ take 2 (u :: b) ++ drop 2 (u :: b)).
    by rewrite take_drop.
Qed.

Lemma exampleEnvironment_representable (C : Z) :
  (0 ≤ C < 2 ^ 32)%Z → @Representable exampleEnvironment C.
Proof.
  intros HC. split; [lia |]. intros z Hz. simpl. split; apply Z.mod_small; lia.
Qed.

Lemma exampleEnvironment_ids : @IdsRepresentable exampleEnvironment 1000.
Proof. intros z Hz. simpl. apply Z.mod_small. lia. Qed.

Lemma exampleRun_reachable (cpuThreads : nat) (capacity : Z)
    (sched : list Label) s :
  exampleRun cpuThreads capacity sched = Some s →
  @reachable exampleEnvironment (exampleOptions cpuThreads capacity) s.
Proof.
  unfold exampleRun, reachable. intros Hrun.
  destruct (newService (exampleOptions cpuThreads capacity)) as [s0 |] eqn:Hnew;
    [| done].
  by exists s0, sched.
Qed.

(** ** The theorems at work *)

Lemma loadVocabularies_shares_by_name_witness :
  loadVocabularies (mkOptions 1 100 ["vocab.spm"]) = None ∧
  ∃ vs hp,
    loadVocabularies (mkOptions 1 100 ["src.spm"; "trg.spm"; "src.spm"])
      = Some (vs, hp) ∧
    (vs !! 0 = vs !! 2 ↔ "src.spm" = "src.spm").
Proof.
  split.
  - destruct (loadVocabularies_shares_by_name (mkOptions 1 100 ["vocab.spm"]))
      as [Hfew _].
    destruct Hfew as [Hnone _]; [simpl; lia | exact Hnone].
  - destruct (loadVocabularies_shares_by_name
                (mkOptions 1 100 ["src.spm"; "trg.spm"; "src.spm"]))
      as [_ Hok].
    destruct Hok as (vs & hp & Heq & _ & _ & Hshare & _); [simpl; lia |].
    exists vs, hp. split; [exact Heq |]. apply Hshare; reflexivity.
Defined.

(** One worker, 16 bytes: "hello world" (11 bytes) is accepted and queued;
    "how are you" (11 bytes) does not fit the 5 bytes left. *)
Lemma oversized_submission_is_rejected_witness :
  ∃ s s',
    exampleRun 1 16 submitHello = Some s ∧
    @step exampleEnvironment (LCall (CallTranslate "how are you")) s = Some s' ∧
    trackers s' !! 1
      = Some (mkTracker REJECTED_MEMORY (Some EmptyResponse) None) ∧
    capacityBytes_ s' = 5%Z.
Proof.
  exists_state (exampleRun 1 16 submitHello).
  match goal with
  | |- ∃ s', _ = Some ?s ∧ _ =>
      destruct (@oversized_submission_is_rejected exampleEnvironment s
                  (CallTranslate "how are you") "how are you" (Some 0))
        as (s' & Hstep & _ & Htrk & _ & _ & Hcap & _)
  end.
  - reflexivity.
  - left. reflexivity.
  - reflexivity.
  - vm_compute. reflexivity.
  - exists s'. split; [vm_compute; reflexivity |]. split; [exact Hstep |].
    split.
    + rewrite Htrk. reflexivity.
    + rewrite Hcap. reflexivity.
Defined.

(** The same service while the worker translates the first sentence. *)
Lemma capacity_within_budget_witness :
  ∃ s,
    exampleRun 1 16 translatingHello = Some s ∧
    (0 ≤ capacityBytes_ s ≤ 16)%Z.
Proof.
  exists_state (exampleRun 1 16 translatingHello).
  split; [vm_compute; reflexivity |].
  match goal with
  | |- (0 ≤ capacityBytes_ ?s ≤ _)%Z =>
      destruct (@capacity_within_budget exampleEnvironment
                  (exampleOptions 1 16) s) as [Hnow _]
  end.
  - apply exampleEnvironment_representable. simpl. lia.
  - apply (exampleRun_reachable 1 16 translatingHello). vm_compute. reflexivity.
  - exact Hnow.
Defined.

(** The same service once the worker has translated both sentences: the
    16 bytes are back. *)
Lemma capacity_round_trip_witness :
  ∃ s,
    exampleRun 1 16 translatedHello = Some s ∧
    @inFlightBytes exampleEnvironment s = 0%Z ∧
    capacityBytes_ s = 16%Z.
Proof.
  exists_state (exampleRun 1 16 translatedHello).
  split; [vm_compute; reflexivity |].
  split; [vm_compute; reflexivity |].
  match goal with
  | |- capacityBytes_ ?s = _ =>
      destruct (@capacity_round_trip exampleEnvironment
                  (exampleOptions 1 16) s) as (_ & _ & _ & _ & Hquiet)
  end.
  - apply exampleEnvironment_representable. simpl. lia.
  - apply (exampleRun_reachable 1 16 translatedHello). vm_compute. reflexivity.
  - apply Hquiet. vm_compute. reflexivity.
Defined.

(** Two submissions to a service with 100 bytes. *)
Lemma request_ids_strictly_increase_witness :
  ∃ s,
    exampleRun 1 100 submitTwo = Some s ∧
    issuedIds (log s) = [0; 1]%Z.
Proof.
  exists_state (exampleRun 1 100 submitTwo).
  split; [vm_compute; reflexivity |].
  match goal with
  | |- issuedIds (log ?s) = _ =>
      destruct (@request_ids_strictly_increase exampleEnvironment
                  (exampleOptions 1 100) s 1000) as (_ & Hids & _)
  end.
  - exact exampleEnvironment_ids.
  - apply (exampleRun_reachable 1 100 submitTwo). vm_compute. reflexivity.
  - vm_compute. discriminate.
  - etransitivity; [exact Hids | reflexivity].
Defined.

(** No worker: when [translate] returns the tracker is SUCCESS and the 16
    bytes are back. *)
Lemma translate_without_workers_witness :
  ∃ s k s',
    exampleRun 0 16 [] = Some s ∧
    @run exampleEnvironment
      (LCall (CallTranslate "hello world") :: replicate k LAdvance) s = Some s' ∧
    caller s' = Outside (Some 0) ∧
    trackers s' !! 0
      = Some (mkTracker SUCCESS (Some (TranslatedResponse "hello world"))
                (Some 0)) ∧
    capacityBytes_ s' = 16%Z.
Proof.
  exists_state (exampleRun 0 16 []).
  match goal with
  | |- ∃ k s', _ = Some ?s ∧ _ =>
      destruct (@translate_without_workers exampleEnvironment
                  exampleEnvironment_laws (exampleOptions 0 16) s
                  (CallTranslate "hello world") "hello world" None)
        as (k & s' & batches & Hrun & _ & Hout & _ & _ & _ & _ & _ & _
            & Hdone & _)
  end.
  - apply exampleEnvironment_representable. simpl. lia.
  - reflexivity.
  - apply (exampleRun_reachable 0 16 []). vm_compute. reflexivity.
  - reflexivity.
  - left. reflexivity.
  - vm_compute. discriminate.
  - exists k, s'. split; [vm_compute; reflexivity |].
    split; [exact Hrun |]. split; [exact Hout |].
    apply Hdone. vm_compute. discriminate.
Defined.

(** One worker: [stop] pushes one poison batch, the worker takes it and
    ends, [stop] joins it and clears the list. *)
Lemma stop_poisons_joins_clears_witness :
  ∃ s s',
    exampleRun 1 16 [] = Some s ∧
    @run exampleEnvironment (LCall CallStop :: shutdown) s = Some s' ∧
    workers_ s' = [] ∧
    shutdownEvents (log s') = [EProduce Poison; EJoin 0].
Proof.
  exists_state (exampleRun 1 16 []).
  exists_state (exampleRun 1 16 (LCall CallStop :: shutdown)).
  split; [vm_compute; reflexivity |].
  split; [vm_compute; reflexivity |].
  match goal with
  | |- workers_ ?s' = _ ∧ _ =>
      destruct (@stop_poisons_joins_clears exampleEnvironment
                  (exampleOptions 1 16)
                  (mkSystem 0 1 [Some 0; Some 0] [] 16 (mkPCQueue 2 []) [0] [0]
                     [] [] [Initializing] [] (Outside None))
                  CallStop None)
        as (_ & Hsafe & _);
      [| | | destruct (Hsafe shutdown s') as (Hws & Hevents & _)]
  end.
  - apply (exampleRun_reachable 1 16 []). vm_compute. reflexivity.
  - reflexivity.
  - left. reflexivity.
  - reflexivity.
  - vm_compute. reflexivity.
  - reflexivity.
  - split; [exact Hws | exact Hevents].
Defined.

(** Every request of a run is made with line 0 and priority 20. *)
Lemma requests_start_at_line_0_nice_20_witness :
  ∃ s0 s,
    @newService exampleEnvironment (exampleOptions 1 100) = Some s0 ∧
    @run exampleEnvironment submitTwo s0 = Some s ∧
    Forall (λ lp, lp.2 = 20%Z) (constructedWith (log s)) ∧
    Forall (λ lp, lp.1 = 0%Z) (constructedWith (log s)).
Proof.
  exists_state (@newService exampleEnvironment (exampleOptions 1 100)).
  exists_state (exampleRun 1 100 submitTwo).
  split; [vm_compute; reflexivity |].
  split; [vm_compute; reflexivity |].
  match goal with
  | |- Forall _ (constructedWith (log ?s)) ∧ _ =>
      destruct (@requests_start_at_line_0_nice_20 exampleEnvironment
                  (exampleOptions 1 100)
                  (mkSystem 0 1 [Some 0; Some 0] [] 100 (mkPCQueue 2 []) [0] [0]
                     [] [] [Initializing] [] (Outside None))
                  s submitTwo)
        as (Hnice & Hline & _)
  end.
  - vm_compute. reflexivity.
  - vm_compute. reflexivity.
  - split; [exact Hnice |]. apply Hline. reflexivity.
Defined.

(** C7.  One worker, 100 bytes, "a b c d e": after the admission, the
    launch of the task, the preparation of the request and two batches, the
    queue is full.  [translate] has not returned: the client waits at line
    122 for the task, the task waits for a slot of the queue, and neither
    can take a step until the worker has taken a batch.  When [translate]
    does return, all three batches are in the queue or beyond. *)
Theorem translate_waits_for_its_task :
  ∃ s,
    exampleRun 1 100 submitFive = Some s ∧
    caller s = QueueInBackground_produce 0 ∧
    @step exampleEnvironment LAdvance s = None ∧
    (∀ c, @step exampleEnvironment (LCall c) s = None) ∧
    (∃ s', @run exampleEnvironment
             [LWorker 0; LWorker 0; LAdvance; LAdvance] s = Some s' ∧
           caller s' = Outside (Some 0) ∧
           log s' =
             [EAsync QueueInBackground; EProcess "a b c d e"; ENewRequest 0 0 20;
              EAddWholeRequest 0;
              EProduce (Sentences [(0, 0); (0, 1)]);
              EProduce (Sentences [(0, 2); (0, 3)]);
              ETranslate 0 [(0, 0); (0, 1)];
              EProduce (Sentences [(0, 4)])]).
Proof.
  exists_state (exampleRun 1 100 submitFive).
  split; [vm_compute; reflexivity |].
  split; [reflexivity |].
  split; [vm_compute; reflexivity |].
  split; [intros c; reflexivity |].
  exists_state (exampleRun 1 100
                  (submitFive ++ [LWorker 0; LWorker 0; LAdvance; LAdvance])).
  split; [vm_compute; reflexivity |].
  split; reflexivity.
Qed.

(** ** Calls that overlap, and calls that are kept apart *)

(** The counterexample to C3 as it is stated, for calls that overlap.
    Thread 0 and thread 1 both pass the test of line 75 while the capacity
    is 16; thread 0 subtracts its 11 bytes; thread 1 then subtracts 11 from
    the 5 that are left, more than the capacity holds, and the 32-bit
    counter of the example is above the budget. *)
Lemma concurrent_submissions_overdraw_the_capacity :
  ∃ c0 c c',
    @newClients exampleEnvironment (exampleOptions 1 16) 2 = Some c0 ∧
    @apart exampleEnvironment overlappingAdmissions c0 = false ∧
    @turns exampleEnvironment overlappingAdmissions c0 = Some c ∧
    capacityBytes_ (service c) = 5%Z ∧
    frames c !! 1 = Some (At (TranslatePart_accept 1 "how are you" 0)) ∧
    inputBytes "how are you" = 11%Z ∧
    @turn exampleEnvironment (TAdvance 1) c = Some c' ∧
    capacityBytes_ (service c') = 4294967290%Z ∧
    (capacity_bytes (exampleOptions 1 16) < capacityBytes_ (service c'))%Z.
Proof.
  exists_state (@newClients exampleEnvironment (exampleOptions 1 16) 2).
  match goal with
  | |- ∃ c c', _ = Some ?c0 ∧ _ =>
      exists_state (@turns exampleEnvironment overlappingAdmissions c0)
  end.
  match goal with
  | |- ∃ c', _ ∧ _ ∧ _ = Some ?c ∧ _ =>
      exists_state (@turn exampleEnvironment (TAdvance 1) c)
  end.
  split_and!; vm_compute; reflexivity.
Qed.


(** Two threads, 16 bytes, one call after the other: 5 bytes are left. *)
Lemma capacity_within_budget_when_calls_are_apart_witness :
  ∃ c0 c,
    @newClients exampleEnvironment (exampleOptions 1 16) 2 = Some c0 ∧
    @apart exampleEnvironment callsApart c0 = true ∧
    @turns exampleEnvironment callsApart c0 = Some c ∧
    capacityBytes_ (service c) = 5%Z ∧
    (0 ≤ capacityBytes_ (service c) ≤ 16)%Z.
Proof.
  exists_state (@newClients exampleEnvironment (exampleOptions 1 16) 2).
  match goal with
  | |- ∃ c, _ = Some ?c0 ∧ _ =>
      exists_state (@turns exampleEnvironment callsApart c0)
  end.
  do 4 (split; [vm_compute; reflexivity |]).
  eapply (@capacity_within_budget_when_calls_are_apart exampleEnvironment
            (exampleOptions 1 16) 2 callsApart).
  - apply exampleEnvironment_representable. simpl. lia.
  - vm_compute. reflexivity.
  - vm_compute. reflexivity.
  - vm_compute. reflexivity.
Defined.


(** * Further theorems *)

Section LoadOrder.
Variable vfiles : list string.

Lemma LoaderOrder_step k st :
  k < length vfiles →
  LoaderInv vfiles k st → LoaderOrder vfiles k st →
  LoaderOrder vfiles (S k) (loadVocabulary vfiles st k).
Proof.
  intros Hk [Hlen Hknown Honly Hvec Hheap] [Hfirst Hmono].
  destruct (lookup_lt_is_Some_2 vfiles k Hk) as [file Hfile].
  unfold loadVocabulary, emplace. rewrite Hfile.
  destruct (vmap st !! file) as [x|] eqn:Hmap; simpl.
  - split; simpl.
    + intros p v Hp. destruct (Hfirst p v Hp) as (Hlt & Hat & Hmin).
      split_and!; [lia | done | done].
    + done.
  - assert (∀ j, j < k → vfiles !! j ≠ Some file) as Hnew.
    { intros j Hj Hjf.
      assert (file ∈ take k vfiles) as Hin.
      { apply list_elem_of_lookup. exists j. by rewrite lookup_take_lt. }
      destruct (Hknown _ Hin) as (? & ? & ? & _). congruence. }
    split; simpl.
    + intros p v [Hp | [_ Hp]]%lookup_app_Some.
      * destruct (Hfirst p v Hp) as (Hlt & Hat & Hmin).
        split_and!; [lia | done | done].
      * apply list_lookup_singleton_Some in Hp as [_ <-]. simpl.
        split_and!; [lia | done | done].
    + intros p q v w Hpq [Hp | [Hge Hp]]%lookup_app_Some
                        [Hq | [Hge' Hq]]%lookup_app_Some.
      * by eapply Hmono.
      * apply list_lookup_singleton_Some in Hq as [_ <-]. simpl.
        by destruct (Hfirst p v Hp) as (Hlt & _).
      * apply lookup_lt_Some in Hq. lia.
      * apply list_lookup_singleton_Some in Hp as [Hp _].
        apply list_lookup_singleton_Some in Hq as [Hq _]. lia.
Qed.

Lemma LoaderOrder_loop k :
  k ≤ length vfiles →
  LoaderOrder vfiles k (foldl (loadVocabulary vfiles)
                 (mkVocabLoader [] ∅ (replicate (length vfiles) None)) (seq 0 k)).
Proof.
  induction k as [| k IH]; intros Hk.
  - split; simpl; intros *; by rewrite ?lookup_nil.
  - rewrite seq_S, foldl_app. simpl.
    apply LoaderOrder_step; [lia | apply LoaderInv_loop; lia | apply IH; lia].
Qed.

End LoadOrder.

(** X1.  [loadVocabularies] makes its vocabularies in the order in which
    their files are first named.  Every vocabulary it has made carries, as the
    index it was constructed with, the first position that names its file,
    and the pointer at that position is its address; a pointer at a later
    position never refers to a vocabulary made after it; and there are as
    many vocabularies as there are different file names. *)
Theorem loadVocabularies_first_occurrence (options : Options)
    (vs : list (option nat)) (hp : list Vocab) :
  loadVocabularies options = Some (vs, hp) →
  (∀ p v, hp !! p = Some v →
     vocabs options !! batchIndex v = Some (loadedFrom v) ∧
     (∀ j, j < batchIndex v → vocabs options !! j ≠ Some (loadedFrom v)) ∧
     vs !! batchIndex v = Some (Some p)) ∧
  (∀ p q v w, p < q → hp !! p = Some v → hp !! q = Some w →
     batchIndex v < batchIndex w) ∧
  (∀ i p v, vs !! i = Some (Some p) → hp !! p = Some v → batchIndex v ≤ i) ∧
  loadedFrom <$> hp ≡ₚ remove_dups (vocabs options).
Proof.
  unfold loadVocabularies. case_bool_decide as Hfew; [done |].
  set (vfiles := vocabs options).
  pose proof (LoaderInv_loop vfiles (length vfiles) (Nat.le_refl _)) as Hinv.
  pose proof (LoaderOrder_loop vfiles (length vfiles) (Nat.le_refl _)) as Hord.
  set (st := foldl _ _ _) in *. intros [= <- <-].
  destruct Hinv as [Hl Hknown Honly Hvec Hheap].
  destruct Hord as [Hfirst Hmono].
  rewrite firstn_all in Hknown, Honly.
  split_and!.
  - intros p v Hp. destruct (Hfirst p v Hp) as (Hlt & Hat & Hmin).
    split_and!; [done | done |].
    rewrite (Hvec _ _ Hlt Hat). by apply Hheap.
  - exact Hmono.
  - intros i p v Hi Hp.
    destruct (Hfirst p v Hp) as (Hlt & Hat & Hmin).
    destruct (decide (batchIndex v ≤ i)) as [| Hgt]; [done |].
    assert (i < length vfiles) as Hil.
    { apply lookup_lt_Some in Hi. lia. }
    destruct (lookup_lt_is_Some_2 vfiles i Hil) as [f Hf].
    rewrite (Hvec i f Hil Hf) in Hi.
    assert (f ∈ vfiles) as Hin by (apply list_elem_of_lookup; eauto).
    destruct (Hknown f Hin) as (p' & v' & Hp' & Hv' & Hfv').
    assert (p' = p) as -> by congruence.
    assert (v' = v) as -> by congruence.
    destruct (Hmin i ltac:(lia)). congruence.
  - apply NoDup_Permutation.
    + apply NoDup_alt. intros i j x Hi Hj.
      apply list_lookup_fmap_Some in Hi as (v & -> & Hv).
      apply list_lookup_fmap_Some in Hj as (w & Hvw & Hw).
      apply Hheap in Hv. apply Hheap in Hw. rewrite <- Hvw in Hw. congruence.
    + apply NoDup_remove_dups.
    + intros f. rewrite elem_of_remove_dups, list_elem_of_fmap. split.
      * intros (v & -> & [p Hp]%list_elem_of_lookup). eapply Honly, Hheap, Hp.
      * intros Hf. destruct (Hknown f Hf) as (p & v & _ & Hv & Hfv).
        exists v. split; [done |]. apply list_elem_of_lookup. eauto.
Qed.

(** Destructs a [Step], naming what each case brings. *)
Ltac step_cases Hstep :=
  destruct Hstep as
    [ret c input line Hpc Hc Hlt | ret c input line Hpc Hc Hle
    | ret t r Hpc Ht | ret t Hpc Ht
    | ret t r priority Hpc Ht Hex | ret t priority Hpc Ht
    | ret c Hpc Hc
    | t input line Hpc Hn | t input line Hpc Hn | t input line pc Hpc
    | t l b' q Hpc Hc Hq | t l b' Hpc Hc Htr | t Hpc Hc
    | i d w q Hpc Hw Hq | i d Hpc Hw | i d w Hpc Hw Hth | i d Hpc Hw
    | d Hpc | w Hth | w q Hth Hq | w l q Hth Hq | w Hth | w u rest Hth].

Lemma ProduceSwap_Some (b : Batch) (q q' : PCQueue) :
  ProduceSwap b q = Some q' →
  length (items q) < bound q ∧ q' = mkPCQueue (bound q) (items q ++ [b]).
Proof. unfold ProduceSwap. case_bool_decide; [| done]. by intros [= <-]. Qed.

Lemma ConsumeSwap_Some (b : Batch) (q q' : PCQueue) :
  ConsumeSwap q = Some (b, q') →
  items q = b :: items q' ∧ bound q' = bound q.
Proof.
  unfold ConsumeSwap. destruct (items q) as [| b0 rest]; [done |].
  by intros [= <- <-].
Qed.

Section StepsTheorems.
Context `{Environment}.

Lemma enter_submitsAt (c : Call) (input : string) (line : Z) (s : System) :
  submitsAt c input line → enter c s = translatePart input line s.
Proof. by intros [-> | [-> [-> | ->]]]. Qed.

Lemma translatePart_Step (c : Call) (input : string) (line : Z) (s : System) ret :
  caller s = Outside ret → submitsAt c input line →
  Step s (LCall c) (translatePart input line s).
Proof.
  intros Hout Hc. unfold translatePart. simpl.
  case_bool_decide as Hlt; simpl in Hlt.
  - unfold set_value, setStatus. simpl. rewrite !alter_snoc. simpl.
    by eapply (Step_reject s ret c input line).
  - eapply (Step_admit s ret c input line); [done | done |].
    apply Z.nlt_ge. exact Hlt.
Qed.

Lemma step_Step (l : Label) (s s' : System) :
  step l s = Some s' → Step s l s'.
Proof.
  destruct l as [c | | w]; simpl.
  - destruct (caller s) as [ret | | | | | | | | |] eqn:Hpc; try done.
    intros [= <-].
    destruct c as [input | input | input line | t | t p | |]; simpl.
    + eapply translatePart_Step; [done |]. right. by split; [| left].
    + eapply translatePart_Step; [done |]. right. by split; [| right].
    + eapply translatePart_Step; [done |]. by left.
    + rewrite ?cancel_eq. destruct (trackedRequest t s) as [r |] eqn:Ht.
      * by eapply Step_cancel.
      * by eapply Step_cancel_none.
    + rewrite ?amend_eq. destruct (trackedRequest t s) as [r |] eqn:Ht.
      * destruct (existsb _ _) eqn:Hex.
        -- by eapply Step_amend.
        -- eapply Step_amend_none; [done |]. intros r' Hr'.
           assert (r' = r) as -> by congruence. done.
      * eapply Step_amend_none; [done |]. intros r' Hr'. congruence.
    + eapply (Step_stop s ret CallStop); [done | by left].
    + eapply (Step_stop s ret CallDestructor); [done | by right].
  - unfold advance.
    destruct (caller s) as [ret | t input line | t input line | t
                            | t input line | t | i d | i d | d |] eqn:Hpc;
      try done.
    + intros [= <-]. unfold translatePart_accept.
      case_bool_decide as Hn; simpl in Hn.
      * by apply Step_launch.
      * apply Step_inPlace; [done | lia].
    + intros [= <-]. apply Step_prepare. by left.
    + unfold produceTo.
      destruct (cleaveBatch (batcher_ s)) as [[l b'] |] eqn:Hc.
      * destruct (ProduceSwap _ _) as [q |] eqn:Hq; [| done]. simpl.
        intros [= <-]. by eapply Step_produce.
      * intros [= <-]. apply Step_return; [by left | done].
    + intros [= <-]. apply Step_prepare. by right.
    + unfold drain.
      destruct (cleaveBatch (batcher_ s)) as [[l b'] |] eqn:Hc.
      * destruct (translators_ s !! 0) eqn:Ht; [| done].
        intros [= <-]. by eapply Step_drain.
      * intros [= <-]. apply Step_return; [by right | done].
    + unfold stop_poison. destruct (workers_ s !! i) as [w |] eqn:Hw.
      * destruct (ProduceSwap _ _) as [q |] eqn:Hq; [| done]. simpl.
        intros [= <-]. by eapply Step_poison.
      * intros [= <-]. by eapply Step_poisoned.
    + unfold stop_join. destruct (workers_ s !! i) as [w |] eqn:Hw.
      * destruct (threads s !! w) as [[| | |] |] eqn:Hth; try done.
        intros [= <-]. by eapply Step_join.
      * intros [= <-]. by eapply Step_joined.
    + intros [= <-]. by eapply Step_clear.
  - unfold worker.
    destruct (threads s !! w) as [[| | [| u rest] |] |] eqn:Hth; try done.
    + intros [= <-]. by apply Step_initialized.
    + destruct (ConsumeSwap _) as [[[| l] q] |] eqn:Hq; try done.
      * intros [= <-]. by apply Step_exit.
      * intros [= <-]. by apply Step_take.
    + intros [= <-]. by apply Step_translated.
    + intros [= <-]. by apply Step_sentence.
Qed.

Lemma Step_step (l : Label) (s s' : System) :
  Step s l s' → step l s = Some s'.
Proof.
  intros Hstep.
  step_cases Hstep; simpl; unfold advance, worker;
    rewrite ?Hpc, ?Hth; simpl; try done.
  - rewrite (enter_submitsAt _ _ _ _ Hc). unfold translatePart. simpl.
    rewrite bool_decide_eq_true_2 by done.
    unfold set_value, setStatus. simpl. by rewrite !alter_snoc.
  - rewrite (enter_submitsAt _ _ _ _ Hc). unfold translatePart. simpl.
    by rewrite bool_decide_eq_false_2 by lia.
  - rewrite ?cancel_eq. by rewrite Ht.
  - rewrite ?cancel_eq. by rewrite Ht.
  - rewrite ?amend_eq. by rewrite Ht, Hex.
  - rewrite ?amend_eq. destruct (trackedRequest t s) as [r |]; [| done].
    by rewrite (Ht r eq_refl).
  - by destruct Hc as [-> | ->].
  - unfold translatePart_accept. by rewrite bool_decide_eq_true_2.
  - unfold translatePart_accept. simpl.
    by rewrite bool_decide_eq_false_2 by lia.
  - by destruct Hpc as [[-> ->] | [-> ->]].
  - unfold produceTo. by rewrite Hc, Hq.
  - unfold drain. rewrite Hc. by destruct Htr as [x ->].
  - destruct Hpc as [-> | ->]; unfold produceTo, drain; by rewrite Hc.
  - unfold stop_poison. by rewrite Hw, Hq.
  - unfold stop_poison. by rewrite Hw.
  - unfold stop_join. by rewrite Hw, Hth.
  - unfold stop_join. by rewrite Hw.
  - by rewrite Hq.
  - by rewrite Hq.
Qed.

(** An invariant of the steps holds along every run. *)
Lemma run_invariant (P : System → Prop) :
  (∀ s l s', Step s l s' → P s → P s') →
  ∀ sched s s', run sched s = Some s' → P s → P s'.
Proof.
  intros Hstep. induction sched as [| l sched IH]; intros s s'; simpl.
  - by intros [= <-].
  - destruct (step l s) as [s1 |] eqn:Hs; [| done]. simpl.
    intros Hrun Hs0. apply (IH s1 s' Hrun).
    eapply Hstep; [| exact Hs0]. by eapply step_Step.
Qed.

(** The same for a call in progress: no step is a new call. *)
Lemma run_invariant_call (P : System → Prop) :
  (∀ s l s', Step s l s' → isCall l = false → P s → P s') →
  ∀ sched s s',
    forallb (λ l, negb (isCall l)) sched = true →
    run sched s = Some s' → P s → P s'.
Proof.
  intros Hstep. induction sched as [| l sched IH]; intros s s'; simpl.
  - by intros _ [= <-].
  - intros [Hl Hsched]%andb_prop.
    destruct (step l s) as [s1 |] eqn:Hs; [| done]. simpl.
    intros Hrun Hs0. apply (IH s1 s' Hsched Hrun).
    eapply Hstep; [by eapply step_Step | | exact Hs0].
    by destruct (isCall l).
Qed.

End StepsTheorems.

Lemma tracked_trackerOf r req : tracked (trackerOf r req) = Some r.
Proof. unfold trackerOf. by destruct (completed req). Qed.

Section Trackers.
Context `{Environment}.

(** Two requests do not share a tracker. *)
Lemma TrackerInv_promise (s : System) r1 r2 req1 req2 :
  TrackerInv s → requests s !! r1 = Some req1 → requests s !! r2 = Some req2 →
  promise req1 = promise req2 → r1 = r2.
Proof.
  intros [Hreq _ _] H1 H2 Heq.
  destruct (Hreq _ _ H1) as [Ht1 _]. destruct (Hreq _ _ H2) as [Ht2 _].
  rewrite Heq, Ht2 in Ht1. injection Ht1 as Ht1.
  apply (f_equal tracked) in Ht1. rewrite !tracked_trackerOf in Ht1. congruence.
Qed.

(** The completion of a request, with the callback of lines 102-106
    written out. *)
Lemma processHistory_last (u : RequestSentence) (s : System) (req : Request) :
  requests s !! u.1 = Some req → counter req = 1 → wellFormedRequest req →
  processHistory u s =
    set_capacityBytes
      (wrapCapacity (capacityBytes_ s + inputBytes (source req)))
      (set_trackers
         (alter (with_status SUCCESS) (promise req)
            (alter (with_future (TranslatedResponse (source req))) (promise req)
               (trackers s)))
         (set_requests (<[u.1 := with_counter 0 req]> (requests s)) s)).
Proof.
  intros Hreq Hc [_ Hcb]. unfold processHistory. rewrite Hreq, Hc. simpl.
  unfold completeRequest. simpl.
  rewrite list_lookup_insert_eq by (by eapply lookup_lt_Some). simpl.
  rewrite Hcb. reflexivity.
Qed.

Lemma processHistory_TrackerInv (u : RequestSentence) (s : System) :
  TrackerInv s → TrackerInv (processHistory u s).
Proof.
  intros Hinv.
  destruct (processHistory_cases u s) as [-> | [(req & n & Hreq & Hc & ->)
                                              | (req & Hreq & Hc & _)]];
    [done | |].
  - (* one sentence less *)
    destruct Hinv as [Hrq Htr Hfr].
    destruct (Hrq _ _ Hreq) as [Ht Hwf].
    assert (trackerOf u.1 (with_counter (S n) req) = trackerOf u.1 req) as Hsame.
    { unfold trackerOf, completed. simpl. rewrite Hc.
      by rewrite !bool_decide_eq_false_2 by (intros [? _]; lia). }
    split; simpl.
    + intros r req' [(<- & <- & _) | [Hne Hr]]%list_lookup_insert_Some.
      * rewrite Hsame. split; [done |].
        destruct Hwf as [Hle Hcb]. split; simpl; [lia | done].
      * by apply Hrq.
    + intros t tr Ht'.
      destruct (Htr _ _ Ht') as [-> | [[-> Hf] | (r & req' & Hr & Hp)]];
        [by left | by right; left |].
      right. right. destruct (decide (r = u.1)) as [-> | Hne].
      * exists u.1, (with_counter (S n) req). split.
        -- apply list_lookup_insert_eq. by eapply lookup_lt_Some.
        -- simpl. congruence.
      * exists r, req'. by rewrite list_lookup_insert_ne.
    + done.
  - (* the last sentence: the request completes *)
    pose proof Hinv as [Hrq Htr Hfr].
    destruct (Hrq _ _ Hreq) as [Ht Hwf].
    rewrite (processHistory_last u s req Hreq Hc Hwf).
    assert (completed req = false) as Hopen.
    { unfold completed. apply bool_decide_eq_false_2. intros [? _]. lia. }
    assert (completed (with_counter 0 req) = true) as Hdone.
    { unfold completed. apply bool_decide_eq_true_2. simpl. split; [done |].
      destruct Hwf as [Hle _]. intros Hnil. rewrite Hnil in Hle. simpl in Hle. lia. }
    assert (∀ r req', r ≠ u.1 → requests s !! r = Some req' →
              promise req' ≠ promise req) as Hother.
    { intros r req' Hne Hr Heq. apply Hne.
      by eapply (TrackerInv_promise s r u.1 req' req). }
    split; simpl.
    + intros r req' [(<- & <- & _) | [Hne Hr]]%list_lookup_insert_Some.
      * split; [| destruct Hwf as [Hle Hcb]; split; simpl; [lia | done]].
        simpl. rewrite list_lookup_alter. rewrite decide_True by done.
        rewrite list_lookup_alter. rewrite decide_True by done.
        rewrite Ht. unfold trackerOf. rewrite Hopen, Hdone. done.
      * destruct (Hrq _ _ Hr) as [Ht' Hwf']. split; [| done].
        rewrite !list_lookup_alter_ne by (apply not_eq_sym; eauto). done.
    + intros t tr Ht'.
      assert (∃ r' req', <[u.1 := with_counter 0 req]> (requests s) !! r'
                           = Some req' ∧ promise req' = promise req) as Hmine.
      { exists u.1, (with_counter 0 req). split; [| done].
        apply list_lookup_insert_eq. by eapply lookup_lt_Some. }
      destruct (decide (t = promise req)) as [-> | Hne];
        [by right; right |].
      rewrite !list_lookup_alter_ne in Ht' by done.
      destruct (Htr _ _ Ht') as [-> | [[-> Hf] | (r & req' & Hr & Hp)]];
        [by left | by right; left |].
      right. right. destruct (decide (r = u.1)) as [-> | Hne'].
      * congruence.
      * exists r, req'. by rewrite list_lookup_insert_ne.
    + intros t Hf. specialize (Hfr _ Hf).
      assert (t ≠ promise req) as Hne.
      { intros ->. rewrite Ht in Hfr. unfold trackerOf in Hfr.
        rewrite Hopen in Hfr. done. }
      by rewrite !list_lookup_alter_ne by done.
Qed.

Lemma translateBatch_TrackerInv (cpuId : nat) (l : list RequestSentence)
    (s : System) :
  TrackerInv s → TrackerInv (translateBatch cpuId l s).
Proof.
  intros Hinv. unfold translateBatch.
  assert (TrackerInv (emit (ETranslate cpuId l) s)) as Hemit
    by (by destruct Hinv).
  revert Hemit. generalize (emit (ETranslate cpuId l) s).
  induction l as [| u rest IH]; intros s0 Hs0; simpl; [done |].
  apply IH. by apply processHistory_TrackerInv.
Qed.

(** Steps that leave the trackers and the requests alone, the call in
    progress holding no tracker of its own before or after. *)
Lemma TrackerInv_idle (s s' : System) :
  trackers s' = trackers s → requests s' = requests s →
  frameTracker (caller s) = None → frameTracker (caller s') = None →
  TrackerInv s → TrackerInv s'.
Proof.
  intros Ht Hr Hf Hf' [Hrq Htr Hfr].
  split; rewrite ?Ht, ?Hr, ?Hf'; try done.
  intros t tr Htt. destruct (Htr _ _ Htt) as [-> | [[-> Hff] | Hreq]];
    [by left | congruence | by right; right].
Qed.

(** Steps that leave the trackers, the requests and the tracker of the
    call in progress alone. *)
Lemma TrackerInv_frame (s s' : System) :
  trackers s' = trackers s → requests s' = requests s →
  frameTracker (caller s') = frameTracker (caller s) →
  TrackerInv s → TrackerInv s'.
Proof.
  intros Ht Hr Hf [Hrq Htr Hfr]. by split; rewrite ?Ht, ?Hr, ?Hf.
Qed.

Lemma Step_TrackerInv (s s' : System) (lbl : Label) :
  Step s lbl s' → TrackerInv s → TrackerInv s'.
Proof.
  intros Hstep Hinv.
  step_cases Hstep.
  - (* a rejection *)
    destruct Hinv as [Hrq Htr Hfr]. split; simpl.
    + intros r req Hr. destruct (Hrq _ _ Hr) as [Ht Hwf]. split; [| done].
      by apply lookup_app_l_Some.
    + intros t tr [[Hlt' Ht] | [-> <-]]%lookup_snoc_Some; [| by left].
      destruct (Htr _ _ Ht) as [-> | [[-> Hf] | Hreq]];
        [by left | | by right; right].
      by rewrite Hpc in Hf.
    + done.
  - (* an admission *)
    destruct Hinv as [Hrq Htr Hfr]. split; simpl.
    + intros r req Hr. destruct (Hrq _ _ Hr) as [Ht Hwf]. split; [| done].
      by apply lookup_app_l_Some.
    + intros t tr [[Hlt' Ht] | [-> <-]]%lookup_snoc_Some;
        [| by right; left].
      destruct (Htr _ _ Ht) as [-> | [[-> Hf] | Hreq]];
        [by left | | by right; right].
      by rewrite Hpc in Hf.
    + intros t [= <-]. apply lookup_snoc.
  - eapply TrackerInv_idle; [.. | exact Hinv]; simpl; try done; by rewrite Hpc.
  - eapply TrackerInv_idle; [.. | exact Hinv]; simpl; try done; by rewrite Hpc.
  - (* amend: a priority changes *)
    destruct Hinv as [Hrq Htr Hfr]. split; simpl.
    + intros r' req' Hr'. rewrite list_lookup_alter in Hr'.
      destruct (decide (r = r')) as [<- | Hne].
      * destruct (requests s !! r) as [req |] eqn:Hr; [| done].
        injection Hr' as <-. destruct (Hrq _ _ Hr) as [Hmine Hwf].
        split; [exact Hmine | exact Hwf].
      * by apply Hrq.
    + intros t' tr Ht'.
      destruct (Htr _ _ Ht') as [-> | [[-> Hf] | (r' & req' & Hr' & Hp)]];
        [by left | by rewrite Hpc in Hf |].
      right. right. destruct (decide (r = r')) as [<- | Hne].
      * exists r, (with_nice priority req').
        rewrite list_lookup_alter, decide_True by done. by rewrite Hr'.
      * exists r', req'. by rewrite list_lookup_alter_ne.
    + done.
  - eapply TrackerInv_idle; [.. | exact Hinv]; simpl; try done; by rewrite Hpc.
  - eapply TrackerInv_idle; [.. | exact Hinv]; simpl; try done; by rewrite Hpc.
  - eapply TrackerInv_frame; [.. | exact Hinv]; simpl; try done; by rewrite Hpc.
  - eapply TrackerInv_frame; [.. | exact Hinv]; simpl; try done; by rewrite Hpc.
  - (* the request is made *)
    assert (frameTracker (caller s) = Some t ∧ frameTracker pc = None)
      as [Hf Hf'] by (by destruct Hpc as [[-> ->] | [-> ->]]).
    rewrite prepareRequest_eq.
    pose proof Hinv as [Hrq Htr Hfr]. specialize (Hfr _ Hf).
    assert (∀ r req, requests s !! r = Some req → promise req ≠ t) as Hfresh.
    { intros r req Hr <-. destruct (Hrq _ _ Hr) as [Ht _].
      rewrite Ht in Hfr. injection Hfr as Hfr.
      apply (f_equal tracked) in Hfr. by rewrite tracked_trackerOf in Hfr. }
    split; simpl.
    + intros r req [[Hlt Hr] | [-> <-]]%lookup_snoc_Some.
      * destruct (Hrq _ _ Hr) as [Ht Hwf]. split; [| done].
        rewrite !list_lookup_alter_ne by (apply not_eq_sym; eauto). done.
      * simpl. split; [| split; simpl; [lia | done]].
        rewrite list_lookup_alter, decide_True by done.
        rewrite list_lookup_alter, decide_True by done. rewrite Hfr. simpl.
        unfold trackerOf, completed. simpl.
        rewrite bool_decide_eq_false_2; [done |].
        intros [Hz Hne]. by apply length_zero_iff_nil in Hz.
    + intros t' tr Ht'. destruct (decide (t' = t)) as [-> | Hne].
      * right. right. eexists _, _. split; [apply lookup_snoc | done].
      * rewrite !list_lookup_alter_ne in Ht' by done.
        destruct (Htr _ _ Ht') as [-> | [[-> Hff] | (r & req & Hr & Hp)]];
          [by left | congruence |].
        right. right. exists r, req. split; [| done].
        by apply lookup_app_l_Some.
    + by rewrite Hf'.
  - eapply TrackerInv_idle; [.. | exact Hinv]; simpl; try done; by rewrite Hpc.
  - apply translateBatch_TrackerInv.
    eapply TrackerInv_frame; [.. | exact Hinv]; done.
  - eapply TrackerInv_idle; [.. | exact Hinv]; simpl; try done;
      by destruct Hpc as [-> | ->].
  - eapply TrackerInv_idle; [.. | exact Hinv]; simpl; try done; by rewrite Hpc.
  - eapply TrackerInv_idle; [.. | exact Hinv]; simpl; try done; by rewrite Hpc.
  - eapply TrackerInv_idle; [.. | exact Hinv]; simpl; try done; by rewrite Hpc.
  - eapply TrackerInv_idle; [.. | exact Hinv]; simpl; try done; by rewrite Hpc.
  - eapply TrackerInv_idle; [.. | exact Hinv]; simpl; try done;
      [by rewrite Hpc | by destruct d].
  - eapply TrackerInv_frame; [.. | exact Hinv]; done.
  - eapply TrackerInv_frame; [.. | exact Hinv]; done.
  - eapply TrackerInv_frame; [.. | exact Hinv]; done.
  - eapply TrackerInv_frame; [.. | exact Hinv]; done.
  - apply processHistory_TrackerInv.
    eapply TrackerInv_frame; [.. | exact Hinv]; done.
Qed.

Lemma newService_TrackerInv (options : Options) (s : System) :
  newService options = Some s → TrackerInv s.
Proof.
  unfold newService.
  destruct (loadVocabularies options) as [[vs hp] |]; [| done].
  intros [= <-]. split; simpl; intros *; by rewrite ?lookup_nil.
Qed.

Lemma reachable_TrackerInv (options : Options) (s : System) :
  reachable options s → TrackerInv s.
Proof.
  intros (s0 & sched & Hnew & Hrun).
  eapply (run_invariant TrackerInv); [| exact Hrun |].
  - intros s1 l s2 Hstep. by eapply Step_TrackerInv.
  - by eapply newService_TrackerInv.
Qed.

End Trackers.

Section TrackerTheorems.
Context `{Environment}.

Lemma processHistory_resolved (u : RequestSentence) (s : System) t tr :
  TrackerInv s → trackers s !! t = Some tr → future tr ≠ None →
  trackers (processHistory u s) !! t = Some tr.
Proof.
  intros Hinv Ht Hres.
  destruct (processHistory_cases u s) as [-> | [(req & n & Hreq & Hc & ->)
                                              | (req & Hreq & Hc & _)]];
    [done | done |].
  destruct Hinv as [Hrq _ _]. destruct (Hrq _ _ Hreq) as [Hmine Hwf].
  rewrite (processHistory_last u s req Hreq Hc Hwf). simpl.
  assert (t ≠ promise req) as Hne.
  { intros ->. rewrite Hmine in Ht. injection Ht as <-.
    unfold trackerOf, completed in Hres.
    rewrite bool_decide_eq_false_2 in Hres by (intros [? _]; lia). done. }
  by rewrite !list_lookup_alter_ne by done.
Qed.

Lemma translateBatch_resolved (cpuId : nat) (l : list RequestSentence)
    (s : System) t tr :
  TrackerInv s → trackers s !! t = Some tr → future tr ≠ None →
  trackers (translateBatch cpuId l s) !! t = Some tr.
Proof.
  intros Hinv Ht Hres. unfold translateBatch.
  assert (TrackerInv (emit (ETranslate cpuId l) s)) as Hemit
    by (by destruct Hinv).
  assert (trackers (emit (ETranslate cpuId l) s) !! t = Some tr) as Ht0 by done.
  revert Hemit Ht0. generalize (emit (ETranslate cpuId l) s).
  induction l as [| u rest IH]; intros s0 Hs0 Ht0; simpl; [done |].
  apply IH; [by apply processHistory_TrackerInv |].
  by apply processHistory_resolved.
Qed.

Lemma Step_resolved (s s' : System) (lbl : Label) k tr :
  Step s lbl s' → TrackerInv s →
  trackers s !! k = Some tr → future tr ≠ None →
  trackers s' !! k = Some tr.
Proof.
  intros Hstep Hinv Hk Hres.
  step_cases Hstep; simpl; try done.
  - by apply lookup_app_l_Some.
  - by apply lookup_app_l_Some.
  - (* the request is made: its tracker was open *)
    assert (frameTracker (caller s) = Some t) as Hf
      by (by destruct Hpc as [[-> _] | [-> _]]).
    rewrite prepareRequest_eq. simpl.
    destruct Hinv as [_ _ Hfr]. specialize (Hfr _ Hf).
    assert (t ≠ k) as Hne.
    { intros ->. rewrite Hfr in Hk. by injection Hk as <-. }
    by rewrite !list_lookup_alter_ne by done.
  - apply translateBatch_resolved; [| done | done].
    eapply TrackerInv_frame; [.. | exact Hinv]; done.
  - apply processHistory_resolved; [| done | done].
    eapply TrackerInv_frame; [.. | exact Hinv]; done.
Qed.

Lemma run_resolved (sched : list Label) (s s' : System) t tr :
  run sched s = Some s' → TrackerInv s →
  trackers s !! t = Some tr → future tr ≠ None →
  trackers s' !! t = Some tr.
Proof.
  revert s. induction sched as [| l sched IH]; intros s; simpl.
  - by intros [= <-].
  - destruct (step l s) as [s1 |] eqn:Hs; [| done]. simpl.
    intros Hrun Hinv Ht Hres. apply step_Step in Hs.
    apply (IH s1 Hrun); [by eapply Step_TrackerInv | | done].
    by eapply Step_resolved.
Qed.

(** X2.  In every state of the service a tracker is a rejection
    (REJECTED_MEMORY, the empty response in its future, no request), or the
    tracker of the call in progress before its request is made (UNSET, the
    future open, no request), or the tracker of a request.  The tracker of a
    request that has a sentence is QUEUED with its future open as long as a
    sentence is to come, and SUCCESS with the response to the input of that
    request once none is.  Every request has the tracker that tracks it, and
    no two requests share one. *)
Theorem tracker_tells_the_state_of_its_request (options : Options) (s : System) :
  reachable options s →
  (∀ t tr, trackers s !! t = Some tr →
     tr = mkTracker REJECTED_MEMORY (Some EmptyResponse) None ∨
     (tr = mkTracker UNSET None None ∧ frameTracker (caller s) = Some t) ∨
     ∃ r req,
       requests s !! r = Some req ∧ promise req = t ∧ tracked tr = Some r ∧
       (segments req ≠ [] →
          (0 < counter req ∧ status tr = QUEUED ∧ future tr = None) ∨
          (counter req = 0 ∧ status tr = SUCCESS ∧
           future tr = Some (TranslatedResponse (source req))))) ∧
  (∀ r req, requests s !! r = Some req →
     ∃ tr, trackers s !! promise req = Some tr ∧ tracked tr = Some r) ∧
  (∀ r1 r2 req1 req2,
     requests s !! r1 = Some req1 → requests s !! r2 = Some req2 →
     promise req1 = promise req2 → r1 = r2).
Proof.
  intros Hinv%reachable_TrackerInv. pose proof Hinv as [Hrq Htr Hfr].
  split_and!.
  - intros t tr Ht.
    destruct (Htr _ _ Ht) as [-> | [[-> Hf] | (r & req & Hr & Hp)]];
      [by left | by right; left |].
    right. right. exists r, req. destruct (Hrq _ _ Hr) as [Hmine _].
    rewrite Hp, Ht in Hmine. injection Hmine as ->.
    split_and!; [done | done | apply tracked_trackerOf |].
    intros Hsegs. unfold trackerOf, completed.
    destruct (decide (counter req = 0)) as [Hz | Hnz].
    + right. by rewrite bool_decide_eq_true_2.
    + left. rewrite bool_decide_eq_false_2 by (by intros [? _]).
      split_and!; [lia | done | done].
  - intros r req Hr. destruct (Hrq _ _ Hr) as [Hmine _].
    eexists. split; [exact Hmine | apply tracked_trackerOf].
  - intros r1 r2 req1 req2. by apply TrackerInv_promise.
Qed.

(** X3.  A tracker whose future holds a response never changes again,
    whatever the client and the workers do: a promise is given its value
    once, and REJECTED_MEMORY and SUCCESS are final. *)
Theorem resolved_tracker_is_final (options : Options) (s s' : System)
    (sched : list Label) (t : nat) (tr : RequestTracker) :
  reachable options s →
  run sched s = Some s' →
  trackers s !! t = Some tr →
  future tr ≠ None →
  trackers s' !! t = Some tr.
Proof.
  intros Hinv%reachable_TrackerInv Hrun Ht Hres. by eapply run_resolved.
Qed.

End TrackerTheorems.

Lemma countOf_app r l1 l2 : countOf r (l1 ++ l2) = countOf r l1 + countOf r l2.
Proof. unfold countOf. by rewrite filter_app, length_app. Qed.

Lemma countOf_cons r u l :
  countOf r (u :: l) = (if decide (u.1 = r) then 1 else 0) + countOf r l.
Proof. unfold countOf. rewrite filter_cons. by destruct (decide (u.1 = r)). Qed.

Lemma countOf_perm r l1 l2 : l1 ≡ₚ l2 → countOf r l1 = countOf r l2.
Proof. intros Hp. unfold countOf. by rewrite Hp. Qed.

Lemma countOf_fmap_pair r r' (l : list nat) :
  countOf r ((λ i, (r', i)) <$> l) = if decide (r' = r) then length l else 0.
Proof.
  induction l as [| i l IH].
  - by destruct (decide (r' = r)).
  - rewrite fmap_cons, countOf_cons, IH. simpl. by destruct (decide (r' = r)).
Qed.

Lemma countOf_sentencesOf r r' req :
  countOf r (sentencesOf r' req) =
  if decide (r' = r) then length (segments req) else 0.
Proof. unfold sentencesOf. by rewrite countOf_fmap_pair, length_seq. Qed.

Lemma Counted_perm reqs l1 l2 : l1 ≡ₚ l2 → Counted reqs l1 → Counted reqs l2.
Proof. intros Hp Hc r. rewrite <- (countOf_perm r _ _ Hp). apply Hc. Qed.

Lemma bind_insert_perm {A B} (f : A → list B) (l : list A) i x y :
  l !! i = Some x → f y ++ (l ≫= f) ≡ₚ f x ++ (<[i := y]> l ≫= f).
Proof.
  revert i. induction l as [| a l IH]; intros [| i] Hi; simplify_eq/=.
  - by rewrite !app_assoc, (Permutation_app_comm (f y)).
  - rewrite !app_assoc, (Permutation_app_comm (f y)), <- app_assoc.
    rewrite (IH i Hi). by rewrite !app_assoc, (Permutation_app_comm (f x)).
Qed.

Section FlowLemmas.
Context `{Environment}.

Lemma callback_requests (c : Callback) (s : System) :
  requests (callback c s) = requests s.
Proof. by destruct c. Qed.

(** What [processHistory] does to the requests. *)
Lemma processHistory_requests (u : RequestSentence) (s : System) :
  requests (processHistory u s) =
  match requests s !! u.1 with
  | Some req =>
      match counter req with
      | 0 => requests s
      | S n => <[u.1 := with_counter n req]> (requests s)
      end
  | None => requests s
  end.
Proof.
  unfold processHistory. destruct (requests s !! u.1) as [req |]; [| done].
  destruct (counter req) as [| n]; [done |].
  case_bool_decide; [| done]. unfold completeRequest. simpl.
  destruct (_ !! u.1) as [req' |]; [| done].
  set (s0 := set_value _ _ _).
  assert (requests s0 = <[u.1 := with_counter n req]> (requests s)) as <- by done.
  generalize s0. induction (callbacks req') as [| c cs IH]; intros s1; simpl;
    [done |].
  by rewrite IH, callback_requests.
Qed.

Lemma processHistory_outstanding (u : RequestSentence) (s : System) :
  outstanding (processHistory u s) = outstanding s.
Proof.
  pose proof (processHistory_shell u s) as Hs. unfold outstanding.
  assert (batcher_ (processHistory u s) = batcher_ s) as ->
    by (by apply (f_equal batcher_) in Hs).
  assert (pcqueue_ (processHistory u s) = pcqueue_ s) as ->
    by (by apply (f_equal pcqueue_) in Hs).
  assert (threads (processHistory u s) = threads s) as ->
    by (by apply (f_equal threads) in Hs).
  done.
Qed.

(** The translation of a sentence takes it off the count of its
    request. *)
Lemma processHistory_Counted (u : RequestSentence) (s : System)
    (l : list RequestSentence) :
  Counted (requests s) (u :: l) → Counted (requests (processHistory u s)) l.
Proof.
  intros Hc r. pose proof (Hc r) as Hr. pose proof (Hc u.1) as Hu.
  rewrite countOf_cons in Hr, Hu. rewrite decide_True in Hu by done.
  rewrite processHistory_requests.
  destruct (requests s !! u.1) as [req |] eqn:Hreq; simpl in Hu; [| lia].
  destruct (counter req) as [| n] eqn:Hn; [lia |].
  destruct (decide (u.1 = r)) as [<- | Hne].
  - rewrite list_lookup_insert_eq by (by eapply lookup_lt_Some). simpl. lia.
  - rewrite list_lookup_insert_ne by done. simpl in Hr. lia.
Qed.

Lemma foldl_processHistory_Counted (l rest : list RequestSentence) (s : System) :
  Counted (requests s) (l ++ rest) →
  Counted (requests (foldl (λ s u, processHistory u s) s l)) rest.
Proof.
  revert s. induction l as [| u l IH]; intros s; simpl; [done |].
  intros Hc. apply IH. by apply processHistory_Counted.
Qed.

Lemma translateBatch_outstanding (cpuId : nat) (l : list RequestSentence)
    (s : System) :
  outstanding (translateBatch cpuId l s) = outstanding s.
Proof.
  destruct (translateBatch_engine cpuId l s) as (He & Hb & _).
  unfold outstanding. rewrite Hb.
  injection He as _ _ _ Hq _ _ Hth. by rewrite Hq, Hth.
Qed.

End FlowLemmas.

Lemma countOf_bind_insert {A} (f : A → list RequestSentence) r (l : list A) i x y :
  l !! i = Some x →
  countOf r (<[i := y]> l ≫= f) + countOf r (f x) =
  countOf r (l ≫= f) + countOf r (f y).
Proof.
  intros Hi. pose proof (countOf_perm r _ _ (bind_insert_perm f l i x y Hi)) as Hp.
  rewrite !countOf_app in Hp. lia.
Qed.

Section FlowSteps.
Context `{Environment} `{!BatcherLaws}.

Lemma FlowInv_frame (s s' : System) :
  batcher_ s' = batcher_ s → pcqueue_ s' = pcqueue_ s →
  threads s' = threads s → requests s' = requests s →
  match caller s' with
  | QueueInBackground_produce _ | TranslatePart_drain _ => True
  | _ => pending (batcher_ s) = []
  end →
  FlowInv s → FlowInv s'.
Proof.
  intros Hb Hq Ht Hr Hidle [Hc _].
  split; unfold outstanding in *; rewrite ?Hb, ?Hq, ?Ht, ?Hr; done.
Qed.

(** Where the client is outside a call of [translatePart], or at its
    beginning, the batcher is empty. *)
Lemma FlowInv_idle (s : System) :
  FlowInv s →
  (∀ t, caller s ≠ QueueInBackground_produce t) →
  (∀ t, caller s ≠ TranslatePart_drain t) →
  pending (batcher_ s) = [].
Proof.
  intros [_ Hidle] Hp Hd.
  destruct (caller s) as [| | | t | | t | | | |]; try done.
  - by destruct (Hp t).
  - by destruct (Hd t).
Qed.

Lemma Step_FlowInv (s s' : System) (lbl : Label) :
  Step s lbl s' → FlowInv s → FlowInv s'.
Proof.
  intros Hstep Hinv.
  assert ((∀ t, caller s ≠ QueueInBackground_produce t) →
          (∀ t, caller s ≠ TranslatePart_drain t) →
          pending (batcher_ s) = []) as Hidle by (by apply FlowInv_idle).
  step_cases Hstep;
    try (eapply FlowInv_frame; [.. | exact Hinv]; simpl; try done;
         apply Hidle; intros ?; rewrite Hpc; done).
  - (* cancel *)
    assert (pending (batcher_ s) = []) as Hnil
      by (apply Hidle; intros ?; by rewrite Hpc).
    destruct Hinv as [Hc _]. split; simpl.
    + unfold outstanding in *. simpl. by rewrite pending_cancel, Hnil in *.
    + by rewrite pending_cancel, Hnil.
  - (* amend: nothing is pending *)
    assert (pending (batcher_ s) = []) as Hnil
      by (apply Hidle; intros ?; by rewrite Hpc).
    by rewrite Hnil in Hex.
  - (* the request goes to the batcher *)
    assert (pending (batcher_ s) = []) as Hnil
      by (apply Hidle; intros ?; by destruct Hpc as [[-> _] | [-> _]]).
    rewrite prepareRequest_eq. destruct Hinv as [Hc _].
    split; simpl; [| by destruct Hpc as [[_ ->] | [_ ->]]].
    intros r0. specialize (Hc r0). unfold outstanding in *. simpl.
    rewrite countOf_app in *.
    rewrite (countOf_perm r0 _ _ (pending_add _ _ _)), countOf_app.
    rewrite Hnil in *. rewrite countOf_sentencesOf. simpl in *.
    destruct (decide (length (requests s) = r0)) as [<- | Hne].
    + rewrite lookup_snoc. simpl.
      rewrite lookup_ge_None_2 in Hc by done. simpl in Hc. lia.
    + destruct (decide (r0 < length (requests s))) as [Hlt | Hge].
      * by rewrite lookup_app_l by done.
      * rewrite lookup_ge_None_2 in Hc by lia.
        rewrite lookup_ge_None_2 by (rewrite length_app; simpl; lia). done.
  - (* a batch goes to the queue *)
    apply ProduceSwap_Some in Hq as [_ ->].
    apply cleave_some in Hc as [_ Hperm]. destruct Hinv as [Hcount _].
    split; simpl; [| by rewrite Hpc].
    intros r0. specialize (Hcount r0). unfold outstanding in *. simpl.
    rewrite bind_app, !countOf_app in *.
    rewrite (countOf_perm r0 _ _ Hperm), countOf_app in Hcount.
    simpl. rewrite app_nil_r. lia.
  - (* a batch is translated in place *)
    apply cleave_some in Hc as [_ Hperm]. destruct Hinv as [Hcount _].
    destruct (translateBatch_engine 0 l (set_batcher b' s)) as (_ & _ & Hcaller).
    split; [| by rewrite Hcaller; simpl; rewrite Hpc].
    rewrite translateBatch_outstanding. unfold translateBatch.
    apply foldl_processHistory_Counted. simpl.
    eapply Counted_perm; [| exact Hcount].
    unfold outstanding. simpl. by rewrite Hperm, <- app_assoc.
  - (* the call returns: the batcher is empty *)
    apply cleave_none in Hc.
    eapply FlowInv_frame; [.. | exact Hinv]; simpl; try done.
  - (* a poison goes to the queue *)
    apply ProduceSwap_Some in Hq as [_ ->]. destruct Hinv as [Hcount _].
    split; simpl; [| apply Hidle; intros ?; by rewrite Hpc].
    unfold outstanding in *. simpl. rewrite bind_app. simpl.
    by rewrite app_nil_r.
  - (* the list is cleared *)
    assert (pending (batcher_ s) = []) as Hnil
      by (apply Hidle; intros ?; by rewrite Hpc).
    eapply FlowInv_frame; [.. | exact Hinv]; simpl; try done. by destruct d.
  - (* a worker is ready *)
    destruct Hinv as [Hcount Hid]. split; simpl; [| done].
    intros r0. specialize (Hcount r0). unfold outstanding in *. simpl.
    rewrite !countOf_app in *.
    pose proof (countOf_bind_insert inHand r0 _ _ _ Consuming Hth) as Hins.
    simpl in *. change (countOf r0 []) with 0 in Hins. clear -Hins Hcount. lia.
  - (* a worker takes the poison *)
    apply ConsumeSwap_Some in Hq as [Hitems _].
    destruct Hinv as [Hcount Hid]. split; simpl; [| done].
    intros r0. specialize (Hcount r0). unfold outstanding in *. simpl.
    rewrite Hitems in Hcount. rewrite bind_cons in Hcount.
    rewrite !countOf_app in *.
    pose proof (countOf_bind_insert inHand r0 _ _ _ Exited Hth) as Hins.
    simpl in *. clear -Hins Hcount. lia.
  - (* a worker takes a batch *)
    apply ConsumeSwap_Some in Hq as [Hitems _].
    destruct Hinv as [Hcount Hid]. split; simpl; [| done].
    intros r0. specialize (Hcount r0). unfold outstanding in *. simpl.
    rewrite Hitems in Hcount. rewrite bind_cons in Hcount.
    rewrite !countOf_app in *.
    pose proof (countOf_bind_insert inHand r0 _ _ _ (Translating l) Hth)
      as Hins.
    simpl in *. change (countOf r0 []) with 0 in Hins. clear -Hins Hcount. lia.
  - (* a worker has translated its batch *)
    destruct Hinv as [Hcount Hid]. split; simpl; [| done].
    intros r0. specialize (Hcount r0). unfold outstanding in *. simpl.
    rewrite !countOf_app in *.
    pose proof (countOf_bind_insert inHand r0 _ _ _ Consuming Hth) as Hins.
    simpl in *. change (countOf r0 []) with 0 in Hins. clear -Hins Hcount. lia.
  - (* a worker translates a sentence *)
    destruct Hinv as [Hcount Hid].
    set (s0 := set_threads _ s).
    pose proof (processHistory_shell u s0) as Hshell.
    split.
    + rewrite processHistory_outstanding. apply processHistory_Counted.
      intros r0. specialize (Hcount r0). unfold outstanding in *. simpl.
      rewrite countOf_cons, !countOf_app in *.
      pose proof (countOf_bind_insert inHand r0 _ _ _ (Translating rest) Hth)
        as Hins.
      simpl in Hins. rewrite countOf_cons in Hins. clear -Hins Hcount. lia.
    + assert (caller (processHistory u s0) = caller s) as ->
        by (by apply (f_equal caller) in Hshell).
      assert (batcher_ (processHistory u s0) = batcher_ s) as ->
        by (by apply (f_equal batcher_) in Hshell).
      done.
Qed.

Lemma newService_FlowInv (options : Options) (s : System) :
  newService options = Some s → FlowInv s.
Proof.
  unfold newService.
  destruct (loadVocabularies options) as [[vs hp] |]; [| done].
  intros [= <-]. split; simpl; [| apply pending_new].
  intros r. unfold outstanding. simpl. rewrite pending_new. simpl.
  transitivity 0; [| by destruct r].
  induction (cpu_threads options) as [| n IH]; [done |].
  simpl. exact IH.
Qed.

Lemma reachable_FlowInv (options : Options) (s : System) :
  reachable options s → FlowInv s.
Proof.
  intros (s0 & sched & Hnew & Hrun).
  eapply (run_invariant FlowInv); [| exact Hrun |].
  - intros s1 l s2 Hstep. by eapply Step_FlowInv.
  - by eapply newService_FlowInv.
Qed.

End FlowSteps.

Lemma heldBy_completed (reqs : list Request) :
  Forall (λ req, completed req = true) reqs → heldBy reqs = 0%Z.
Proof.
  induction 1 as [| req reqs Hreq _ IH]; simpl; [done |].
  unfold held. rewrite Hreq, IH. done.
Qed.

Section FlowTheorems.
Context `{Environment} `{!BatcherLaws}.

Lemma quiescent_counters (options : Options) (s : System) r req :
  reachable options s → outstanding s = [] →
  requests s !! r = Some req → counter req = 0.
Proof.
  intros [Hcount _]%reachable_FlowInv Hquiet Hr.
  specialize (Hcount r). rewrite Hquiet, Hr in Hcount. simpl in Hcount.
  by rewrite <- Hcount.
Qed.

Lemma quiescent_answered (options : Options) (s : System) r req :
  reachable options s → outstanding s = [] →
  requests s !! r = Some req → segments req ≠ [] →
  trackers s !! promise req =
    Some (mkTracker SUCCESS (Some (TranslatedResponse (source req))) (Some r)).
Proof.
  intros Hreach Hquiet Hr Hsegs.
  pose proof (quiescent_counters _ _ _ _ Hreach Hquiet Hr) as Hzero.
  destruct (reachable_TrackerInv _ _ Hreach) as [Hrq _ _].
  destruct (Hrq _ _ Hr) as [Hmine _]. rewrite Hmine.
  unfold trackerOf, completed. by rewrite bool_decide_eq_true_2.
Qed.

(** X4.  Whenever the client is outside a call, the batcher holds no
    sentence: every request it was given has been handed on in full, to the
    queue or to the translator.  So a call of [cancel] launches its task
    and finds nothing to cancel, and a call of [amend] launches its task
    and changes nothing else. *)
Theorem batcher_is_empty_between_calls (options : Options) (s : System)
    (ret : option nat) :
  reachable options s →
  caller s = Outside ret →
  pending (batcher_ s) = [] ∧
  (∀ t, pending (batcher_ (cancel t s)) = [] ∧
        requests (cancel t s) = requests s ∧
        trackers (cancel t s) = trackers s ∧
        capacityBytes_ (cancel t s) = capacityBytes_ s ∧
        log (cancel t s) = log s ++ [EAsync (CancelClosure t)]) ∧
  (∀ t priority,
     amend t priority s =
       set_caller (Outside None) (emit (EAsync (AmendClosure t priority)) s)).
Proof.
  intros Hinv%reachable_FlowInv Hpc.
  assert (pending (batcher_ s) = []) as Hnil.
  { apply (FlowInv_idle s Hinv); intros t; by rewrite Hpc. }
  split_and!; [done | |].
  - intros t. rewrite cancel_eq.
    destruct (trackedRequest t s) as [r |]; simpl; [| done].
    by rewrite pending_cancel, Hnil.
  - intros t priority. rewrite amend_eq.
    destruct (trackedRequest t s) as [r |]; [| done].
    by rewrite Hnil.
Qed.

(** X5.  When no sentence is on its way, that is, the batcher, the queue and
    the workers hold none, every request has had all its sentences
    translated, and every request that has a sentence has its answer: its
    tracker is SUCCESS and the future holds the response to its input.  If
    moreover every request has a sentence and no call is in progress, the
    capacity is the configured budget again. *)
Theorem quiescent_service_has_answered (options : Options) (s : System) :
  reachable options s →
  outstanding s = [] →
  (∀ r req, requests s !! r = Some req → counter req = 0) ∧
  (∀ r req, requests s !! r = Some req → segments req ≠ [] →
     trackers s !! promise req =
       Some (mkTracker SUCCESS (Some (TranslatedResponse (source req)))
               (Some r))) ∧
  (Representable (capacity_bytes options) →
   Forall (λ req, segments req ≠ []) (requests s) →
   (∃ ret, caller s = Outside ret) →
   capacityBytes_ s = capacity_bytes options).
Proof.
  intros Hreach Hquiet.
  assert (∀ r req, requests s !! r = Some req → counter req = 0) as Hzero
    by (intros r req; by apply (quiescent_counters options)).
  split_and!; [done | |].
  - intros r req. by apply (quiescent_answered options).
  - intros HC Hall (ret & Hpc).
    pose proof (reachable_inv _ HC options s eq_refl Hreach) as [Hacc _ _ _].
    unfold inFlightBytes in Hacc. rewrite Hpc in Hacc. simpl in Hacc.
    rewrite heldBy_completed in Hacc; [lia |].
    apply Forall_lookup_2. intros r req Hr.
    unfold completed. apply bool_decide_eq_true_2. split; [by eapply Hzero |].
    by eapply (Forall_lookup_1 _ _ _ _ Hall).
Qed.

End FlowTheorems.

Section Calls.
Context `{Environment}.

Lemma callback_trackers_length (c : Callback) (s : System) :
  length (trackers (callback c s)) = length (trackers s).
Proof. destruct c. simpl. by rewrite length_alter. Qed.

Lemma processHistory_trackers_length (u : RequestSentence) (s : System) :
  length (trackers (processHistory u s)) = length (trackers s).
Proof.
  destruct (processHistory_cases u s) as [-> | [(req & n & Hreq & Hc & ->)
                                              | (req & Hreq & Hc & ->)]];
    [done | done |].
  set (s0 := set_value _ _ _).
  assert (length (trackers s0) = length (trackers s)) as <-
    by (simpl; by rewrite length_alter).
  generalize s0. induction (callbacks req) as [| c cs IH]; intros s1; simpl;
    [done |].
  by rewrite IH, callback_trackers_length.
Qed.

(** The translation of a sentence changes nothing of a request but its
    counter. *)
Lemma processHistory_madeFrom (u : RequestSentence) (s : System) r id line
    input t :
  (∃ req, requests s !! r = Some req ∧ madeFrom id line input t req) →
  ∃ req, requests (processHistory u s) !! r = Some req ∧
         madeFrom id line input t req.
Proof.
  intros (req & Hr & Hmade). rewrite processHistory_requests.
  destruct (requests s !! u.1) as [req' |] eqn:Hu; [| eauto].
  destruct (counter req') as [| n]; [eauto |].
  destruct (decide (u.1 = r)) as [<- | Hne].
  - exists (with_counter n req'). split.
    + apply list_lookup_insert_eq. by eapply lookup_lt_Some.
    + assert (req' = req) as -> by congruence. exact Hmade.
  - exists req. by rewrite list_lookup_insert_ne.
Qed.

Lemma processHistory_requests_length (u : RequestSentence) (s : System) :
  length (requests (processHistory u s)) = length (requests s).
Proof.
  rewrite processHistory_requests.
  destruct (requests s !! u.1) as [req |]; [| done].
  destruct (counter req); [done |]. by rewrite length_insert.
Qed.

Lemma processHistory_CallInv (u : RequestSentence) (s : System) t r id line
    input :
  CallInv t r id line input s → CallInv t r id line input (processHistory u s).
Proof.
  unfold CallInv. intros [Hlen Hpc].
  pose proof (processHistory_shell u s) as Hshell.
  assert (caller (processHistory u s) = caller s) as ->
    by (by apply (f_equal caller) in Hshell).
  assert (requestId_ (processHistory u s) = requestId_ s) as ->
    by (by apply (f_equal requestId_) in Hshell).
  rewrite processHistory_trackers_length, processHistory_requests_length.
  split; [done |].
  destruct (caller s) as [[t' |] | | | | | | | | |]; try done;
    destruct Hpc as (? & ? & Hreq); split_and!; try done;
    by apply processHistory_madeFrom.
Qed.

Lemma translateBatch_CallInv (cpuId : nat) (l : list RequestSentence)
    (s : System) t r id line input :
  CallInv t r id line input s →
  CallInv t r id line input (translateBatch cpuId l s).
Proof.
  intros Hinv. unfold translateBatch.
  assert (CallInv t r id line input (emit (ETranslate cpuId l) s)) as Hemit
    by done.
  revert Hemit. generalize (emit (ETranslate cpuId l) s).
  induction l as [| u rest IH]; intros s0 Hs0; simpl; [done |].
  apply IH. by apply processHistory_CallInv.
Qed.

Lemma Step_CallInv (s s' : System) (lbl : Label) t0 r0 id0 line0 input0 :
  Step s lbl s' → isCall lbl = false →
  CallInv t0 r0 id0 line0 input0 s → CallInv t0 r0 id0 line0 input0 s'.
Proof.
  intros Hstep Hlbl Hfull. pose proof Hfull as [Hlen Hinv].
  step_cases Hstep; try done; unfold CallInv; simpl;
    try (rewrite Hpc in Hinv; done).
  - (* the request is made *)
    rewrite prepareRequest_eq. simpl. rewrite !length_alter, length_app. simpl.
    split; [done |].
    assert (t = t0 ∧ input = input0 ∧ line = line0 ∧
            length (requests s) = r0 ∧ requestId_ s = id0)
      as (-> & -> & -> & <- & <-).
    { by destruct Hpc as [[Hpc _] | [Hpc _]]; rewrite Hpc in Hinv. }
    assert (∃ req, (requests s ++ [mkRequest (requestId_ s) line0 20 input0
                       (process input0).1 (process input0).2 t0
                       (length (process input0).1)
                       [CompletionCallback t0 (inputBytes input0)]])
                     !! length (requests s) = Some req ∧
                   madeFrom (requestId_ s) line0 input0 t0 req) as Hmade.
    { eexists. split; [apply lookup_snoc | done]. }
    destruct Hpc as [[_ ->] | [_ ->]];
      (split; [done | split; [lia | exact Hmade]]).
  - (* a batch is translated in place *)
    apply translateBatch_CallInv. exact Hfull.
  - (* the call returns *)
    split; [done |]. by destruct Hpc as [Hpc | Hpc]; rewrite Hpc in Hinv.
  - (* a worker translates a sentence *)
    apply processHistory_CallInv. exact Hfull.
Qed.

End Calls.

Section CallTheorems.
Context `{Environment}.

Lemma reachable_step (options : Options) (s s' : System) (l : Label) :
  reachable options s → step l s = Some s' → reachable options s'.
Proof.
  intros (s0 & sched & Hnew & Hrun) Hstep.
  exists s0, (sched ++ [l]). split; [done |].
  clear Hnew. revert s0 Hrun. induction sched as [| l0 sched IH]; intros s0;
    simpl.
  - intros [= ->]. by rewrite Hstep.
  - destruct (step l0 s0) as [s1 |]; [| done]. simpl. apply IH.
Qed.

Lemma reachable_run (options : Options) (s s' : System) (sched : list Label) :
  reachable options s → run sched s = Some s' → reachable options s'.
Proof.
  revert s. induction sched as [| l sched IH]; intros s Hs; simpl.
  - by intros [= <-].
  - destruct (step l s) as [s1 |] eqn:Hstep; [| done]. simpl.
    apply IH. by eapply reachable_step.
Qed.

(** An accepted call, as it enters. *)
Lemma admitted_CallInv (c : Call) (input : string) (line : Z) (s : System) :
  submitsAt c input line →
  (inputBytes input ≤ asSize (capacityBytes_ s))%Z →
  CallInv (length (trackers s)) (length (requests s)) (requestId_ s)
    line input (enter c s).
Proof.
  intros Hc Hfits. rewrite (enter_submitsAt _ _ _ _ Hc).
  unfold translatePart, CallInv. simpl.
  rewrite bool_decide_eq_false_2 by lia. simpl.
  rewrite length_app. simpl. split; [lia | done].
Qed.

Lemma run_CallInv (sched : list Label) (s s' : System) t r id line input :
  forallb (λ l, negb (isCall l)) sched = true →
  run sched s = Some s' →
  CallInv t r id line input s → CallInv t r id line input s'.
Proof.
  apply (run_invariant_call (CallInv t r id line input)).
  intros s1 l s2 Hstep Hl. by eapply Step_CallInv.
Qed.

(** X6.  A submission that passes the test of line 75 makes exactly one
    request, whatever the workers do meanwhile: when the call has returned,
    it has returned the one tracker it made, and the service has one more
    request, with the id the counter held, the line number of the call
    (0 through [translate]), priority 20, the input and its segments, and
    the tracker of the call tracks it. *)
Theorem accepted_submission_makes_one_request (options : Options)
    (s s' : System) (c : Call) (input : string) (line : Z) (ret : option nat)
    (sched : list Label) :
  reachable options s →
  caller s = Outside ret →
  submitsAt c input line →
  (inputBytes input ≤ asSize (capacityBytes_ s))%Z →
  forallb (λ l, negb (isCall l)) sched = true →
  run (LCall c :: sched) s = Some s' →
  returned (caller s') = true →
  let t := length (trackers s) in
  let r := length (requests s) in
  caller s' = Outside (Some t) ∧
  length (trackers s') = S t ∧
  length (requests s') = S r ∧
  ∃ req tr,
    requests s' !! r = Some req ∧
    Id req = requestId_ s ∧ lineNumberBegin req = line ∧ nice req = 20%Z ∧
    source req = input ∧ segments req = (process input).1 ∧
    sourceRanges req = (process input).2 ∧ promise req = t ∧
    trackers s' !! t = Some tr ∧ tracked tr = Some r.
Proof.
  intros Hreach Hpc Hc Hfits Hsched Hrun Hret t r.
  assert (reachable options s') as Hreach' by (by eapply reachable_run).
  simpl in Hrun. rewrite Hpc in Hrun. simpl in Hrun.
  pose proof (run_CallInv _ _ _ _ _ _ _ _ Hsched Hrun
                (admitted_CallInv c input line s Hc Hfits)) as [Hlen Hinv].
  destruct (caller s') as [[t' |] | | | | | | | | |]; try done.
  destruct Hinv as (-> & Hreqs & req & Hr & Hmade).
  split_and!; [done | done | done |].
  pose proof (reachable_TrackerInv _ _ Hreach') as [Hrq _ _].
  destruct (Hrq _ _ Hr) as [Hmine _].
  destruct Hmade as (? & ? & ? & ? & ? & ? & Hp).
  exists req, (trackerOf r req).
  rewrite Hp in Hmine.
  split_and!; try done. apply tracked_trackerOf.
Qed.

End CallTheorems.

Section ConfigurationTheorems.
Context `{Environment}.

Lemma translateBatch_log (cpuId : nat) (l : list RequestSentence) (s : System) :
  log (translateBatch cpuId l s) = log s ++ [ETranslate cpuId l].
Proof.
  pose proof (foldl_processHistory_shell l (emit (ETranslate cpuId l) s)) as Hs.
  fold (translateBatch cpuId l s) in Hs. by apply (f_equal log) in Hs.
Qed.

Lemma processHistory_ConfigInv options (u : RequestSentence) (s : System) :
  ConfigInv options s → ConfigInv options (processHistory u s).
Proof.
  pose proof (processHistory_shell u s) as Hs. intros [].
  assert (numWorkers_ (processHistory u s) = numWorkers_ s) as Hn
    by (by apply (f_equal numWorkers_) in Hs).
  assert (vocabs_ (processHistory u s) = vocabs_ s) as Hv
    by (by apply (f_equal vocabs_) in Hs).
  assert (translators_ (processHistory u s) = translators_ s) as Ht
    by (by apply (f_equal translators_) in Hs).
  assert (pcqueue_ (processHistory u s) = pcqueue_ s) as Hq
    by (by apply (f_equal pcqueue_) in Hs).
  assert (threads (processHistory u s) = threads s) as Hth
    by (by apply (f_equal threads) in Hs).
  assert (workers_ (processHistory u s) = workers_ s) as Hw
    by (by apply (f_equal workers_) in Hs).
  assert (log (processHistory u s) = log s) as Hl
    by (by apply (f_equal log) in Hs).
  assert (caller (processHistory u s) = caller s) as Hc
    by (by apply (f_equal caller) in Hs).
  split; rewrite ?Hn, ?Hv, ?Ht, ?Hq, ?Hth, ?Hw, ?Hl, ?Hc; done.
Qed.

Lemma Step_ConfigInv options (s s' : System) (lbl : Label) :
  Step s lbl s' → ConfigInv options s → ConfigInv options s'.
Proof.
  intros Hstep Hinv.
  pose proof Hinv as [Inum Ivoc Itr Ibound Iqueue Ithreads Icrew Ilog Iframe].
  step_cases Hstep;
    try (split; simpl; try done;
         first [ by rewrite Hpc in Iframe
               | by destruct Hpc as [-> | ->]
               | by (apply Forall_app; split;
                     [done | by apply Forall_singleton]) ]).
  - (* the task is launched *)
    split; simpl; try done.
    + apply Forall_app. split; [done |]. apply Forall_singleton. simpl. lia.
    + lia.
  - (* the request is to be made in place *)
    split; simpl; try done. lia.
  - (* the request is made *)
    rewrite prepareRequest_eq. split; simpl; try done.
    + apply Forall_app. split; [done |]. by repeat constructor.
    + by destruct Hpc as [[Hpc ->] | [Hpc ->]]; rewrite Hpc in Iframe.
  - (* a batch goes to the queue *)
    apply ProduceSwap_Some in Hq as [Hroom ->].
    rewrite Hpc in Iframe. simpl in Iframe.
    split; simpl; try done.
    + rewrite length_app. simpl. lia.
    + apply Forall_app. split; [done |]. by apply Forall_singleton.
    + by rewrite Hpc.
  - (* a batch is translated in place *)
    destruct (translateBatch_engine 0 l (set_batcher b' s)) as (He & _ & Hc').
    injection He as _ Hn' Hv' Hq' Hw' Ht' Hth'. simpl in *.
    split; rewrite ?Hn', ?Hv', ?Hq', ?Hw', ?Ht', ?Hth', ?Hc',
                   ?translateBatch_log; simpl; try done.
    apply Forall_app. split; [done |]. apply Forall_singleton. simpl.
    destruct Htr as [x Hx]. by eapply lookup_lt_Some.
  - (* a poison goes to the queue *)
    apply ProduceSwap_Some in Hq as [Hroom ->].
    split; simpl; try done.
    + rewrite length_app. simpl. lia.
    + apply Forall_app. split; [done |]. apply Forall_singleton. simpl.
      destruct Icrew as [Hnil | Hseq]; rewrite ?Hnil, ?Hseq in Hw; [done |].
      apply lookup_seq in Hw. lia.
  - (* a thread is joined *)
    split; simpl; try done.
    apply Forall_app. split; [done |]. apply Forall_singleton. simpl.
    apply lookup_lt_Some in Hth. lia.
  - (* the list is cleared *)
    split; simpl; try done; [by left | by destruct d].
  - split; simpl; try done. by rewrite length_insert.
  - apply ConsumeSwap_Some in Hq as [Hitems Hbound].
    rewrite Hitems in Iqueue. simpl in Iqueue.
    split; simpl; try done; rewrite ?length_insert; try lia.
  - apply ConsumeSwap_Some in Hq as [Hitems Hbound].
    rewrite Hitems in Iqueue. simpl in Iqueue.
    split; simpl; try done; rewrite ?length_insert; try lia.
    apply Forall_app. split; [done |]. apply Forall_singleton. simpl.
    apply lookup_lt_Some in Hth. rewrite Itr. case_bool_decide; [lia |].
    rewrite length_seq. lia.
  - split; simpl; try done. by rewrite length_insert.
  - apply processHistory_ConfigInv.
    split; simpl; try done. by rewrite length_insert.
Qed.

Lemma newService_ConfigInv (options : Options) (s : System) :
  newService options = Some s → ConfigInv options s.
Proof.
  unfold newService.
  destruct (loadVocabularies options) as [[vs hp] |] eqn:Hload; [| done].
  intros [= <-]. split; simpl; try done.
  - by exists hp.
  - lia.
  - by rewrite length_replicate.
  - by right.
Qed.

Lemma reachable_ConfigInv (options : Options) (s : System) :
  reachable options s → ConfigInv options s.
Proof.
  intros (s0 & sched & Hnew & Hrun).
  eapply (run_invariant (ConfigInv options)); [| exact Hrun |].
  - intros s1 l s2 Hstep. by eapply Step_ConfigInv.
  - by eapply newService_ConfigInv.
Qed.

End ConfigurationTheorems.

Section ConfigurationTheorem.
Context `{Environment}.

(** X7.  What the constructor makes of the options stays as it is for the
    life of the service: the number of workers, the vocabularies loaded, the
    translators (one for device 0 without workers, else one for each worker),
    the bound of the queue (twice the number of workers), which the queue
    never exceeds, and the number of threads; the list of threads is the one
    the constructor made or, after [stop], empty.  Every batch was translated
    by a translator that exists and every thread joined is one of the
    threads; without workers [translatePart] launches no task and nothing is
    pushed into the queue, the only tasks being those that [cancel] and
    [amend] launch in either mode; and [translatePart] goes the way of line
    126 only without workers, the way of line 122 only with workers. *)
Theorem service_configuration_is_fixed (options : Options) (s : System) :
  reachable options s →
  let n := cpu_threads options in
  numWorkers_ s = n ∧
  (∃ hp, loadVocabularies options = Some (vocabs_ s, hp)) ∧
  translators_ s = (if bool_decide (n = 0) then [0] else seq 0 n) ∧
  bound (pcqueue_ s) = 2 * n ∧
  length (items (pcqueue_ s)) ≤ 2 * n ∧
  length (threads s) = n ∧
  (workers_ s = [] ∨ workers_ s = seq 0 n) ∧
  Forall (eventFits n (length (translators_ s))) (log s) ∧
  (n = 0 →
   (EAsync QueueInBackground ∉ log s) ∧ (∀ b, EProduce b ∉ log s)) ∧
  frameFits n (caller s).
Proof.
  intros [? ? ? ? ? ? ? Hlog ?]%reachable_ConfigInv. split_and!; try done.
  intros Hzero. rewrite Forall_forall in Hlog.
  split; [| intros b]; intros Hin%Hlog; simpl in Hin; lia.
Qed.

End ConfigurationTheorem.

Section AdmissionTheorem.
Context `{Environment}.
Variable options : Options.
Hypothesis HC : Representable (capacity_bytes options).

(** X8.  The admission test is on the size alone, and it is not strict: a
    submission is rejected exactly when its input has more bytes than the
    capacity left.  One that has as many or fewer is accepted with a tracker
    that is UNSET, and the next step of the call takes its bytes off the
    capacity, which stays at 0 or above; so an input of exactly the capacity
    left is accepted and leaves none, and the empty input is accepted
    always. *)
Theorem admission_is_by_size (s : System) (c : Call) (input : string)
    (line : Z) (ret : option nat) :
  reachable options s →
  caller s = Outside ret →
  submitsAt c input line →
  let t := length (trackers s) in
  ∃ s',
    step (LCall c) s = Some s' ∧
    ((capacityBytes_ s < inputBytes input)%Z ∧
     caller s' = Outside (Some t) ∧
     trackers s' !! t =
       Some (mkTracker REJECTED_MEMORY (Some EmptyResponse) None)
     ∨
     (inputBytes input ≤ capacityBytes_ s)%Z ∧
     caller s' = TranslatePart_accept t input line ∧
     trackers s' !! t = Some (mkTracker UNSET None None) ∧
     ∃ s'',
       step LAdvance s' = Some s'' ∧
       capacityBytes_ s'' = (capacityBytes_ s - inputBytes input)%Z ∧
       (0 ≤ capacityBytes_ s'')%Z) ∧
    (input = EmptyString → caller s' = TranslatePart_accept t input line).
Proof.
  intros Hreach Hpc Hc t.
  pose proof (reachable_inv _ HC options s eq_refl Hreach) as Hinv.
  pose proof (CapacityInv_le _ s Hinv) as Hle.
  destruct HC as [_ Hwrap]. destruct (Hwrap _ Hle) as [_ Hsize].
  exists (enter c s). split; [simpl; by rewrite Hpc |].
  rewrite (enter_submitsAt _ _ _ _ Hc). unfold translatePart. simpl.
  rewrite Hsize.
  destruct (decide (capacityBytes_ s < inputBytes input)%Z) as [Hbig | Hfits].
  - rewrite bool_decide_eq_true_2 by done. simpl. split.
    + left. split_and!; [done | done |]. subst t.
      by rewrite !alter_snoc, lookup_snoc.
    + intros ->. unfold inputBytes in Hbig. simpl in Hbig. lia.
  - rewrite bool_decide_eq_false_2 by done. simpl. split; [| done].
    right. split_and!; [lia | done | subst t; apply lookup_snoc |].
    eexists. split; [reflexivity |].
    destruct (Hwrap (capacityBytes_ s - inputBytes input)%Z) as [Hw _].
    { pose proof (inputBytes_nonneg input). lia. }
    unfold translatePart_accept. simpl. rewrite Hw.
    case_bool_decide; simpl; lia.
Qed.

End AdmissionTheorem.

Lemma sum_list_with_flags_zero {A} (f : A → bool) (l : list A) i x :
  sum_list_with (λ x, if f x then 1 else 0) l = 0 →
  l !! i = Some x → f x = false.
Proof.
  intros Hsum Hi.
  pose proof (sum_list_with_lookup (λ x, if f x then 1 else 0) l i x Hi) as Hle.
  simpl in Hle. destruct (f x); [lia | done].
Qed.

Lemma bind_nonempty {A B} (f : A → list B) (l : list A) :
  l ≫= f ≠ [] → ∃ i x, l !! i = Some x ∧ f x ≠ [].
Proof.
  induction l as [| a l IH]; [done |]. rewrite bind_cons.
  destruct (f a) as [| b bs] eqn:Ha; simpl.
  - intros (i & x & Hi & Hx)%IH. by exists (S i), x.
  - intros _. exists 0, a. by rewrite Ha.
Qed.

Section Progress.
Context `{Environment} `{!BatcherLaws}.

(** A service that has its workers and is not being stopped. *)
Lemma reachable_Serving (options : Options) (s : System) :
  reachable options s → workers_ s ≠ [] → inStop (caller s) = false →
  Serving s ∧ 0 < length (threads s).
Proof.
  intros Hreach Hws Hpc.
  destruct (reachable_LiveInv _ _ Hreach) as [Hnil | [Hstop | Hserving]];
    [done | congruence |].
  split; [done |]. destruct Hserving as (Hseq & _).
  destruct (threads s); [| simpl; lia]. by rewrite Hseq in Hws.
Qed.

(** A worker that is alive and has a batch to take can take its step. *)
Lemma Serving_worker (s : System) :
  Serving s → 0 < length (threads s) → items (pcqueue_ s) ≠ [] →
  ∃ s', worker 0 s = Some s'.
Proof.
  intros (_ & _ & _ & Hex) Hlen Hitems.
  destruct (lookup_lt_is_Some_2 (threads s) 0 Hlen) as [st Hst].
  eapply worker_enabled; [exact Hst | | by left].
  by eapply (sum_list_with_flags_zero isExited).
Qed.

(** The workers, left to themselves, translate every sentence that is in
    the queue or in their hands. *)
Lemma workers_drain (options : Options) (m : nat) :
  ∀ (s : System) ret,
    work s = m → reachable options s → workers_ s ≠ [] →
    caller s = Outside ret →
    ∃ sched s',
      forallb isWorker sched = true ∧ run sched s = Some s' ∧
      outstanding s' = [] ∧ caller s' = Outside ret.
Proof.
  induction m as [m IH] using lt_wf_ind. intros s ret Hm Hreach Hws Hpc.
  destruct (outstanding s) as [| u rest] eqn:Hout.
  { by exists [], s. }
  destruct (reachable_Serving _ _ Hreach Hws) as [Hserving Hlen];
    [by rewrite Hpc |].
  assert (pending (batcher_ s) = []) as Hnil.
  { apply (FlowInv_idle s (reachable_FlowInv _ _ Hreach));
      intros t; by rewrite Hpc. }
  assert (∃ w s1, worker w s = Some s1) as (w & s1 & Hstep).
  { destruct (items (pcqueue_ s)) as [| b bs] eqn:Hitems.
    - unfold outstanding in Hout. rewrite Hnil, Hitems in Hout. simpl in Hout.
      destruct (bind_nonempty inHand (threads s)) as (w & st & Hst & Hhand);
        [by rewrite Hout |].
      exists w. eapply worker_enabled; [exact Hst | by destruct st |].
      right. by destruct st.
    - exists 0. apply Serving_worker; [done | done | by rewrite Hitems]. }
  destruct (worker_progress _ _ _ Hstep) as (Hless & _ & Hpc1 & Hws1 & _).
  assert (work s1 < m) as Hlt by lia.
  destruct (IH _ Hlt s1 ret eq_refl)
    as (sched & s' & Hsched & Hrun & Hquiet & Hpc');
    [by eapply (reachable_step options s s1 (LWorker w)) | congruence
    | congruence |].
  exists (LWorker w :: sched), s'. simpl. rewrite Hstep. simpl.
  by split_and!.
Qed.

(** The task of lines 118-121 comes to its end: it pushes its batches
    while the queue has room, and the workers make room. *)
Lemma produce_returns (options : Options) (m : nat) :
  ∀ (s : System) t,
    5 * length (pending (batcher_ s)) + work s = m →
    reachable options s → workers_ s ≠ [] →
    caller s = QueueInBackground_produce t → canReturn s.
Proof.
  induction m as [m IH] using lt_wf_ind. intros s t Hm Hreach Hws Hpc.
  destruct (cleaveBatch (batcher_ s)) as [[l b'] |] eqn:Hc.
  - destruct (cleave_some _ _ _ Hc) as [Hl Hperm].
    apply Permutation_length in Hperm. rewrite length_app in Hperm.
    assert (0 < length l) as Hpos by (destruct l; [done | simpl; lia]).
    destruct (decide (length (items (pcqueue_ s)) < bound (pcqueue_ s)))
      as [Hroom | Hfull].
    + (* a free slot: the batch is pushed *)
      set (s1 := set_pcqueue (mkPCQueue (bound (pcqueue_ s))
                                (items (pcqueue_ s) ++ [Sentences l]))
                   (set_batcher b' (emit (EProduce (Sentences l)) s))).
      assert (step LAdvance s = Some s1) as Hstep.
      { simpl. unfold advance, produceTo, ProduceSwap. rewrite Hpc, Hc.
        by rewrite bool_decide_eq_true_2 by done. }
      eapply (canReturn_step LAdvance s); [exact Hstep | done |].
      assert (5 * length (pending b') + work s1 < m) as Hlt.
      { unfold work, s1. simpl. rewrite sum_list_with_app. simpl.
        unfold work in Hm. lia. }
      eapply (IH _ Hlt s1 t); [done | | done | done].
      by eapply reachable_step.
    + (* the queue is full: a worker takes a step *)
      destruct (reachable_Serving _ _ Hreach Hws) as [Hserving Hlen];
        [by rewrite Hpc |].
      destruct (Serving_worker s Hserving Hlen) as [s1 Hstep].
      { destruct Hserving as (_ & Hb & _). intros Hnil.
        rewrite Hnil, Hb in Hfull. simpl in Hfull. lia. }
      destruct (worker_progress _ _ _ Hstep) as (Hless & _ & Hpc1 & Hws1 & _).
      destruct (worker_frame_task _ _ _ Hstep) as (Hb1 & _).
      eapply (canReturn_step (LWorker 0) s); [exact Hstep | done |].
      assert (5 * length (pending (batcher_ s1)) + work s1 < m) as Hlt
        by (rewrite Hb1; lia).
      eapply (IH _ Hlt s1 t); [done | | congruence | congruence].
      by eapply (reachable_step options s s1 (LWorker 0)).
  - (* no batch is left *)
    exists [LAdvance], (set_caller (Outside (Some t)) s). simpl.
    unfold advance, produceTo. rewrite Hpc, Hc. done.
Qed.

(** The loop of lines 128-130 comes to its end. *)
Lemma drain_loop_returns (options : Options) (m : nat) :
  ∀ (s : System) t,
    length (pending (batcher_ s)) = m →
    reachable options s → cpu_threads options = 0 →
    caller s = TranslatePart_drain t → canReturn s.
Proof.
  induction m as [m IH] using lt_wf_ind. intros s t Hm Hreach Hzero Hpc.
  destruct (cleaveBatch (batcher_ s)) as [[l b'] |] eqn:Hc.
  - destruct (cleave_some _ _ _ Hc) as [Hl Hperm].
    apply Permutation_length in Hperm. rewrite length_app in Hperm.
    assert (0 < length l) as Hpos by (destruct l; [done | simpl; lia]).
    pose proof (reachable_ConfigInv _ _ Hreach) as [_ _ Htr _ _ _ _ _ _].
    rewrite bool_decide_eq_true_2 in Htr by done.
    set (s1 := translateBatch 0 l (set_batcher b' s)).
    assert (step LAdvance s = Some s1) as Hstep.
    { simpl. unfold advance, drain. by rewrite Hpc, Hc, Htr. }
    destruct (translateBatch_engine 0 l (set_batcher b' s)) as (_ & Hb1 & Hpc1).
    eapply (canReturn_step LAdvance s); [exact Hstep | done |].
    assert (length (pending (batcher_ s1)) < m) as Hlt
      by (unfold s1; rewrite Hb1; simpl; lia).
    eapply (IH _ Hlt s1 t); [done | | done |].
    + by eapply reachable_step.
    + unfold s1. by rewrite Hpc1.
  - exists [LAdvance], (set_caller (Outside (Some t)) s). simpl.
    unfold advance, drain. rewrite Hpc, Hc. done.
Qed.

(** A call of [translatePart] can return, unless the workers have been
    stopped. *)
Lemma translatePart_can_return (options : Options) (s : System) (c : Call)
    (input : string) (line : Z) (ret : option nat) :
  reachable options s →
  caller s = Outside ret →
  submitsAt c input line →
  cpu_threads options = 0 ∨ workers_ s ≠ [] →
  ∃ sched s',
    forallb (λ l, negb (isCall l)) sched = true ∧
    run (LCall c :: sched) s = Some s' ∧ returned (caller s') = true.
Proof.
  intros Hreach Hpc Hc Hmode.
  assert (step (LCall c) s = Some (enter c s)) as Hcall
    by (simpl; by rewrite Hpc).
  assert (canReturn (enter c s)) as (sched & s' & Hsched & Hrun & Hret).
  { pose proof (reachable_step _ _ _ _ Hreach Hcall) as Hreach0.
    rewrite (enter_submitsAt _ _ _ _ Hc) in *.
    set (t := length (trackers s)).
    set (s0 := set_trackers (trackers s ++ [mkTracker UNSET None None]) s).
    unfold translatePart in *. fold t s0 in Hreach0 |- *.
    destruct (bool_decide _).
    { (* rejected *) by exists [], (set_caller (Outside (Some t))
                     (set_value t EmptyResponse (setStatus t REJECTED_MEMORY s0))). }
    set (s1 := set_caller (TranslatePart_accept t input line) s0) in *.
    pose proof (reachable_ConfigInv _ _ Hreach) as [Hn _ _ _ _ _ _ _ _].
    assert (step LAdvance s1 = Some (translatePart_accept t input line s1))
      as Hacc by done.
    eapply (canReturn_step LAdvance s1); [exact Hacc | done |].
    pose proof (reachable_step _ _ _ _ Hreach0 Hacc) as Hreach1.
    unfold translatePart_accept in *. simpl in *. rewrite Hn in *.
    set (s2 := set_capacityBytes _ s1) in *.
    destruct (decide (cpu_threads options = 0)) as [Hzero | Hpos].
    - (* in place *)
      rewrite bool_decide_eq_false_2 in * by lia.
      set (s3 := set_caller (TranslatePart_prepare t input line) s2) in *.
      assert (step LAdvance s3 =
              Some (set_caller (TranslatePart_drain t)
                      (prepareRequest t input line s3))) as Hprep by done.
      eapply (canReturn_step LAdvance s3); [exact Hprep | done |].
      eapply (drain_loop_returns options _ _ t eq_refl); [| done |].
      + by eapply reachable_step.
      + by rewrite prepareRequest_eq.
    - (* in the task *)
      rewrite bool_decide_eq_true_2 in * by lia.
      set (s3 := set_caller (QueueInBackground_prepare t input line)
                   (emit (EAsync QueueInBackground) s2)) in *.
      assert (step LAdvance s3 =
              Some (set_caller (QueueInBackground_produce t)
                      (prepareRequest t input line s3))) as Hprep by done.
      eapply (canReturn_step LAdvance s3); [exact Hprep | done |].
      eapply (produce_returns options _ _ t eq_refl); [| |].
      + by eapply reachable_step.
      + rewrite prepareRequest_eq. simpl. by destruct Hmode.
      + by rewrite prepareRequest_eq. }
  exists sched, s'. simpl. rewrite Hpc. simpl. done.
Qed.

End Progress.

Lemma sameRequest_refl req : sameRequest req req.
Proof. by repeat split. Qed.

Lemma sameRequest_trans req1 req2 req3 :
  sameRequest req1 req2 → sameRequest req2 req3 → sameRequest req1 req3.
Proof.
  intros (? & ? & ? & ? & ? & ? & ?) (? & ? & ? & ? & ? & ? & ?).
  repeat split; congruence.
Qed.

Section Requests.
Context `{Environment}.

Lemma processHistory_sameRequest (u : RequestSentence) (s : System) r req :
  requests s !! r = Some req →
  ∃ req', requests (processHistory u s) !! r = Some req' ∧ sameRequest req req'.
Proof.
  intros Hr. rewrite processHistory_requests.
  destruct (requests s !! u.1) as [req0 |] eqn:Hu;
    [| exists req; split; [done | apply sameRequest_refl]].
  destruct (counter req0) as [| n];
    [exists req; split; [done | apply sameRequest_refl] |].
  destruct (decide (u.1 = r)) as [<- | Hne].
  - exists (with_counter n req0). split.
    + apply list_lookup_insert_eq. by eapply lookup_lt_Some.
    + assert (req0 = req) as -> by congruence. by repeat split.
  - exists req. rewrite list_lookup_insert_ne by done.
    split; [done | apply sameRequest_refl].
Qed.

Lemma translateBatch_sameRequest (cpuId : nat) (l : list RequestSentence)
    (s : System) r req :
  requests s !! r = Some req →
  ∃ req', requests (translateBatch cpuId l s) !! r = Some req' ∧
          sameRequest req req'.
Proof.
  unfold translateBatch.
  assert (requests (emit (ETranslate cpuId l) s) = requests s) as <- by done.
  generalize (emit (ETranslate cpuId l) s). intros s0. revert s0 req.
  induction l as [| u rest IH]; intros s0 req Hr; simpl.
  - exists req. split; [done | apply sameRequest_refl].
  - destruct (processHistory_sameRequest u s0 r req Hr) as (req1 & Hr1 & H1).
    destruct (IH _ _ Hr1) as (req2 & Hr2 & H2).
    exists req2. split; [done |]. by eapply sameRequest_trans.
Qed.

(** A request, once made, stays where it is and keeps its id, its line
    number, its input, its segments and its tracker. *)
Lemma Step_sameRequest (s s' : System) (lbl : Label) r0 req :
  Step s lbl s' → requests s !! r0 = Some req →
  ∃ req', requests s' !! r0 = Some req' ∧ sameRequest req req'.
Proof.
  intros Hstep Hr.
  step_cases Hstep; simpl;
    try (exists req; split; [done | apply sameRequest_refl]).
  - (* amend *)
    destruct (decide (r = r0)) as [-> | Hne].
    + exists (with_nice priority req).
      rewrite list_lookup_alter, decide_True by done. rewrite Hr.
      split; [done |]. by repeat split.
    + exists req. rewrite list_lookup_alter_ne by done.
      split; [done | apply sameRequest_refl].
  - rewrite prepareRequest_eq. simpl. exists req.
    split; [by apply lookup_app_l_Some | apply sameRequest_refl].
  - by apply translateBatch_sameRequest.
  - by apply processHistory_sameRequest.
Qed.

Lemma run_sameRequest (sched : list Label) (s s' : System) r req :
  run sched s = Some s' → requests s !! r = Some req →
  ∃ req', requests s' !! r = Some req' ∧ sameRequest req req'.
Proof.
  revert s req. induction sched as [| l sched IH]; intros s req; simpl.
  - intros [= <-] Hr. exists req. split; [done | apply sameRequest_refl].
  - destruct (step l s) as [s1 |] eqn:Hs; [| done]. simpl.
    intros Hrun Hr. apply step_Step in Hs.
    destruct (Step_sameRequest _ _ _ _ _ Hs Hr) as (req1 & Hr1 & H1).
    destruct (IH _ _ Hrun Hr1) as (req2 & Hr2 & H2).
    exists req2. split; [done |]. by eapply sameRequest_trans.
Qed.

(** Only line 155 changes the list of the threads. *)
Lemma Step_workers (s s' : System) (lbl : Label) :
  Step s lbl s' → (∀ d, caller s ≠ Stop_clear d) → workers_ s' = workers_ s.
Proof.
  intros Hstep Hpc'.
  step_cases Hstep; simpl; try done.
  - by rewrite prepareRequest_eq.
  - destruct (translateBatch_engine 0 l (set_batcher b' s)) as (He & _).
    by injection He as _ _ _ _ Hw _ _.
  - by destruct (Hpc' d).
  - set (s0 := set_threads _ s).
    pose proof (processHistory_shell u s0) as Hs.
    by apply (f_equal workers_) in Hs.
Qed.

Lemma run_app (sched1 sched2 : list Label) (s : System) :
  run (sched1 ++ sched2) s = run sched1 s ≫= run sched2.
Proof.
  revert s. induction sched1 as [| l sched1 IH]; intros s; simpl; [done |].
  destruct (step l s) as [s1 |]; simpl; [apply IH | done].
Qed.

End Requests.

Lemma isWorker_not_call (sched : list Label) :
  forallb isWorker sched = true →
  forallb (λ l, negb (isCall l)) sched = true.
Proof.
  induction sched as [| l sched IH]; simpl; [done |].
  intros [Hl Hs]%andb_prop. rewrite (IH Hs). by destruct l.
Qed.

Section Answers.
Context `{Environment} `{!BatcherLaws}.

(** Without workers nothing is on its way between two calls. *)
Lemma zero_workers_quiescent (options : Options) (s : System) ret :
  reachable options s → cpu_threads options = 0 → caller s = Outside ret →
  outstanding s = [].
Proof.
  intros Hreach Hzero Hpc.
  pose proof (reachable_ConfigInv _ _ Hreach) as [_ _ _ _ Hq Hth _ _ _].
  assert (pending (batcher_ s) = []) as Hnil.
  { apply (FlowInv_idle s (reachable_FlowInv _ _ Hreach));
      intros t; by rewrite Hpc. }
  unfold outstanding. rewrite Hnil, Hzero in *.
  destruct (items (pcqueue_ s)); [| simpl in Hq; lia].
  destruct (threads s); [done | simpl in Hth; lia].
Qed.

Lemma service_drains (options : Options) (s : System) ret :
  reachable options s → caller s = Outside ret →
  cpu_threads options = 0 ∨ workers_ s ≠ [] →
  ∃ sched s',
    forallb isWorker sched = true ∧ run sched s = Some s' ∧
    outstanding s' = [] ∧ caller s' = Outside ret.
Proof.
  intros Hreach Hpc [Hzero | Hws].
  - exists [], s. split_and!; try done. by eapply zero_workers_quiescent.
  - by eapply (workers_drain options _ s ret eq_refl).
Qed.

(** X9.  A call of [translate], [translateWithCopy] or [translatePart] can
    always return, as long as the workers have not been stopped: whatever
    state the service is in, some schedule of the call, its task and the
    workers brings the call to its return, with the tracker it made.  The
    wait at line 122 ends, because the workers empty the queue the task
    fills. *)
Theorem translate_can_return (options : Options) (s : System) (c : Call)
    (input : string) (line : Z) (ret : option nat) :
  reachable options s →
  caller s = Outside ret →
  submitsAt c input line →
  cpu_threads options = 0 ∨ workers_ s ≠ [] →
  ∃ sched s',
    forallb (λ l, negb (isCall l)) sched = true ∧
    run (LCall c :: sched) s = Some s' ∧
    caller s' = Outside (Some (length (trackers s))).
Proof.
  intros Hreach Hpc Hc Hmode.
  destruct (decide (asSize (capacityBytes_ s) < inputBytes input)%Z)
    as [Hbig | Hfits].
  - (* rejected: the call returns at once *)
    exists []. eexists. simpl. rewrite Hpc. simpl.
    split_and!; [done | reflexivity |].
    rewrite (enter_submitsAt _ _ _ _ Hc). unfold translatePart. simpl.
    by rewrite bool_decide_eq_true_2.
  - destruct (translatePart_can_return options s c input line ret)
      as (sched & s' & Hsched & Hrun & Hret); try done.
    exists sched, s'. split_and!; [done | done |].
    simpl in Hrun. rewrite Hpc in Hrun. simpl in Hrun.
    assert (inputBytes input ≤ asSize (capacityBytes_ s))%Z as Hle by lia.
    pose proof (run_CallInv _ _ _ _ _ _ _ _ Hsched Hrun
                  (admitted_CallInv c input line s Hc Hle)) as [_ Hinv].
    destruct (caller s') as [[t' |] | | | | | | | | |]; try done.
    by destruct Hinv as (-> & _).
Qed.

(** X10.  The workers can always finish what was submitted: from every state
    in which the client is outside a call and the workers have not been
    stopped, some schedule of worker steps alone leads to a state where no
    sentence is on its way, and there every request that has a sentence is
    answered: its tracker is SUCCESS and its future holds the response to
    its input. *)
Theorem workers_answer_every_request (options : Options) (s : System)
    (ret : option nat) :
  reachable options s →
  caller s = Outside ret →
  cpu_threads options = 0 ∨ workers_ s ≠ [] →
  ∃ sched s',
    forallb isWorker sched = true ∧
    run sched s = Some s' ∧
    caller s' = Outside ret ∧
    outstanding s' = [] ∧
    ∀ r req, requests s !! r = Some req → segments req ≠ [] →
      trackers s' !! promise req =
        Some (mkTracker SUCCESS (Some (TranslatedResponse (source req)))
                (Some r)).
Proof.
  intros Hreach Hpc Hmode.
  destruct (service_drains options s ret Hreach Hpc Hmode)
    as (sched & s' & Hsched & Hrun & Hquiet & Hpc').
  exists sched, s'. split_and!; try done.
  intros r req Hr Hsegs.
  destruct (run_sameRequest _ _ _ _ _ Hrun Hr)
    as (req' & Hr' & _ & _ & Hsrc & Hsg & _ & Hp & _).
  rewrite <- Hp, <- Hsrc.
  eapply quiescent_answered; [by eapply reachable_run | done | done |].
  by rewrite Hsg.
Qed.

(** X11.  A submission that passes the test of line 75 and has a sentence is
    answered, as long as the workers have not been stopped: some schedule
    of the call and the workers leads to a state where the call has
    returned its tracker, the tracker is SUCCESS, and its future holds the
    response to the input. *)
Theorem accepted_submission_is_answered (options : Options) (s : System)
    (c : Call) (input : string) (line : Z) (ret : option nat) :
  reachable options s →
  caller s = Outside ret →
  submitsAt c input line →
  (inputBytes input ≤ asSize (capacityBytes_ s))%Z →
  (process input).1 ≠ [] →
  cpu_threads options = 0 ∨ workers_ s ≠ [] →
  let t := length (trackers s) in
  let r := length (requests s) in
  ∃ sched s',
    forallb (λ l, negb (isCall l)) sched = true ∧
    run (LCall c :: sched) s = Some s' ∧
    caller s' = Outside (Some t) ∧
    trackers s' !! t =
      Some (mkTracker SUCCESS (Some (TranslatedResponse input)) (Some r)).
Proof.
  intros Hreach Hpc Hc Hfits Hsegs Hmode t r.
  destruct (translatePart_can_return options s c input line ret)
    as (sched1 & s1 & Hsched1 & Hrun1 & Hret1); try done.
  assert (reachable options s1) as Hreach1 by (by eapply reachable_run).
  simpl in Hrun1. rewrite Hpc in Hrun1. simpl in Hrun1.
  pose proof (admitted_CallInv c input line s Hc Hfits) as Hinit.
  (* the call has returned, and the workers are still there *)
  assert (workers_ s1 = workers_ s ∧
          CallInv t r (requestId_ s) line input s1) as [Hws1 Hinv1].
  { assert (workers_ (enter c s) = workers_ s) as Hws0.
    { rewrite (enter_submitsAt _ _ _ _ Hc). unfold translatePart. simpl.
      by case_bool_decide. }
    revert Hws0 Hinit Hrun1.
    generalize (enter c s) as s0. intros s0 Hws0 Hinit Hrun1.
    cut (workers_ s1 = workers_ s0 ∧ CallInv t r (requestId_ s) line input s1).
    { intros [-> ?]. by split. }
    eapply (run_invariant_call
              (λ x, workers_ x = workers_ s0 ∧
                    CallInv t r (requestId_ s) line input x));
      [| exact Hsched1 | exact Hrun1 | by split].
    intros x l x' Hstep Hl [Hwx Hix]. split; [| by eapply Step_CallInv].
    rewrite <- Hwx. eapply Step_workers; [exact Hstep |].
    intros d Hd. destruct Hix as [_ Hix]. by rewrite Hd in Hix. }
  assert (caller s1 = Outside (Some t)) as Hpc1.
  { destruct Hinv1 as [_ Hinv1].
    destruct (caller s1) as [[t' |] | | | | | | | | |]; try done.
    by destruct Hinv1 as (-> & _). }
  (* the workers finish *)
  destruct (service_drains options s1 (Some t) Hreach1 Hpc1)
    as (sched2 & s2 & Hsched2 & Hrun2 & Hquiet & Hpc2).
  { destruct Hmode as [? | ?]; [by left | right; congruence]. }
  pose proof (isWorker_not_call _ Hsched2) as Hnocall2.
  pose proof (run_CallInv _ _ _ _ _ _ _ _ Hnocall2 Hrun2 Hinv1) as [_ Hinv2].
  rewrite Hpc2 in Hinv2. destruct Hinv2 as (_ & _ & req & Hr & Hmade).
  destruct Hmade as (_ & _ & _ & Hsrc & Hsg & _ & Hp).
  exists (sched1 ++ sched2), s2. split_and!.
  - rewrite forallb_app. by rewrite Hsched1, Hnocall2.
  - simpl. rewrite Hpc. simpl. rewrite run_app, Hrun1. done.
  - done.
  - rewrite <- Hp, <- Hsrc.
    eapply quiescent_answered; [by eapply reachable_run | done | done |].
    by rewrite Hsg.
Qed.

End Answers.

Lemma pushed_app l1 l2 : pushed (l1 ++ l2) = pushed l1 ++ pushed l2.
Proof. unfold pushed. apply omap_app. Qed.

Lemma taken_app l1 l2 : taken (l1 ++ l2) = taken l1 ++ taken l2.
Proof. unfold taken. apply omap_app. Qed.

Section QueueTheorems.
Context `{Environment}.

(** A thread that goes from one state to another, neither of them the
    end. *)
Lemma exitedCount_alive (s : System) w st st' :
  threads s !! w = Some st → isExited st = false → isExited st' = false →
  sum_list_with (λ st, if isExited st then 1 else 0) (<[w := st']> (threads s))
  = exitedCount s.
Proof.
  intros Hw Hst Hst'. unfold exitedCount.
  pose proof (sum_list_with_insert (λ st, if isExited st then 1 else 0)
                _ _ _ st' Hw) as Hsum.
  simpl in Hsum. rewrite Hst, Hst' in Hsum. lia.
Qed.

Lemma Step_QueueInv (options : Options) (s s' : System) (lbl : Label) :
  0 < cpu_threads options →
  Step s lbl s' → ConfigInv options s → QueueInv s → QueueInv s'.
Proof.
  intros Hpos Hstep Hcfg Hinv. unfold QueueInv in *.
  step_cases Hstep; simpl; unfold exitedCount in *; simpl;
    rewrite ?pushed_app, ?taken_app, ?app_nil_r; simpl;
    rewrite ?app_nil_r; try done.
  - (* the request is made: no event of the queue *)
    rewrite prepareRequest_eq. simpl. rewrite pushed_app, taken_app. simpl.
    by rewrite !app_nil_r.
  - (* a batch is pushed *)
    apply ProduceSwap_Some in Hq as [_ ->]. simpl.
    rewrite Hinv. by rewrite <- !app_assoc.
  - (* not with workers *)
    destruct Hcfg as [_ _ _ _ _ _ _ _ Hf]. rewrite Hpc in Hf. simpl in Hf. lia.
  - (* a poison is pushed *)
    apply ProduceSwap_Some in Hq as [_ ->]. simpl.
    rewrite Hinv. by rewrite <- !app_assoc.
  - by rewrite (exitedCount_alive s w Initializing Consuming).
  - (* a worker takes a poison and ends *)
    apply ConsumeSwap_Some in Hq as [Hitems _]. rewrite Hitems in Hinv.
    pose proof (sum_list_with_insert (λ st, if isExited st then 1 else 0)
                  _ _ _ Exited Hth) as Hsum.
    simpl in Hsum.
    assert (sum_list_with (λ st, if isExited st then 1 else 0)
              (<[w := Exited]> (threads s)) = S (exitedCount s)) as ->
      by (unfold exitedCount; lia).
    rewrite Hinv. simpl. apply Permutation_app_head.
    symmetry. apply Permutation_middle.
  - (* a worker takes a batch *)
    apply ConsumeSwap_Some in Hq as [Hitems _]. rewrite Hitems in Hinv.
    rewrite (exitedCount_alive s w Consuming (Translating l)) by done.
    rewrite Hinv, <- !app_assoc. simpl. apply Permutation_app_head.
    symmetry. apply Permutation_middle.
  - by rewrite (exitedCount_alive s w (Translating []) Consuming).
  - (* a worker translates a sentence *)
    set (s0 := set_threads _ s).
    pose proof (processHistory_shell u s0) as Hs.
    assert (log (processHistory u s0) = log s) as ->
      by (by apply (f_equal log) in Hs).
    assert (threads (processHistory u s0) = <[w := Translating rest]> (threads s))
      as -> by (by apply (f_equal threads) in Hs).
    assert (pcqueue_ (processHistory u s0) = pcqueue_ s) as ->
      by (by apply (f_equal pcqueue_) in Hs).
    by rewrite (exitedCount_alive s w (Translating (u :: rest)) (Translating rest)).
Qed.

(** X12.  In a service with workers nothing is lost in the queue and nothing
    comes out of it that was not put in: the batches pushed so far are, up
    to their order, the batches the workers have taken to translate, one
    poison for every worker that has ended, and the batches still in the
    queue.  The queue never holds more than twice as many batches as there
    are workers. *)
Theorem queue_hands_on_every_batch (options : Options) (s : System) :
  reachable options s →
  0 < cpu_threads options →
  pushed (log s) ≡ₚ
    taken (log s) ++ replicate (exitedCount s) Poison ++ items (pcqueue_ s) ∧
  length (items (pcqueue_ s)) ≤ 2 * cpu_threads options.
Proof.
  intros Hreach Hn.
  split; [| by destruct (reachable_ConfigInv _ _ Hreach)].
  destruct Hreach as (s0 & sched & Hnew & Hrun).
  cut (ConfigInv options s ∧ QueueInv s); [by intros [_ ?] |].
  eapply (run_invariant (λ x, ConfigInv options x ∧ QueueInv x));
    [| exact Hrun |].
  - intros x l x' Hstep [Hcfg Hq]. split.
    + by eapply Step_ConfigInv.
    + by eapply Step_QueueInv.
  - split; [by apply newService_ConfigInv |].
    unfold newService in Hnew.
    destruct (loadVocabularies options) as [[vs hp] |]; [| done].
    injection Hnew as <-. unfold QueueInv, exitedCount. simpl.
    by rewrite exitedCount_replicate.
Qed.

End QueueTheorems.

Lemma translated_app l1 l2 : translated (l1 ++ l2) = translated l1 ++ translated l2.
Proof. unfold translated. apply omap_app. Qed.

Section AfterStop.
Context `{Environment}.

Lemma exited_insert (s : System) w w' st st' :
  threads s !! w' = Some st' → st' ≠ Exited → exited s w →
  <[w' := st]> (threads s) !! w = Some Exited.
Proof.
  unfold exited. intros Hw' Hst Hw.
  rewrite list_lookup_insert_ne; [done |]. intros ->. congruence.
Qed.

Lemma Step_exited (s s' : System) (lbl : Label) w0 :
  Step s lbl s' → exited s w0 →
  exited s' w0 ∧ length (threads s') = length (threads s).
Proof.
  intros Hstep Hdead.
  step_cases Hstep; simpl; try done; unfold exited in *; simpl.
  - by rewrite prepareRequest_eq.
  - destruct (translateBatch_engine 0 l (set_batcher b' s)) as (He & _).
    injection He as _ _ _ _ _ _ Hthr. by rewrite Hthr.
  - rewrite length_insert. split; [| done].
    by eapply (exited_insert s w0 w _ Initializing).
  - rewrite length_insert. split; [| done].
    by eapply (exited_insert s w0 w _ Consuming).
  - rewrite length_insert. split; [| done].
    by eapply (exited_insert s w0 w _ Consuming).
  - rewrite length_insert. split; [| done].
    by eapply (exited_insert s w0 w _ (Translating [])).
  - set (s0 := set_threads _ s).
    pose proof (processHistory_shell u s0) as Hs.
    assert (threads (processHistory u s0) = <[w := Translating rest]> (threads s))
      as -> by (by apply (f_equal threads) in Hs).
    rewrite length_insert. split; [| done].
    by eapply (exited_insert s w0 w _ (Translating (u :: rest))).
Qed.

Lemma Step_threads_length (s s' : System) (lbl : Label) :
  Step s lbl s' → length (threads s') = length (threads s).
Proof.
  intros Hstep.
  step_cases Hstep; simpl; rewrite ?length_insert; try done.
  - by rewrite prepareRequest_eq.
  - destruct (translateBatch_engine 0 l (set_batcher b' s)) as (He & _).
    injection He as _ _ _ _ _ _ Hthr. by rewrite Hthr.
  - set (s0 := set_threads _ s).
    pose proof (processHistory_shell u s0) as Hs.
    assert (threads (processHistory u s0) = <[w := Translating rest]> (threads s))
      as -> by (by apply (f_equal threads) in Hs).
    by rewrite length_insert.
Qed.

(** Steps of the workers: the client stays where it is. *)
Lemma ExitInv_frame (s s' : System) :
  workers_ s' = workers_ s → length (threads s') = length (threads s) →
  (∀ w, exited s w → exited s' w) → caller s' = caller s →
  ExitInv s → ExitInv s'.
Proof.
  intros Hws Hlen Hstable Hpc (Hcrew & Hnil & Hjoin).
  unfold ExitInv. rewrite Hws, Hlen, Hpc. split_and!; [done | |].
  - intros Hn w Hw. by apply Hstable, Hnil.
  - destruct (caller s); try done; intros w Hw; try intros Hw';
      by apply Hstable, Hjoin.
Qed.

(** Steps of the client: the threads stay as they are. *)
Lemma ExitInv_move (s s' : System) :
  workers_ s' = workers_ s → threads s' = threads s →
  match caller s' with
  | Stop_join i _ => ∀ w, w < i → w < length (workers_ s) → exited s w
  | Stop_clear _ => ∀ w, w < length (workers_ s) → exited s w
  | _ => True
  end →
  ExitInv s → ExitInv s'.
Proof.
  intros Hws Hth Hpc (Hcrew & Hnil & _).
  unfold ExitInv, exited in *. rewrite Hws, Hth. done.
Qed.

Lemma Step_ExitInv (s s' : System) (lbl : Label) :
  Step s lbl s' → ExitInv s → ExitInv s'.
Proof.
  intros Hstep Hinv. pose proof Hinv as (Hcrew & Hnil & Hjoin).
  pose proof (Step_threads_length _ _ _ Hstep) as Hlen.
  assert (∀ w, exited s w → exited s' w) as Hstable.
  { intros w0 Hw0. by destruct (Step_exited _ _ _ w0 Hstep Hw0). }
  step_cases Hstep;
    try (eapply ExitInv_move; [.. | exact Hinv]; simpl; done);
    try (eapply ExitInv_frame; [.. | exact Hinv]; simpl; done).
  - (* the request is made *)
    eapply ExitInv_move; [.. | exact Hinv]; rewrite prepareRequest_eq; simpl;
      try done.
    by destruct Hpc as [[_ ->] | [_ ->]].
  - (* a batch is translated in place *)
    destruct (translateBatch_engine 0 l (set_batcher b' s)) as (He & _ & Hpc').
    injection He as _ _ _ _ Hws' _ Hth'.
    eapply ExitInv_frame; [.. | exact Hinv]; done.
  - (* every worker has its poison *)
    eapply ExitInv_move; [.. | exact Hinv]; simpl; try done.
    intros w0 Hw0. lia.
  - (* a thread is joined *)
    eapply ExitInv_move; [.. | exact Hinv]; simpl; try done.
    rewrite Hpc in Hjoin. intros w0 Hw0 Hw0'.
    destruct (decide (w0 = i)) as [-> | Hne]; [| apply Hjoin; [lia | done]].
    destruct Hcrew as [Hc | Hc]; rewrite Hc in Hw; [done |].
    by apply lookup_seq in Hw as [-> _].
  - (* all are joined *)
    eapply ExitInv_move; [.. | exact Hinv]; simpl; try done.
    rewrite Hpc in Hjoin. intros w0 Hw0. apply Hjoin; [| done].
    apply lookup_ge_None in Hw. lia.
  - (* the list is cleared *)
    rewrite Hpc in Hjoin. unfold ExitInv. simpl.
    split_and!; [by left | | by destruct d].
    intros _ w0 Hw0. destruct Hcrew as [Hws | Hws].
    + by apply Hnil.
    + apply Hjoin. by rewrite Hws, length_seq.
  - (* a worker translates a sentence *)
    set (s0 := set_threads _ s) in *.
    pose proof (processHistory_shell u s0) as Hs.
    eapply ExitInv_frame; [.. | exact Hinv]; try done.
    + by apply (f_equal workers_) in Hs.
    + by apply (f_equal caller) in Hs.
Qed.

Lemma reachable_ExitInv (options : Options) (s : System) :
  reachable options s → ExitInv s.
Proof.
  intros (s0 & sched & Hnew & Hrun).
  eapply (run_invariant ExitInv); [| exact Hrun |].
  - intros x l x' Hstep. by eapply Step_ExitInv.
  - unfold newService in Hnew.
    destruct (loadVocabularies options) as [[vs hp] |]; [| done].
    injection Hnew as <-. unfold ExitInv. simpl.
    rewrite length_replicate. split_and!; [by right | | done].
    intros Hnil w Hw. destruct (cpu_threads options); [lia | done].
Qed.

End AfterStop.

Section AfterStopTheorems.
Context `{Environment}.

Lemma Idle_refl (s : System) : Idle s s.
Proof. split_and!; [done | | done]. intros r req Hr. by exists req. Qed.

Lemma Idle_trans (s1 s2 s3 : System) : Idle s1 s2 → Idle s2 s3 → Idle s1 s3.
Proof.
  intros (Hl1 & Hr1 & Ht1) (Hl2 & Hr2 & Ht2). split_and!.
  - congruence.
  - intros r req Hr. destruct (Hr1 _ _ Hr) as (req' & Hr' & Hc').
    destruct (Hr2 _ _ Hr') as (req'' & Hr'' & Hc''). exists req''.
    split; [done | congruence].
  - intros t tr x Ht Hx. apply (Ht1 t tr x); [| done]. by eapply Ht2.
Qed.

(** Steps that leave the trackers and the requests alone and translate
    nothing. *)
Lemma Idle_frame (s s' : System) :
  translated (log s') = translated (log s) →
  requests s' = requests s → trackers s' = trackers s → Idle s s'.
Proof.
  intros Hl Hr Ht. unfold Idle. rewrite Hl, Hr, Ht. apply Idle_refl.
Qed.

Lemma Step_Stopped (s s' : System) (lbl : Label) :
  Step s lbl s' → Stopped s → TrackerInv s → Stopped s' ∧ Idle s s'.
Proof.
  intros Hstep (Hpos & Hdead & Hframe) Htrk.
  assert (∀ w st, threads s !! w = Some st → st = Exited) as Hall.
  { intros w0 st Hst. by eapply (Forall_lookup_1 _ _ _ _ Hdead). }
  step_cases Hstep;
    try (by apply Hall in Hth);
    try (split; [by split_and! |];
         apply Idle_frame; simpl; rewrite ?translated_app; simpl;
         by rewrite ?app_nil_r).
  - (* a rejection *)
    split; [by split_and! |]. split_and!; simpl; [done | by eauto |].
    intros t tr x [[_ Ht] | [_ <-]]%lookup_snoc_Some; done.
  - (* an admission *)
    split; [by split_and! |]. split_and!; simpl; [done | by eauto |].
    intros t tr x [[_ Ht] | [_ <-]]%lookup_snoc_Some; done.
  - (* amend *)
    split; [by split_and! |]. split_and!; simpl; [| | done].
    { rewrite translated_app. simpl. by rewrite app_nil_r. }
    intros r0 req Hr0. destruct (decide (r = r0)) as [-> | Hne].
    + exists (with_nice priority req).
      by rewrite list_lookup_alter, decide_True, Hr0 by done.
    + exists req. by rewrite list_lookup_alter_ne.
  - (* not without workers *)
    lia.
  - (* the request is made *)
    destruct Hpc as [[Hpc ->] | [Hpc ->]]; [| by rewrite Hpc in Hframe].
    rewrite prepareRequest_eq. split; [by split_and! |].
    split_and!; simpl.
    + rewrite translated_app. simpl. by rewrite app_nil_r.
    + intros r0 req Hr0. exists req. split; [| done].
      by apply lookup_app_l_Some.
    + destruct Htrk as [_ _ Hfr].
      assert (trackers s !! t = Some (mkTracker UNSET None None)) as Hfresh
        by (apply Hfr; by rewrite Hpc).
      intros t0 tr x Ht0 Hx. destruct (decide (t0 = t)) as [-> | Hne].
      * rewrite list_lookup_alter, decide_True in Ht0 by done.
        rewrite list_lookup_alter, decide_True in Ht0 by done.
        rewrite Hfresh in Ht0. by injection Ht0 as <-.
      * by rewrite !list_lookup_alter_ne in Ht0 by done.
  - (* not without workers *)
    by rewrite Hpc in Hframe.
  - (* the list is cleared *)
    split; [split_and!; simpl; try done; by destruct d |]. by apply Idle_frame.
Qed.

Lemma run_Stopped (sched : list Label) (s s' : System) :
  run sched s = Some s' → Stopped s → TrackerInv s → Stopped s' ∧ Idle s s'.
Proof.
  revert s. induction sched as [| l sched IH]; intros s; simpl.
  - intros [= <-] Hs _. split; [done | apply Idle_refl].
  - destruct (step l s) as [s1 |] eqn:Hs; [| done]. simpl.
    intros Hrun Hstop Htrk. apply step_Step in Hs.
    destruct (Step_Stopped _ _ _ Hs Hstop Htrk) as [Hstop1 Hidle1].
    destruct (IH s1 Hrun Hstop1) as [Hstop' Hidle'];
      [by eapply Step_TrackerInv |].
    split; [done | by eapply Idle_trans].
Qed.

(** X13.  Once [stop] has ended the workers of a service that had some,
    nothing is translated any more, whatever is called: the threads stay
    ended, no batch is translated, no request gets a sentence less to come,
    and no future gets a translation.  So a submission made after the
    shutdown is never answered. *)
Theorem nothing_is_translated_after_stop (options : Options) (s s' : System)
    (sched : list Label) (ret : option nat) :
  reachable options s →
  0 < cpu_threads options →
  workers_ s = [] →
  caller s = Outside ret →
  run sched s = Some s' →
  Forall (λ st, st = Exited) (threads s') ∧
  translated (log s') = translated (log s) ∧
  (∀ r req, requests s !! r = Some req →
     ∃ req', requests s' !! r = Some req' ∧ counter req' = counter req) ∧
  (∀ t tr x, trackers s' !! t = Some tr →
     future tr = Some (TranslatedResponse x) → trackers s !! t = Some tr).
Proof.
  intros Hreach Hpos Hws Hpc Hrun.
  pose proof (reachable_ExitInv _ _ Hreach) as (_ & Hnil & _).
  pose proof (reachable_ConfigInv _ _ Hreach) as [Hn _ _ _ _ _ _ _ _].
  assert (Stopped s) as Hstop.
  { split_and!; [lia | | by rewrite Hpc].
    apply Forall_lookup_2. intros w st Hst.
    specialize (Hnil Hws w (lookup_lt_Some _ _ _ Hst)).
    unfold exited in Hnil. congruence. }
  destruct (run_Stopped _ _ _ Hrun Hstop (reachable_TrackerInv _ _ Hreach))
    as [(_ & Hdead & _) (Hlog & Hreq & Htrk)].
  by split_and!.
Qed.

End AfterStopTheorems.

Section Deadlock.
Context `{Environment}.

(** X14.  After [stop] a call of [translate] can wait for ever.  In a service
    whose workers have been stopped, once the task of lines 118-121 has a
    batch to push and the queue is full, no thread has a step left: the
    task waits for a slot of the queue, the client waits for the task at
    line 122, and no worker is there to take a batch.  The state never
    changes again. *)
Theorem translate_after_stop_blocks (options : Options) (s : System)
    (t : nat) (l : list RequestSentence) (b' : Batcher) :
  reachable options s →
  workers_ s = [] →
  caller s = QueueInBackground_produce t →
  cleaveBatch (batcher_ s) = Some (l, b') →
  bound (pcqueue_ s) ≤ length (items (pcqueue_ s)) →
  (∀ lbl, step lbl s = None) ∧
  (∀ sched s', run sched s = Some s' → sched = [] ∧ s' = s).
Proof.
  intros Hreach Hws Hpc Hc Hfull.
  pose proof (reachable_ExitInv _ _ Hreach) as (_ & Hnil & _).
  assert (∀ lbl, step lbl s = None) as Hstuck.
  { intros [c | | w]; simpl.
    - by rewrite Hpc.
    - unfold advance, produceTo, ProduceSwap. rewrite Hpc, Hc.
      by rewrite bool_decide_eq_false_2 by lia.
    - unfold worker. destruct (threads s !! w) as [st |] eqn:Hst; [| done].
      specialize (Hnil Hws w (lookup_lt_Some _ _ _ Hst)).
      unfold exited in Hnil. by assert (st = Exited) as -> by congruence. }
  split; [done |].
  intros [| lbl sched] s'; simpl.
  - by intros [= <-].
  - by rewrite Hstuck.
Qed.

End Deadlock.

(** ** A submission without sentences *)

Lemma held_le_heldBy (reqs : list Request) (r : nat) (req : Request) :
  reqs !! r = Some req → (held req ≤ heldBy reqs)%Z.
Proof.
  revert r. induction reqs as [| x reqs IH]; intros [| r]; simpl; try done.
  - intros [= ->]. pose proof (heldBy_nonneg reqs). lia.
  - intros Hr%IH. pose proof (held_nonneg x). lia.
Qed.

Section WithoutSentences.
Context `{Environment} `{!BatcherLaws}.

(** A request without sentences is never complete: no sentence of it
    will arrive. *)
Lemma request_without_sentences (options : Options) (s : System) r req :
  reachable options s → requests s !! r = Some req → segments req = [] →
  trackers s !! promise req = Some (mkTracker QUEUED None (Some r)) ∧
  held req = inputBytes (source req).
Proof.
  intros [Hrq _ _]%reachable_TrackerInv Hr Hnil.
  destruct (Hrq _ _ Hr) as [Hmine _]. rewrite Hmine.
  unfold trackerOf, held, completed.
  by rewrite bool_decide_eq_false_2 by (by intros [_ ?]).
Qed.

(** C5.  In a service constructed without workers, a submission that fits
    the capacity and in which the text processor finds no sentence is
    prepared in the calling thread like any other, and [translate] returns
    at once, the batcher having nothing to pull.  At the return the tracker
    is QUEUED and its future has no value; no thread has a step to take;
    and whatever is called from then on, the future never gets a value and
    the bytes of the input never go back to the capacity. *)
Theorem translate_without_sentences_is_not_answered (options : Options)
    (s : System) (c : Call) (input : string) (ret : option nat) :
  Representable (capacity_bytes options) →
  cpu_threads options = 0 →
  reachable options s →
  caller s = Outside ret →
  c = CallTranslate input ∨ c = CallTranslateWithCopy input →
  (inputBytes input ≤ capacityBytes_ s)%Z →
  (process input).1 = [] →
  let t := length (trackers s) in
  let r := length (requests s) in
  ∃ s',
    run [LCall c; LAdvance; LAdvance; LAdvance] s = Some s' ∧
    caller s' = Outside (Some t) ∧
    log s' =
      log s ++ [EProcess input; ENewRequest (requestId_ s) 0 20;
                EAddWholeRequest r] ∧
    trackers s' !! t = Some (mkTracker QUEUED None (Some r)) ∧
    capacityBytes_ s' = (capacityBytes_ s - inputBytes input)%Z ∧
    (∀ l, isCall l = false → step l s' = None) ∧
    (∀ sched s'', run sched s' = Some s'' →
       trackers s'' !! t = Some (mkTracker QUEUED None (Some r)) ∧
       (capacityBytes_ s'' ≤ capacity_bytes options - inputBytes input)%Z).
Proof.
  intros HC Hzero Hreach Hpc Hc Hfits Hnone t r.
  pose proof (reachable_ZeroInv _ _ Hzero Hreach) as Hinv.
  pose proof (CapacityInv_le _ _ (reachable_inv _ HC options s eq_refl Hreach))
    as Hcap.
  pose proof HC as [HC0 Hwrap].
  destruct (Hwrap _ Hcap) as [_ Hsize].
  pose proof (inputBytes_nonneg input) as Hnn.
  destruct (Hwrap (capacityBytes_ s - inputBytes input)%Z) as [Hsub _]; [lia |].
  destruct Hinv as (Hn & Hth & Hws & Htr & Hq & Hpend). rewrite Hpc in Hpend.
  (* line 75: the submission is accepted *)
  set (s1 := set_caller (TranslatePart_accept t input 0)
               (set_trackers (trackers s ++ [mkTracker UNSET None None]) s)).
  assert (step (LCall c) s = Some s1) as Hstep1.
  { simpl. rewrite Hpc. f_equal.
    assert (enter c s = translatePart input 0 s) as ->
      by (by destruct Hc as [-> | ->]).
    unfold translatePart. simpl. rewrite Hsize.
    by rewrite bool_decide_eq_false_2 by lia. }
  (* line 83, then line 126 *)
  set (s2 := set_caller (TranslatePart_prepare t input 0)
               (set_capacityBytes (capacityBytes_ s - inputBytes input) s1)).
  assert (step LAdvance s1 = Some s2) as Hstep2.
  { simpl. unfold advance, translatePart_accept. simpl. rewrite Hn, Hsub.
    by rewrite bool_decide_eq_false_2 by lia. }
  set (s3 := set_caller (TranslatePart_drain t) (prepareRequest t input 0 s2)).
  assert (step LAdvance s2 = Some s3) as Hstep3 by done.
  (* line 128: the batcher has no batch *)
  set (req0 := mkRequest (requestId_ s) 0 20 input (process input).1
                 (process input).2 t (length (process input).1)
                 [CompletionCallback t (inputBytes input)]).
  assert (cleaveBatch (batcher_ s3) = None) as Hcleave.
  { apply cleave_none. apply Permutation_nil_r. subst s3.
    rewrite prepareRequest_eq. simpl. rewrite pending_add, Hpend.
    unfold sentencesOf. simpl. by rewrite Hnone. }
  set (s' := set_caller (Outside (Some t)) s3).
  assert (step LAdvance s3 = Some s') as Hstep4.
  { change (step LAdvance s3) with (drain t s3). unfold drain.
    by rewrite Hcleave. }
  assert (run [LCall c; LAdvance; LAdvance; LAdvance] s = Some s') as Hrun.
  { cbn -[step]. rewrite Hstep1. cbn -[step]. rewrite Hstep2. cbn -[step].
    rewrite Hstep3. cbn -[step]. by rewrite Hstep4. }
  assert (requests s' !! r = Some req0 ∧
          trackers s' !! t = Some (mkTracker QUEUED None (Some r))) as [Hr Ht].
  { subst s' s3. rewrite prepareRequest_eq. simpl. split.
    - apply lookup_snoc.
    - subst t. by rewrite !alter_snoc, lookup_snoc. }
  exists s'. split_and!; try done.
  - subst s' s3. rewrite prepareRequest_eq. done.
  - subst s' s3. by rewrite prepareRequest_eq.
  - intros [c0 | | w] Hl; [done | done |].
    simpl. unfold worker.
    assert (threads s' = []) as -> by (subst s' s3; by rewrite prepareRequest_eq).
    done.
  - intros sched s'' Hrun'.
    assert (reachable options s') as Hreach' by (by eapply reachable_run).
    assert (reachable options s'') as Hreach'' by (by eapply reachable_run).
    destruct (run_sameRequest _ _ _ _ _ Hrun' Hr)
      as (req'' & Hr'' & _ & _ & Hsrc & Hsegs & _ & Hprom & _).
    destruct (request_without_sentences _ _ _ _ Hreach'' Hr'') as [Htr'' Hheld].
    { by rewrite Hsegs. }
    rewrite Hprom in Htr''. split; [done |].
    pose proof (reachable_inv _ HC options s'' eq_refl Hreach'') as [Hacc _ _ _].
    pose proof (held_le_heldBy _ _ _ Hr'') as Hle.
    rewrite Hheld, Hsrc in Hle. simpl in Hle.
    unfold inFlightBytes in Hacc.
    assert (0 ≤ frameBytes (caller s''))%Z.
    { destruct (caller s''); simpl; try done; apply inputBytes_nonneg. }
    lia.
Qed.

End WithoutSentences.

(** ** The further theorems at work *)

(** Four files, two names. *)
Lemma loadVocabularies_first_occurrence_witness :
  ∃ vs hp,
    loadVocabularies (mkOptions 1 100 ["src.spm"; "trg.spm"; "src.spm"; "trg.spm"])
      = Some (vs, hp) ∧
    (∀ p v, hp !! p = Some v → vs !! batchIndex v = Some (Some p)) ∧
    length hp = 2.
Proof.
  exists [Some 0; Some 1; Some 0; Some 1],
         [mkVocab 0 "src.spm"; mkVocab 1 "trg.spm"].
  split; [vm_compute; reflexivity |].
  destruct (loadVocabularies_first_occurrence
              (mkOptions 1 100 ["src.spm"; "trg.spm"; "src.spm"; "trg.spm"])
              [Some 0; Some 1; Some 0; Some 1]
              [mkVocab 0 "src.spm"; mkVocab 1 "trg.spm"])
    as (Hfirst & _ & _ & Hcount).
  - vm_compute. reflexivity.
  - split.
    + intros p v Hp. apply (Hfirst p v Hp).
    + apply Permutation_length in Hcount. rewrite length_fmap in Hcount.
      exact Hcount.
Defined.

Lemma service_configuration_is_fixed_witness :
  ∃ s,
    exampleRun 1 16 translatingHello = Some s ∧
    translators_ s = [0] ∧ bound (pcqueue_ s) = 2 ∧ workers_ s = [0].
Proof.
  exists_state (exampleRun 1 16 translatingHello).
  split; [vm_compute; reflexivity |].
  match goal with
  | |- translators_ ?s = _ ∧ _ =>
      destruct (@service_configuration_is_fixed exampleEnvironment
                  (exampleOptions 1 16) s)
        as (_ & _ & Htr & Hb & _ & _ & Hws & _)
  end.
  - apply (exampleRun_reachable 1 16 translatingHello). vm_compute. reflexivity.
  - split; [exact Htr |]. split; [exact Hb |].
    destruct Hws as [Hnil | Hseq]; [discriminate Hnil | exact Hseq].
Defined.

(** 11 bytes left and an input of 11 bytes. *)
Lemma admission_is_by_size_witness :
  ∃ s s' s'',
    exampleRun 1 11 [] = Some s ∧
    @step exampleEnvironment (LCall (CallTranslate "hello world")) s = Some s' ∧
    @step exampleEnvironment LAdvance s' = Some s'' ∧
    capacityBytes_ s'' = 0%Z.
Proof.
  exists_state (exampleRun 1 11 []).
  match goal with
  | |- ∃ s' s'', _ = Some ?s ∧ _ =>
      destruct (@admission_is_by_size exampleEnvironment (exampleOptions 1 11)
                  (exampleEnvironment_representable 11 ltac:(lia)) s
                  (CallTranslate "hello world") "hello world" 0 None)
        as (s' & Hstep & [(Hbig & _) | (_ & _ & _ & s'' & Hadv & Hcap & _)] & _)
  end.
  - apply (exampleRun_reachable 1 11 []). vm_compute. reflexivity.
  - reflexivity.
  - right. split; [reflexivity | left; reflexivity].
  - vm_compute in Hbig. discriminate Hbig.
  - exists s', s''. split; [vm_compute; reflexivity |].
    split; [exact Hstep |]. split; [exact Hadv |].
    rewrite Hcap. vm_compute. reflexivity.
Defined.

(** [translatePart] at line 7. *)
Lemma accepted_submission_makes_one_request_witness :
  ∃ s s' req,
    exampleRun 1 100 [] = Some s ∧
    @run exampleEnvironment
      [LCall (CallTranslatePart "hello world" 7);
       LAdvance; LAdvance; LAdvance; LAdvance] s = Some s' ∧
    requests s' !! 0 = Some req ∧
    lineNumberBegin req = 7%Z ∧ source req = "hello world" ∧ promise req = 0.
Proof.
  exists_state (exampleRun 1 100 []).
  exists_state (exampleRun 1 100
                  [LCall (CallTranslatePart "hello world" 7);
                   LAdvance; LAdvance; LAdvance; LAdvance]).
  match goal with
  | |- ∃ req, _ = Some ?s ∧ _ = Some ?s' ∧ _ =>
      destruct (@accepted_submission_makes_one_request exampleEnvironment
                  (exampleOptions 1 100) s s'
                  (CallTranslatePart "hello world" 7) "hello world" 7 None
                  [LAdvance; LAdvance; LAdvance; LAdvance])
        as (_ & _ & _ & req & tr & Hr & _ & Hline & _ & Hsrc & _ & _ & Hp & _)
  end.
  - apply (exampleRun_reachable 1 100 []). vm_compute. reflexivity.
  - reflexivity.
  - left. reflexivity.
  - vm_compute. discriminate.
  - reflexivity.
  - vm_compute. reflexivity.
  - reflexivity.
  - exists req. split; [vm_compute; reflexivity |].
    split; [vm_compute; reflexivity |].
    split; [exact Hr |]. split; [exact Hline |]. split; [exact Hsrc | exact Hp].
Defined.

(** The request of "hello world" and its tracker. *)
Lemma tracker_tells_the_state_of_its_request_witness :
  ∃ s tr,
    exampleRun 1 16 submitAndReject = Some s ∧
    trackers s !! 0 = Some tr ∧ tracked tr = Some 0.
Proof.
  exists_state (exampleRun 1 16 submitAndReject).
  match goal with
  | |- ∃ tr, _ = Some ?s ∧ _ =>
      destruct (@tracker_tells_the_state_of_its_request exampleEnvironment
                  (exampleOptions 1 16) s) as (_ & Hreq & _);
      [| destruct (Hreq 0 (mkRequest 0 0 20 "hello world"
                             [[104; 101; 108; 108; 111];
                              [119; 111; 114; 108; 100]] [] 0 2
                             [CompletionCallback 0 11]))
           as (tr & Htr & Htracked)]
  end.
  - apply (exampleRun_reachable 1 16 submitAndReject). vm_compute. reflexivity.
  - vm_compute. reflexivity.
  - exists tr. split; [vm_compute; reflexivity |]. split; [exact Htr | exact Htracked].
Defined.

(** The rejection of "how are you" stays as it is while the worker
    translates "hello world". *)
Lemma resolved_tracker_is_final_witness :
  ∃ s s',
    exampleRun 1 16 submitAndReject = Some s ∧
    @run exampleEnvironment [LWorker 0; LWorker 0; LWorker 0; LWorker 0] s
      = Some s' ∧
    trackers s' !! 1 = Some (mkTracker REJECTED_MEMORY (Some EmptyResponse) None).
Proof.
  exists_state (exampleRun 1 16 submitAndReject).
  exists_state (exampleRun 1 16
                  (submitAndReject ++ [LWorker 0; LWorker 0; LWorker 0; LWorker 0])).
  split; [vm_compute; reflexivity |].
  split; [vm_compute; reflexivity |].
  match goal with
  | |- trackers ?s' !! _ = _ =>
      apply (@resolved_tracker_is_final exampleEnvironment (exampleOptions 1 16)
               (mkSystem 1 1 [Some 0; Some 0] [] 5 (mkPCQueue 2 [Sentences [(0, 0); (0, 1)]])
                  [0] [0]
                  [mkTracker QUEUED None (Some 0);
                   mkTracker REJECTED_MEMORY (Some EmptyResponse) None]
                  [mkRequest 0 0 20 "hello world"
                     [[104; 101; 108; 108; 111]; [119; 111; 114; 108; 100]] [] 0 2
                     [CompletionCallback 0 11]]
                  [Initializing]
                  [EAsync QueueInBackground; EProcess "hello world";
                   ENewRequest 0 0 20; EAddWholeRequest 0;
                   EProduce (Sentences [(0, 0); (0, 1)])]
                  (Outside (Some 1)))
               s' [LWorker 0; LWorker 0; LWorker 0; LWorker 0])
  end.
  - apply (exampleRun_reachable 1 16 submitAndReject). vm_compute. reflexivity.
  - vm_compute. reflexivity.
  - reflexivity.
  - discriminate.
Defined.

(** After [translate] has returned, the batcher is empty. *)
Lemma batcher_is_empty_between_calls_witness :
  ∃ s,
    exampleRun 1 16 submitHello = Some s ∧
    @pending exampleEnvironment (batcher_ s) = [] ∧
    @amend exampleEnvironment 0 5 s =
      @set_caller exampleEnvironment (Outside None)
        (@emit exampleEnvironment (EAsync (AmendClosure 0 5)) s).
Proof.
  exists_state (exampleRun 1 16 submitHello).
  split; [vm_compute; reflexivity |].
  match goal with
  | |- pending (batcher_ ?s) = _ ∧ _ =>
      destruct (@batcher_is_empty_between_calls exampleEnvironment
                  exampleEnvironment_laws (exampleOptions 1 16) s (Some 0))
        as (Hnil & _ & Hamend)
  end.
  - apply (exampleRun_reachable 1 16 submitHello). vm_compute. reflexivity.
  - reflexivity.
  - split; [exact Hnil | exact (Hamend 0 5%Z)].
Defined.

(** The worker has taken the one batch pushed. *)
Lemma queue_hands_on_every_batch_witness :
  ∃ s,
    exampleRun 1 16 translatingHello = Some s ∧
    pushed (log s) ≡ₚ
      taken (log s) ++
      replicate (@exitedCount exampleEnvironment s) Poison ++ items (pcqueue_ s).
Proof.
  exists_state (exampleRun 1 16 translatingHello).
  split; [vm_compute; reflexivity |].
  match goal with
  | |- pushed (log ?s) ≡ₚ _ =>
      destruct (@queue_hands_on_every_batch exampleEnvironment
                  (exampleOptions 1 16) s) as (Hq & _)
  end.
  - apply (exampleRun_reachable 1 16 translatingHello). vm_compute. reflexivity.
  - simpl. lia.
  - exact Hq.
Defined.

(** Once the worker has translated both sentences of "hello world". *)
Lemma quiescent_service_has_answered_witness :
  ∃ s,
    exampleRun 1 16 translatedHello = Some s ∧
    trackers s !! 0 =
      Some (mkTracker SUCCESS (Some (TranslatedResponse "hello world")) (Some 0)) ∧
    capacityBytes_ s = 16%Z.
Proof.
  exists_state (exampleRun 1 16 translatedHello).
  split; [vm_compute; reflexivity |].
  match goal with
  | |- trackers ?s !! _ = _ ∧ _ =>
      destruct (@quiescent_service_has_answered exampleEnvironment
                  exampleEnvironment_laws (exampleOptions 1 16) s)
        as (_ & Hdone & Hcap)
  end.
  - apply (exampleRun_reachable 1 16 translatedHello). vm_compute. reflexivity.
  - vm_compute. reflexivity.
  - split.
    + apply (Hdone 0 (mkRequest 0 0 20 "hello world"
                        [[104; 101; 108; 108; 111]; [119; 111; 114; 108; 100]]
                        [] 0 0 [CompletionCallback 0 11])).
      * vm_compute. reflexivity.
      * discriminate.
    + apply Hcap.
      * apply exampleEnvironment_representable. simpl. lia.
      * repeat constructor; discriminate.
      * eexists. reflexivity.
Defined.

(** Five sentences, three batches, a queue of two slots: the call
    returns all the same. *)
Lemma translate_can_return_witness :
  ∃ s sched s',
    exampleRun 1 100 [] = Some s ∧
    forallb (λ l, negb (isCall l)) sched = true ∧
    @run exampleEnvironment (LCall (CallTranslate "a b c d e") :: sched) s
      = Some s' ∧
    caller s' = Outside (Some 0).
Proof.
  exists_state (exampleRun 1 100 []).
  match goal with
  | |- ∃ sched s', _ = Some ?s ∧ _ =>
      destruct (@translate_can_return exampleEnvironment
                  exampleEnvironment_laws (exampleOptions 1 100) s
                  (CallTranslate "a b c d e") "a b c d e" 0 None)
        as (sched & s' & Hsched & Hrun & Hpc)
  end.
  - apply (exampleRun_reachable 1 100 []). vm_compute. reflexivity.
  - reflexivity.
  - right. split; [reflexivity | left; reflexivity].
  - right. discriminate.
  - exists sched, s'. split; [vm_compute; reflexivity |].
    split; [exact Hsched |]. split; [exact Hrun | exact Hpc].
Defined.

(** The worker can finish "hello world". *)
Lemma workers_answer_every_request_witness :
  ∃ s sched s',
    exampleRun 1 16 submitHello = Some s ∧
    forallb isWorker sched = true ∧
    @run exampleEnvironment sched s = Some s' ∧
    trackers s' !! 0 =
      Some (mkTracker SUCCESS (Some (TranslatedResponse "hello world")) (Some 0)).
Proof.
  exists_state (exampleRun 1 16 submitHello).
  match goal with
  | |- ∃ sched s', _ = Some ?s ∧ _ =>
      destruct (@workers_answer_every_request exampleEnvironment
                  exampleEnvironment_laws (exampleOptions 1 16) s (Some 0))
        as (sched & s' & Hsched & Hrun & _ & _ & Hdone)
  end.
  - apply (exampleRun_reachable 1 16 submitHello). vm_compute. reflexivity.
  - reflexivity.
  - right. discriminate.
  - exists sched, s'. split; [vm_compute; reflexivity |].
    split; [exact Hsched |]. split; [exact Hrun |].
    apply (Hdone 0 (mkRequest 0 0 20 "hello world"
                      [[104; 101; 108; 108; 111]; [119; 111; 114; 108; 100]]
                      [] 0 2 [CompletionCallback 0 11])).
    + reflexivity.
    + discriminate.
Defined.

(** "hello world" is answered. *)
Lemma accepted_submission_is_answered_witness :
  ∃ s sched s',
    exampleRun 1 16 [] = Some s ∧
    @run exampleEnvironment (LCall (CallTranslate "hello world") :: sched) s
      = Some s' ∧
    trackers s' !! 0 =
      Some (mkTracker SUCCESS (Some (TranslatedResponse "hello world")) (Some 0)).
Proof.
  exists_state (exampleRun 1 16 []).
  match goal with
  | |- ∃ sched s', _ = Some ?s ∧ _ =>
      destruct (@accepted_submission_is_answered exampleEnvironment
                  exampleEnvironment_laws (exampleOptions 1 16) s
                  (CallTranslate "hello world") "hello world" 0 None)
        as (sched & s' & _ & Hrun & _ & Hdone)
  end.
  - apply (exampleRun_reachable 1 16 []). vm_compute. reflexivity.
  - reflexivity.
  - right. split; [reflexivity | left; reflexivity].
  - vm_compute. discriminate.
  - vm_compute. discriminate.
  - right. discriminate.
  - exists sched, s'. split; [vm_compute; reflexivity |].
    split; [exact Hrun | exact Hdone].
Defined.

(** After the shutdown "hello world" is accepted and pushed into the
    queue, and stays there. *)
Lemma nothing_is_translated_after_stop_witness :
  ∃ s s',
    exampleRun 1 16 stopService = Some s ∧
    @run exampleEnvironment submitHello s = Some s' ∧
    translated (log s') = [] ∧
    threads s' = [Exited].
Proof.
  exists_state (exampleRun 1 16 stopService).
  exists_state (exampleRun 1 16 (stopService ++ submitHello)).
  split; [vm_compute; reflexivity |].
  split; [vm_compute; reflexivity |].
  match goal with
  | |- translated (log ?s') = _ ∧ _ =>
      destruct (@nothing_is_translated_after_stop exampleEnvironment
                  (exampleOptions 1 16)
                  (mkSystem 0 1 [Some 0; Some 0] [] 16 (mkPCQueue 2 []) [] [0]
                     [] [] [Exited] [EProduce Poison; EJoin 0] (Outside None))
                  s' submitHello None)
        as (Hdead & Hlog & _)
  end.
  - apply (exampleRun_reachable 1 16 stopService). vm_compute. reflexivity.
  - simpl. lia.
  - reflexivity.
  - reflexivity.
  - vm_compute. reflexivity.
  - split; [exact Hlog | reflexivity].
Defined.

(** After the shutdown, five sentences: two batches fill the queue, and the
    third is never pushed. *)
Lemma translate_after_stop_blocks_witness :
  ∃ s,
    exampleRun 1 100 (stopService ++ submitFive) = Some s ∧
    caller s = QueueInBackground_produce 0 ∧
    ∀ lbl, @step exampleEnvironment lbl s = None.
Proof.
  exists_state (exampleRun 1 100 (stopService ++ submitFive)).
  split; [vm_compute; reflexivity |].
  split; [reflexivity |].
  match goal with
  | |- ∀ lbl, step lbl ?s = None =>
      destruct (@translate_after_stop_blocks exampleEnvironment
                  (exampleOptions 1 100) s 0 [(0, 4)] []) as [Hstuck _]
  end.
  - apply (exampleRun_reachable 1 100 (stopService ++ submitFive)).
    vm_compute. reflexivity.
  - reflexivity.
  - reflexivity.
  - vm_compute. reflexivity.
  - simpl. lia.
  - exact Hstuck.
Defined.

(** Without workers, 16 bytes: three spaces are accepted and never
    answered. *)
Lemma translate_without_sentences_is_not_answered_witness :
  ∃ s s',
    exampleRun 0 16 [] = Some s ∧
    @process exampleEnvironment "   " = ([], []) ∧
    @run exampleEnvironment submitBlank s = Some s' ∧
    caller s' = Outside (Some 0) ∧
    trackers s' !! 0 = Some (mkTracker QUEUED None (Some 0)) ∧
    capacityBytes_ s' = 13%Z ∧
    (∀ l, isCall l = false → @step exampleEnvironment l s' = None).
Proof.
  exists_state (exampleRun 0 16 []).
  match goal with
  | |- ∃ s', _ = Some ?s ∧ _ =>
      destruct (@translate_without_sentences_is_not_answered
                  exampleEnvironment exampleEnvironment_laws
                  (exampleOptions 0 16) s (CallTranslate "   ") "   " None)
        as (s' & Hrun & Hout & _ & Ht & Hcap & Hstuck & _)
  end.
  - apply exampleEnvironment_representable. simpl. lia.
  - reflexivity.
  - apply (exampleRun_reachable 0 16 []). vm_compute. reflexivity.
  - reflexivity.
  - left. reflexivity.
  - vm_compute. discriminate.
  - reflexivity.
  - exists s'. split_and!; try done.
Defined.
